(** * DomService (browser_use/dom/service.py): reconstruction of the DOM tree,
      cross-origin iframe splicing and the selector map.

    The Python objects built by [_parse_node] are mutable and carry parent
    back-references, so the nodes live in a store: a node reference is the
    index of the node in the store, object identity is equality of indices,
    and allocation appends to the store. *)

From Stdlib Require Import ZArith String List Bool Lia.
From stdpp Require Import base list strings gmap.

Local Open Scope string_scope.
Local Open Scope nat_scope.
Local Open Scope list_scope.

(** ** Values returned by [page.evaluate] *)

(** The JSON-shaped Python value the extraction script returns: [None],
    [bool], [int], [str], [list] and [dict] with string keys.  A dict is kept
    as the list of its bindings in insertion order; a lookup takes the first
    binding of the key (the keys of a Python dict are distinct).  Numbers are
    integers. *)
#[local] Unset Elimination Schemes.
Inductive json : Type :=
| JNull
| JBool (b : bool)
| JNum (n : Z)
| JStr (s : string)
| JArr (items : list json)
| JObj (fields : list (string * json)).
#[local] Set Elimination Schemes.

(** Exceptions the code can raise. *)
Inductive exn : Type :=
| KeyError (key : string)
| AttributeError
| TypeError
| ValidationError
| ValueError (msg : string)
| RecursionError
| PlaywrightError (msg : string).

Inductive result (A : Type) : Type :=
| Ok (a : A)
| Raise (e : exn).
Arguments Ok {A} a.
Arguments Raise {A} e.

Definition bind {A B : Type} (r : result A) (k : A → result B) : result B :=
  match r with
  | Ok a => k a
  | Raise e => Raise e
  end.

Notation "'let*' p ':=' r 'in' k" := (bind r (λ p, k))
  (at level 10, p pattern, r at level 200, k at level 200, only parsing).

Definition is_ok {A : Type} (r : result A) : bool :=
  match r with Ok _ => true | Raise _ => false end.

(** ** Python primitives on these values *)

(** [bool(v)]: [None], [False], [0], the empty string, list and dict are
    falsy. *)
Definition truthy (v : json) : bool :=
  match v with
  | JNull => false
  | JBool b => b
  | JNum n => negb (n =? 0)%Z
  | JStr s => negb (String.eqb s "")
  | JArr items => match items with [] => false | _ :: _ => true end
  | JObj fields => match fields with [] => false | _ :: _ => true end
  end.

(** [d.get(key)], as an option: [None] when the key is absent. *)
Fixpoint dict_get (key : string) (d : list (string * json)) : option json :=
  match d with
  | [] => None
  | (k, v) :: d' => if String.eqb k key then Some v else dict_get key d'
  end.

(** [key in d] *)
Definition contains (d : list (string * json)) (key : string) : bool :=
  match dict_get key d with Some _ => true | None => false end.

(** [d.get(key, default)] *)
Definition get (d : list (string * json)) (key : string) (default : json) : json :=
  match dict_get key d with Some v => v | None => default end.

(** [v[key]] for a string key: [KeyError] on a dict without the key,
    [TypeError] on every other value. *)
Definition getitem (v : json) (key : string) : result json :=
  match v with
  | JObj d =>
      match dict_get key d with
      | Some x => Ok x
      | None => Raise (KeyError key)
      end
  | _ => Raise TypeError
  end.

(** [a == b].  [True == 1] and [False == 0] hold in Python; lists compare
    element by element and dicts binding by binding, whatever the order. *)
Fixpoint py_eq (a b : json) {struct a} : bool :=
  match a, b with
  | JNull, JNull => true
  | JBool x, JBool y => Bool.eqb x y
  | JBool x, JNum n => (Z.b2z x =? n)%Z
  | JNum n, JBool x => (n =? Z.b2z x)%Z
  | JNum n, JNum m => (n =? m)%Z
  | JStr s, JStr t => String.eqb s t
  | JArr xs, JArr ys =>
      (fix go (xs ys : list json) : bool :=
         match xs, ys with
         | [], [] => true
         | x :: xs', y :: ys' => py_eq x y && go xs' ys'
         | _, _ => false
         end) xs ys
  | JObj d, JObj d' =>
      (length d =? length d')%nat &&
      (fix go (d : list (string * json)) : bool :=
         match d with
         | [] => true
         | (k, v) :: r =>
             match dict_get k d' with
             | Some v' => py_eq v v'
             | None => false
             end && go r
         end) d
  | _, _ => false
  end.

(** Whether [hash(v)] is defined: lists and dicts are unhashable. *)
Definition hashable (v : json) : bool :=
  match v with
  | JArr _ | JObj _ => false
  | _ => true
  end.

(** ** The node classes of browser_use.dom.views *)

Abbreviation loc := nat.

(** Modelled from the spec: the class [Coordinates]
    (browser_use.dom.history_tree_processor.view is not in the source tree).
    Spec, data model: a point is [{x: number, y: number}]. *)
Module Coordinates.
Record t : Type := mk { x : Z; y : Z }.
End Coordinates.

(** Modelled from the spec: the class [CoordinateSet] (browser_use.dom.views
    is not in the source tree).  Spec, data model: five points, [topLeft],
    [topRight], [bottomLeft], [bottomRight], [center], plus [width] and
    [height], which are numbers. *)
Module CoordinateSet.
Record t : Type := mk {
    top_left : Coordinates.t;
    top_right : Coordinates.t;
    bottom_left : Coordinates.t;
    bottom_right : Coordinates.t;
    center : Coordinates.t;
    width : Z;
    height : Z }.
End CoordinateSet.

(** Modelled from the spec: the class [ViewportInfo] (browser_use.dom.views
    is not in the source tree).  Spec, data model: [scrollX], [scrollY],
    [width], [height], which are numbers. *)
Module ViewportInfo.
Record t : Type := mk { scroll_x : Z; scroll_y : Z; width : Z; height : Z }.
End ViewportInfo.

(** Modelled from the spec: what the constructors of these classes do with
    a field.  Spec: the fields are numbers and decoding is an exact
    field-by-field copy; a value that is not a number is refused with
    [ValidationError], and so is an absent field. *)
Definition number (v : json) : result Z :=
  match v with
  | JNum n => Ok n
  | _ => Raise ValidationError
  end.

Definition number_field (d : list (string * json)) (key : string) : result Z :=
  match dict_get key d with
  | Some v => number v
  | None => Raise ValidationError
  end.

(** Modelled from the spec: [Coordinates] called with the keyword arguments
    unpacked from [v] (the class is not in the source tree).  Unpacking
    anything but a dict is a [TypeError]; the fields [x] and [y] are copied
    and other keys are ignored. *)
Definition new_Coordinates (v : json) : result Coordinates.t :=
  match v with
  | JObj d =>
      let* x := number_field d "x" in
      let* y := number_field d "y" in
      Ok (Coordinates.mk x y)
  | _ => Raise TypeError
  end.

(** Modelled from the spec: the classes [DOMTextNode] and [DOMElementNode]
    (browser_use.dom.views is not in the source tree).  The fields are the
    keyword arguments the constructor calls of [_parse_node] pass, in the
    data model of the spec; the constructor stores its arguments as they
    are, without validation.  [children] and [parent] hold references, and
    a node object is truthy. *)
Module DOMTextNode.
Record t : Type := mk {
    text : json;
    is_visible : json;
    parent : option loc }.
End DOMTextNode.

Module DOMElementNode.
Record t : Type := mk {
    tag_name : json;
    xpath : json;
    attributes : json;
    children : list loc;
    is_visible : json;
    is_interactive : json;
    is_top_element : json;
    highlight_index : json;
    shadow_root : json;
    is_cross_oirigin_iframe : json;
    id : json;
    parent : option loc;
    viewport_coordinates : option CoordinateSet.t;
    page_coordinates : option CoordinateSet.t;
    viewport_info : option ViewportInfo.t }.

(** [e.children = cs] *)
Definition set_children (cs : list loc) (e : t) : t :=
    mk (tag_name e) (xpath e) (attributes e) cs (is_visible e)
       (is_interactive e) (is_top_element e) (highlight_index e)
       (shadow_root e) (is_cross_oirigin_iframe e) (id e) (parent e)
       (viewport_coordinates e) (page_coordinates e) (viewport_info e).

(** [e.parent = p] *)
Definition set_parent (p : option loc) (e : t) : t :=
    mk (tag_name e) (xpath e) (attributes e) (children e) (is_visible e)
       (is_interactive e) (is_top_element e) (highlight_index e)
       (shadow_root e) (is_cross_oirigin_iframe e) (id e) p
       (viewport_coordinates e) (page_coordinates e) (viewport_info e).
End DOMElementNode.

Inductive DOMBaseNode : Type :=
| TextNode (t : DOMTextNode.t)
| ElementNode (e : DOMElementNode.t).

(** The store of node objects. *)
Abbreviation heap := (list DOMBaseNode).

Definition parent_of (h : heap) (n : loc) : option loc :=
  match h !! n with
  | Some (TextNode t) => DOMTextNode.parent t
  | Some (ElementNode e) => DOMElementNode.parent e
  | None => None
  end.

Definition children_of (h : heap) (n : loc) : list loc :=
  match h !! n with
  | Some (ElementNode e) => DOMElementNode.children e
  | _ => []
  end.

(** [isinstance(n, DOMElementNode)] *)
Definition is_element (h : heap) (n : loc) : bool :=
  match h !! n with
  | Some (ElementNode _) => true
  | _ => false
  end.

(** [n.children = cs] on an element node of the store *)
Definition set_children (n : loc) (cs : list loc) (h : heap) : heap :=
  match h !! n with
  | Some (ElementNode e) => <[n := ElementNode (DOMElementNode.set_children cs e)]> h
  | _ => h
  end.

(** [n.parent = p] on an element node of the store *)
Definition set_parent (n : loc) (p : option loc) (h : heap) : heap :=
  match h !! n with
  | Some (ElementNode e) => <[n := ElementNode (DOMElementNode.set_parent p e)]> h
  | _ => h
  end.

(** ** [_parse_node] *)

(** The [CoordinateSet(...)] expression of [_parse_node]: the argument
    expressions in their order, [c] being [node_data[key]]. *)
Definition parse_coordinate_set (node_data : json) (key : string) : result CoordinateSet.t :=
  let sub (name : string) : result json :=
    let* c := getitem node_data key in getitem c name in
  let* top_left := (let* p := sub "topLeft" in new_Coordinates p) in
  let* top_right := (let* p := sub "topRight" in new_Coordinates p) in
  let* bottom_left := (let* p := sub "bottomLeft" in new_Coordinates p) in
  let* bottom_right := (let* p := sub "bottomRight" in new_Coordinates p) in
  let* center := (let* p := sub "center" in new_Coordinates p) in
  let* width := sub "width" in
  let* height := sub "height" in
  let* width := number width in
  let* height := number height in
  Ok (CoordinateSet.mk top_left top_right bottom_left bottom_right center width height).

(** The [ViewportInfo(...)] expression of [_parse_node]. *)
Definition parse_viewport_info (node_data : json) : result ViewportInfo.t :=
  let sub (name : string) : result json :=
    let* c := getitem node_data "viewport" in getitem c name in
  let* scroll_x := sub "scrollX" in
  let* scroll_y := sub "scrollY" in
  let* width := sub "width" in
  let* height := sub "height" in
  let* scroll_x := number scroll_x in
  let* scroll_y := number scroll_y in
  let* width := number width in
  let* height := number height in
  Ok (ViewportInfo.mk scroll_x scroll_y width height).

(** [if key in node_data: x = decode(...)], [x] being [None] before. *)
Definition when_present {A : Type} (d : list (string * json)) (key : string)
    (decode : result A) : result (option A) :=
  if contains d key then (let* x := decode in Ok (Some x)) else Ok None.

(** The loop [for child in ...] of [_parse_node] over the entries [cs], with
    the recursive call as [parse] and the list built so far as [children]. *)
Section parse_children.
Variable parse : json → option loc → heap → result (option loc * heap).
Variable element_node : loc.

Fixpoint parse_children (cs : list json) (children : list loc) (h : heap)
      : result (list loc * heap) :=
    match cs with
    | [] => Ok (children, h)
    | child :: cs' =>
        match child with
        | JNull => parse_children cs' children h
        | _ =>
            let* (child_node, h') := parse child (Some element_node) h in
            match child_node with
            | Some n => parse_children cs' (children ++ [n]) h'
            | None => parse_children cs' children h'
            end
        end
    end.
End parse_children.

(** Elimination of [d.get(key, default)] that hands the value found to
    [found]; it equals [found (get d key default)] (lemma [dict_elim_get]) and
    lets [_parse_node] recurse into the value. *)
Section dict_elim.
Context {A : Type} (key : string) (found : json → A) (missing : A).

Fixpoint dict_elim (d : list (string * json)) : A :=
    match d with
    | [] => missing
    | (k, v) :: d' => if String.eqb k key then found v else dict_elim d'
    end.
End dict_elim.

(** What [_parse_node] does on a value that is not a dict: a falsy value
    gives [None], and [node_data.get] on a truthy one is an
    [AttributeError]. *)
Definition parse_non_dict (node_data : json) (parent : option loc) (h : heap)
    : result (option loc * heap) :=
  if negb (truthy node_data) then Ok (None, h) else Raise AttributeError.

(** The values [for child in v] goes through: the items of a list, the
    characters of a string, the keys of a dict; [TypeError] on a value that
    is not iterable. *)
Definition py_iter (v : json) : result (list json) :=
  match v with
  | JArr items => Ok items
  | JStr s => Ok (map (λ c, JStr (String c EmptyString)) (list_ascii_of_string s))
  | JObj d => Ok (map (λ kv, JStr kv.1) d)
  | JNull | JBool _ | JNum _ => Raise TypeError
  end.

(** [_parse_node(node_data, parent)] in the store [h]: the node returned (or
    [None]) and the store left, or the exception raised.  The arguments of
    the constructors are evaluated in the order of the source, so the first
    failing subscript decides the exception.  The recursion follows the raw
    tree; the recursion limit of the interpreter is not modelled. *)
Fixpoint _parse_node (node_data : json) (parent : option loc) (h : heap)
    {struct node_data} : result (option loc * heap) :=
  if negb (truthy node_data) then Ok (None, h) else
  match node_data with
  | JObj d =>
      if py_eq (get d "type" JNull) (JStr "TEXT_NODE") then
        let* text := getitem node_data "text" in
        let* is_visible := getitem node_data "isVisible" in
        let text_node := DOMTextNode.mk text is_visible parent in
        Ok (Some (length h), h ++ [TextNode text_node])
      else
        let* tag_name := getitem node_data "tagName" in
        let* viewport_coordinates :=
          when_present d "viewportCoordinates"
            (parse_coordinate_set node_data "viewportCoordinates") in
        let* page_coordinates :=
          when_present d "pageCoordinates"
            (parse_coordinate_set node_data "pageCoordinates") in
        let* viewport_info :=
          when_present d "viewport" (parse_viewport_info node_data) in
        let* xpath := getitem node_data "xpath" in
        let element_node := length h in
        let h1 := h ++ [ElementNode (DOMElementNode.mk
          tag_name
          xpath
          (get d "attributes" (JObj []))
          []
          (get d "isVisible" (JBool false))
          (get d "isInteractive" (JBool false))
          (get d "isTopElement" (JBool false))
          (get d "highlightIndex" JNull)
          (get d "shadowRoot" (JBool false))
          (get d "crossOriginIframe" (JBool false))
          (get d "id" JNull)
          parent
          viewport_coordinates
          page_coordinates
          viewport_info)] in
        let* (children, h2) :=
          dict_elim "children"
            (λ v, match v with
                  | JArr items => parse_children _parse_node element_node items [] h1
                  | _ =>
                      let* items := py_iter v in
                      parse_children parse_non_dict element_node items [] h1
                  end)
            (Ok ([], h1))
            d in
        Ok (Some element_node, set_children element_node children h2)
  | _ => Raise AttributeError
  end.

(** ** The browser *)

(** What the code gets from Playwright.  [evaluate] is the outcome of
    [page.evaluate(js_code, args)].  [frame i name] is the outcome of
    [page.frame(name)] in the [i]-th round of the resolution loop (frames
    come and go while the loop awaits): [None] when no frame is found, and
    otherwise the outcome of [frame.evaluate(js_code, args)] in the frame
    found. *)
Module Page.
Record t : Type := mk {
    evaluate : result json;
    frame : nat → json → option (result json) }.
End Page.

(** What the code does to the outside, in order: the calls of [page.frame]
    and the lines it prints. *)
Inductive event : Type :=
| CallFrame (name : json)
| Print (msg : string).

(** ** [_build_dom_tree] *)

(** The recursive helpers walk the store; [fuel] bounds the recursion depth
    and running out of it is a [RecursionError].  The callers give the size
    of the store as fuel. *)

Fixpoint find_cross_origin_iframes (fuel : nat) (h : heap) (node : loc)
    : result (list loc) :=
  match fuel with
  | 0 => Raise RecursionError
  | S fuel' =>
      match h !! node with
      | Some (ElementNode e) =>
          let iframes :=
            if truthy (DOMElementNode.is_cross_oirigin_iframe e) then [node] else [] in
          (fix loop (cs : list loc) (iframes : list loc) : result (list loc) :=
             match cs with
             | [] => Ok iframes
             | child :: cs' =>
                 if is_element h child then
                   let* found := find_cross_origin_iframes fuel' h child in
                   loop cs' (iframes ++ found)
                 else loop cs' iframes
             end) (DOMElementNode.children e) iframes
      | _ => Raise AttributeError
      end
  end.

Fixpoint find_iframe_node (fuel : nat) (h : heap) (iframe_id : json) (node : loc)
    : result (option loc) :=
  match fuel with
  | 0 => Raise RecursionError
  | S fuel' =>
      match h !! node with
      | Some (ElementNode e) =>
          if py_eq (DOMElementNode.id e) iframe_id then Ok (Some node) else
          (fix loop (cs : list loc) : result (option loc) :=
             match cs with
             | [] => Ok None
             | child :: cs' =>
                 if is_element h child then
                   let* result := find_iframe_node fuel' h iframe_id child in
                   match result with
                   | Some r => Ok (Some r)
                   | None => loop cs'
                   end
                 else loop cs'
             end) (DOMElementNode.children e)
      | _ => Raise AttributeError
      end
  end.

(** The body of [for iframe in cross_origin_iframes], in round [i]. *)
Definition resolve_iframe (page : Page.t) (html_to_dict : loc) (i : nat)
    (iframe : loc) (h : heap) (log : list event) : result heap * list event :=
  match h !! iframe with
  | Some (ElementNode iframe_e) =>
      let iframe_id := DOMElementNode.id iframe_e in
      let log := log ++ [CallFrame iframe_id] in
      match Page.frame page i iframe_id with
      | None => (Ok h, log)
      | Some frame_evaluate =>
          (let* result := frame_evaluate in
           if truthy result then
             let* (iframe_dom, h1) := _parse_node result None h in
             match iframe_dom with
             | Some dom =>
                 if truthy iframe_id then
                   let* iframe_node := find_iframe_node (length h1) h1 iframe_id html_to_dict in
                   match iframe_node with
                   | Some node =>
                       if is_element h1 dom then
                         Ok (set_children node [dom] (set_parent dom (Some node) h1))
                       else Ok h1
                   | None => Ok h1
                   end
                 else Ok h1
             | None => Ok h1
             end
           else Ok h,
           log)
      end
  | _ => (Raise AttributeError, log)
  end.

(** The loop [for iframe in cross_origin_iframes], from round [i] on. *)
Fixpoint resolve_iframes (page : Page.t) (html_to_dict : loc) (i : nat)
    (cross_origin_iframes : list loc) (h : heap) (log : list event)
    : result heap * list event :=
  match cross_origin_iframes with
  | [] => (Ok h, log)
  | iframe :: rest =>
      match resolve_iframe page html_to_dict i iframe h log with
      | (Ok h', log') => resolve_iframes page html_to_dict (S i) rest h' log'
      | (Raise e, log') => (Raise e, log')
      end
  end.

(** [_build_dom_tree]: the root of the tree and the store it lives in, or the
    exception raised, with the events in their order.  The [else] of the
    [for] runs when the loop ends without [break], and the loop has none. *)
Definition _build_dom_tree (page : Page.t) : result (loc * heap) * list event :=
  match Page.evaluate page with
  | Raise e => (Raise e, [])
  | Ok eval_page =>
      match _parse_node eval_page None [] with
      | Raise e => (Raise e, [])
      | Ok (html_to_dict, h) =>
          match html_to_dict with
          | Some root =>
              if is_element h root then
                match find_cross_origin_iframes (length h) h root with
                | Raise e => (Raise e, [])
                | Ok cross_origin_iframes =>
                    match resolve_iframes page root 0 cross_origin_iframes h [] with
                    | (Ok h', log) => (Ok (root, h'), log ++ [Print "Iframe not found"])
                    | (Raise e, log) => (Raise e, log)
                    end
                end
              else (Raise (ValueError "Failed to parse HTML to dictionary"), [])
          | None => (Raise (ValueError "Failed to parse HTML to dictionary"), [])
          end
      end
  end.

(** ** [_create_selector_map] *)

(** [SelectorMap] is a Python dict from highlight index to node: the
    bindings in insertion order, the keys compared with [==]. *)
Abbreviation SelectorMap := (list (json * loc)).

Fixpoint selector_get (m : SelectorMap) (key : json) : option loc :=
  match m with
  | [] => None
  | (k, n) :: m' => if py_eq k key then Some n else selector_get m' key
  end.

(** [m[key] = n] on a hashable key: an equal key keeps its place and gets the
    new value, a new key goes to the end. *)
Fixpoint selector_set (m : SelectorMap) (key : json) (n : loc) : SelectorMap :=
  match m with
  | [] => [(key, n)]
  | (k, n') :: m' =>
      if py_eq k key then (k, n) :: m' else (k, n') :: selector_set m' key n
  end.

(** [m[key] = n]: [TypeError] on an unhashable key. *)
Definition setitem (m : SelectorMap) (key : json) (n : loc) : result SelectorMap :=
  if hashable key then Ok (selector_set m key n) else Raise TypeError.

(** [v is not None] *)
Definition is_not_None (v : json) : bool :=
  match v with JNull => false | _ => true end.

Fixpoint process_node (fuel : nat) (h : heap) (node : loc) (selector_map : SelectorMap)
    : result SelectorMap :=
  match fuel with
  | 0 => Raise RecursionError
  | S fuel' =>
      match h !! node with
      | Some (ElementNode e) =>
          let* selector_map :=
            (if is_not_None (DOMElementNode.highlight_index e)
             then setitem selector_map (DOMElementNode.highlight_index e) node
             else Ok selector_map) in
          (fix loop (cs : list loc) (selector_map : SelectorMap) : result SelectorMap :=
             match cs with
             | [] => Ok selector_map
             | child :: cs' =>
                 let* selector_map := process_node fuel' h child selector_map in
                 loop cs' selector_map
             end) (DOMElementNode.children e) selector_map
      | _ => Ok selector_map
      end
  end.

Definition _create_selector_map (h : heap) (element_tree : loc) : result SelectorMap :=
  process_node (length h) h element_tree [].

(** ** [get_clickable_elements] *)

Module DOMState.
Record t : Type := mk { element_tree : loc; selector_map : SelectorMap }.
End DOMState.

Definition get_clickable_elements (page : Page.t) : result (DOMState.t * heap) * list event :=
  match _build_dom_tree page with
  | (Ok (element_tree, h), log) =>
      (let* selector_map := _create_selector_map h element_tree in
       Ok (DOMState.mk element_tree selector_map, h), log)
  | (Raise e, log) => (Raise e, log)
  end.

(** ** Shape of the store *)

(** Every child listed by an element was allocated after it, is in the
    store, points back to the element, and is listed once. *)
Definition heap_wf (h : heap) : Prop :=
  ∀ p e, h !! p = Some (ElementNode e) →
    NoDup (DOMElementNode.children e) ∧
    ∀ c, c ∈ DOMElementNode.children e →
      p < c < length h ∧ parent_of h c = Some p.

(** A finished tree: a well-shaped store and an element as root. *)
Definition tree (h : heap) (root : loc) : Prop :=
  heap_wf h ∧ is_element h root = true.

(** The nodes of the tree under [root]. *)
Inductive reachable (h : heap) (root : loc) : loc → Prop :=
| reachable_root : reachable h root root
| reachable_child p e c :
    reachable h root p →
    h !! p = Some (ElementNode e) →
    c ∈ DOMElementNode.children e →
    reachable h root c.

(** The nodes under [node] in pre-order, down to depth [fuel]. *)
Fixpoint preorder (fuel : nat) (h : heap) (node : loc) : list loc :=
  match fuel with
  | 0 => []
  | S fuel' => node :: flat_map (preorder fuel' h) (children_of h node)
  end.

(** The nodes of the tree in the order [process_node] visits them. *)
Definition nodes (h : heap) (root : loc) : list loc :=
  preorder (length h) h root.

(** [n.parent] is an element whose [children] holds [n] itself. *)
Definition parent_owns (h : heap) (n : loc) : Prop :=
  ∃ p e, parent_of h n = Some p ∧ h !! p = Some (ElementNode e) ∧
         n ∈ DOMElementNode.children e.

(** The element constructed by [_parse_node] from the record [d], before
    its children are filled in. *)
Definition new_element (d : list (string * json)) (parent : option loc)
    (tag_name xpath : json)
    (viewport_coordinates page_coordinates : option CoordinateSet.t)
    (viewport_info : option ViewportInfo.t) : DOMElementNode.t :=
  DOMElementNode.mk tag_name xpath (get d "attributes" (JObj [])) []
    (get d "isVisible" (JBool false)) (get d "isInteractive" (JBool false))
    (get d "isTopElement" (JBool false)) (get d "highlightIndex" JNull)
    (get d "shadowRoot" (JBool false)) (get d "crossOriginIframe" (JBool false))
    (get d "id" JNull) parent viewport_coordinates page_coordinates viewport_info.

(** The children collected so far for the element [l]: fresh nodes, each
    allocated after [l] and pointing back to it. *)
Definition children_ok (l : loc) (cs : list loc) (h : heap) : Prop :=
  NoDup cs ∧ ∀ c, c ∈ cs → l < c < length h ∧ parent_of h c = Some l.

(** What a call of [_parse_node] that returns [r] does to the store: it only
    adds nodes and keeps the store well shaped, the node returned is the
    first one added, and its [parent] is the argument given. *)
Definition parse_post (parent : option loc) (h : heap) (r : option loc) (h' : heap) : Prop :=
  h `prefix_of` h' ∧ (heap_wf h → heap_wf h') ∧
  match r with
  | None => h' = h
  | Some n => n = length h ∧ n < length h' ∧ parent_of h' n = parent
  end.

(** [n] is an element whose [is_cross_oirigin_iframe] is truthy. *)
Definition is_cross_origin (h : heap) (n : loc) : bool :=
  match h !! n with
  | Some (ElementNode e) => truthy (DOMElementNode.is_cross_oirigin_iframe e)
  | _ => false
  end.

(** [n] is an element with [n.id == iframe_id]. *)
Definition has_id (h : heap) (iframe_id : json) (n : loc) : bool :=
  match h !! n with
  | Some (ElementNode e) => py_eq (DOMElementNode.id e) iframe_id
  | _ => false
  end.

(** [n.id] of an element ([None] for the other nodes, which have none). *)
Definition id_of (h : heap) (n : loc) : json :=
  match h !! n with
  | Some (ElementNode e) => DOMElementNode.id e
  | _ => JNull
  end.

(** [n.highlight_index] of an element ([None] for a text node, which
    [process_node] skips). *)
Definition highlight_index_of (h : heap) (n : loc) : json :=
  match h !! n with
  | Some (ElementNode e) => DOMElementNode.highlight_index e
  | _ => JNull
  end.

(** [n] is an element with a highlight index that is not [None]. *)
Definition indexed (h : heap) (n : loc) : bool :=
  is_not_None (highlight_index_of h n).

(** What [process_node] does at one node, its children apart. *)
Definition index_node (h : heap) (selector_map : SelectorMap) (n : loc)
    : result SelectorMap :=
  if indexed h n then setitem selector_map (highlight_index_of h n) n
  else Ok selector_map.

(** A loop over a list that stops at the first exception. *)
Fixpoint fold_result {A B : Type} (f : A → B → result A) (l : list B) (a : A)
    : result A :=
  match l with
  | [] => Ok a
  | x :: l' => let* a' := f a x in fold_result f l' a'
  end.

(** Every node reachable from the root except the root is owned by its
    parent, and by no other element. *)
Definition linked (h : heap) (root : loc) : Prop :=
  ∀ n, reachable h root n → n ≠ root →
    parent_owns h n ∧
    ∀ p e, h !! p = Some (ElementNode e) → n ∈ DOMElementNode.children e →
           parent_of h n = Some p.

(** Two states of one node object: the same class and the same fields,
    [children] and [parent] apart (the only fields the code assigns after
    construction). *)
Definition same_object (x y : DOMBaseNode) : Prop :=
  match x, y with
  | TextNode t, TextNode t' => t = t'
  | ElementNode e, ElementNode e' =>
      DOMElementNode.set_parent None (DOMElementNode.set_children [] e) =
      DOMElementNode.set_parent None (DOMElementNode.set_children [] e')
  | _, _ => False
  end.

(** A later state of the store: every object is still there. *)
Definition later_store (h h' : heap) : Prop :=
  ∀ n x, h !! n = Some x → ∃ y, h' !! n = Some y ∧ same_object x y.

(** ** Sample pages *)

(** The raw tree of the end-to-end scenario: a body with a button and a
    text. *)
Definition button_record : json :=
  JObj [("tagName", JStr "button"); ("xpath", JStr "/html/body/button");
        ("isInteractive", JBool true); ("highlightIndex", JNum 0)].

Definition hello_record : json :=
  JObj [("type", JStr "TEXT_NODE"); ("text", JStr "Hello"); ("isVisible", JBool true)].

Definition body_record : json :=
  JObj [("tagName", JStr "body"); ("xpath", JStr "/html/body");
        ("children", JArr [button_record; hello_record])].

(** A cross-origin iframe placeholder with frame id [name] and the children
    [children]. *)
Definition iframe_record (name : string) (children : list json) : json :=
  JObj [("tagName", JStr "iframe"); ("xpath", JStr "/html/body/iframe");
        ("crossOriginIframe", JBool true); ("id", JStr name);
        ("children", JArr children)].

(** A page whose main document is [main] and whose live frames are [frames],
    each with the raw tree its script returns. *)
Definition page_of (main : json) (frames : list (string * json)) : Page.t :=
  Page.mk (Ok main)
    (λ _ name,
       match name with
       | JStr s =>
           match dict_get s frames with
           | Some raw => Some (Ok raw)
           | None => None
           end
       | _ => None
       end).

(** A body holding the placeholder of frame [f1] and a button; the frame
    holds the tree of the end-to-end scenario. *)
Definition framed_body : json :=
  JObj [("tagName", JStr "body"); ("xpath", JStr "/html/body");
        ("children", JArr [iframe_record "f1" [hello_record]; button_record])].

Definition framed_page : Page.t := page_of framed_body [("f1", body_record)].

(** The child [child] of [parent] is the node reconstructed from the raw
    entry [raw]: a call [_parse_node(raw, parent)] returned it, and what that
    call built is still in the store [h]. *)
Definition built_from (h : heap) (parent : loc) (child : loc) (raw : json) : Prop :=
  ∃ h1 h2,
    _parse_node raw (Some parent) h1 = Ok (Some child, h2) ∧
    ∀ i, child ≤ i < length h2 → h !! i = h2 !! i.

(** [v is None] *)
Definition is_None (v : json) : bool := negb (is_not_None v).

(** An element record with five [children] entries, two of them null. *)
Definition five_entries : list json :=
  [button_record; JNull; hello_record; JNull; button_record].

Definition five_entries_fields : list (string * json) :=
  [("tagName", JStr "div"); ("xpath", JStr "/html/body/div");
   ("children", JArr five_entries)].

(** The main document holds the placeholder of frame [f1]; the tree of that
    frame holds the placeholder of frame [f2], and both frames are live. *)
Definition nested_page : Page.t :=
  page_of
    (JObj [("tagName", JStr "body"); ("xpath", JStr "/html/body");
           ("children", JArr [iframe_record "f1" []])])
    [("f1", JObj [("tagName", JStr "body"); ("xpath", JStr "/html/body");
                  ("children", JArr [iframe_record "f2" []])]);
     ("f2", body_record)].

(** The main document holds the placeholder of frame [f1], which is not
    live. *)
Definition detached_page : Page.t :=
  page_of
    (JObj [("tagName", JStr "body"); ("xpath", JStr "/html/body");
           ("children", JArr [iframe_record "f1" [hello_record]])])
    [].

(** The main document holds the placeholder of frame [outer], which itself
    lists the placeholder of frame [inner]; both frames are live and hold
    the tree of the end-to-end scenario. *)
Definition nested_placeholders : json :=
  JObj [("tagName", JStr "body"); ("xpath", JStr "/html/body");
        ("children", JArr [iframe_record "outer" [iframe_record "inner" []]])].

Definition nested_placeholders_page : Page.t :=
  page_of nested_placeholders [("outer", body_record); ("inner", body_record)].

(** The claim on the splice, as stated: in every round of the loop in which
    the frame of the iframe is found and its result is reconstructed as an
    element [dom], some node with the frame id of the iframe gets [dom] as
    its only child and becomes the parent of [dom]. *)
Definition every_resolved_iframe_is_spliced : Prop :=
  ∀ page root i iframe h log result dom h1 h' log',
    heap_wf h → is_element h root = true →
    is_cross_origin h iframe = true →
    Page.frame page i (id_of h iframe) = Some (Ok result) →
    _parse_node result None h = Ok (Some dom, h1) →
    is_element h1 dom = true →
    resolve_iframe page root i iframe h log = (Ok h', log') →
    ∃ placeholder,
      has_id h' (id_of h iframe) placeholder = true ∧
      parent_of h' dom = Some placeholder ∧
      children_of h' placeholder = [dom].

(** The store a run of [_parse_node] leaves, and the store a round of the
    loop leaves (empty when the run raised). *)
Definition store_of {A : Type} (r : result (A * heap)) : heap :=
  match r with Ok (_, h) => h | Raise _ => [] end.

Definition round_store (r : result heap * list event) : heap :=
  match r.1 with Ok h => h | Raise _ => [] end.

(** The stores of [framed_page]: after the main tree is reconstructed, and
    after the tree of frame [f1] is reconstructed. *)
Definition framed_store : heap := store_of (_parse_node framed_body None []).

Definition framed_store_dom : heap := store_of (_parse_node body_record None framed_store).

(** The stores of [nested_placeholders_page]: after the main tree is
    reconstructed, after round 0 of the loop, after the tree of frame
    [inner] is reconstructed in round 1, and after round 1. *)
Definition nested_store_0 : heap := store_of (_parse_node nested_placeholders None []).

Definition nested_store_1 : heap :=
  round_store (resolve_iframe nested_placeholders_page 0 0 1 nested_store_0 []).

Definition nested_store_dom : heap := store_of (_parse_node body_record None nested_store_1).

Definition nested_store_2 : heap :=
  round_store (resolve_iframe nested_placeholders_page 0 1 2 nested_store_1
                 [CallFrame (JStr "outer")]).

(** ** Keys of the selector map *)

(** The value a hashable key stands for: two keys that are [==] are one key
    of a dict ([True] and [1], [False] and [0]).  Lists and dicts cannot be
    keys; they are given the value of [None] here. *)
Inductive key_value : Type :=
| KNone
| KInt (n : Z)
| KStr (s : string).

#[global] Instance key_value_eq_dec : EqDecision key_value.
Proof. solve_decision. Defined.

#[global] Instance key_value_countable : Countable key_value.
Proof.
  refine (inj_countable'
    (λ k, match k with
          | KNone => inl ()
          | KInt n => inr (inl n)
          | KStr s => inr (inr s)
          end)
    (λ x, match x with
          | inl _ => KNone
          | inr (inl n) => KInt n
          | inr (inr s) => KStr s
          end) _).
  intros [ | n | s ]; reflexivity.
Defined.

Definition key_of (v : json) : key_value :=
  match v with
  | JNull => KNone
  | JBool b => KInt (Z.b2z b)
  | JNum n => KInt n
  | JStr s => KStr s
  | JArr _ | JObj _ => KNone
  end.

(** The elements of the tree with a highlight index that is not [None], in
    pre-order. *)
Definition indexed_nodes (h : heap) (root : loc) : list loc :=
  List.filter (indexed h) (nodes h root).

(** The pair [process_node] puts in the map for an indexed element. *)
Definition entry (h : heap) (n : loc) : json * loc := (highlight_index_of h n, n).

(** The distinct highlight indexes of the tree. *)
Definition distinct_indexes (h : heap) (root : loc) : gset key_value :=
  list_to_set (map (λ n, key_of (highlight_index_of h n)) (indexed_nodes h root)).

(** The indexed element with the index [key] that comes last in
    pre-order. *)
Definition last_indexed (h : heap) (root : loc) (key : json) : option loc :=
  find (λ n, py_eq (highlight_index_of h n) key) (rev (indexed_nodes h root)).

(** The highlight indexes of the tree can be keys of a dict (the data model
    has them integers). *)
Definition indexes_hashable (h : heap) (root : loc) : Prop :=
  ∀ n, n ∈ indexed_nodes h root → hashable (highlight_index_of h n) = true.

(** No two elements of the tree have the same highlight index. *)
Definition indexes_unique (h : heap) (root : loc) : Prop :=
  ∀ n1 n2, n1 ∈ indexed_nodes h root → n2 ∈ indexed_nodes h root → n1 ≠ n2 →
    py_eq (highlight_index_of h n1) (highlight_index_of h n2) = false.

(** The page of the end-to-end scenario and the store its build leaves. *)
Definition scenario_page : Page.t := page_of body_record [].

Definition built_store (page : Page.t) : heap :=
  match (_build_dom_tree page).1 with Ok (_, h) => h | Raise _ => [] end.

(** The map the keys of [m] were assigned in: every key is hashable. *)
Definition keys_hashable (m : SelectorMap) : Prop :=
  ∀ k n, (k, n) ∈ m → hashable k = true.

(** ** Fatal inputs *)

(** The Python class of an exception. *)
Definition exn_class (e : exn) : string :=
  match e with
  | KeyError _ => "KeyError"
  | AttributeError => "AttributeError"
  | TypeError => "TypeError"
  | ValidationError => "ValidationError"
  | ValueError _ => "ValueError"
  | RecursionError => "RecursionError"
  | PlaywrightError _ => "Error"
  end.

(** [node_data] is tagged as a text node. *)
Definition is_text_record (d : list (string * json)) : bool :=
  py_eq (get d "type" JNull) (JStr "TEXT_NODE").

(** A record of the raw tree lacks a required field: [text] or [isVisible]
    for a text record, [tagName] or [xpath] for an element record.  The
    records of the tree are the non-empty dicts reached through the
    [children] lists of element records. *)
Inductive lacks_required : json → Prop :=
| lacks_text_field d key :
    truthy (JObj d) = true → is_text_record d = true →
    key = "text" ∨ key = "isVisible" →
    dict_get key d = None →
    lacks_required (JObj d)
| lacks_element_field d key :
    truthy (JObj d) = true → is_text_record d = false →
    key = "tagName" ∨ key = "xpath" →
    dict_get key d = None →
    lacks_required (JObj d)
| lacks_in_child d items child :
    truthy (JObj d) = true → is_text_record d = false →
    dict_get "children" d = Some (JArr items) →
    child ∈ items → lacks_required child →
    lacks_required (JObj d).

(** The top-level results the spec calls fatal: null (or falsy), not a
    record, a text record, or a tree with a record that lacks a required
    field. *)
Definition fatal_result (v : json) : Prop :=
  truthy v = false ∨
  match v with JObj d => is_text_record d = true | _ => True end ∨
  lacks_required v.

(** The claim on the error, as stated: the fatal results all fail with one
    error kind. *)
Definition fatal_results_share_an_error_kind : Prop :=
  ∃ kind, ∀ v page,
    fatal_result v → Page.evaluate page = Ok v →
    ∃ e, (_build_dom_tree page).1 = Raise e ∧ exn_class e = kind.

(** ** Well-formed raw trees *)

(** A raw record as the extraction script is meant to return it: a text
    record with [text] and [isVisible], or an element record with [tagName]
    and [xpath], coordinates that decode when present, and as [children]
    (when present) a list of nulls and well-formed records. *)
#[local] Unset Elimination Schemes.
Inductive well_formed : json → Prop :=
| well_formed_text d :
    is_text_record d = true →
    contains d "text" = true → contains d "isVisible" = true →
    well_formed (JObj d)
| well_formed_element d items :
    truthy (JObj d) = true → is_text_record d = false →
    contains d "tagName" = true → contains d "xpath" = true →
    is_ok (when_present d "viewportCoordinates"
             (parse_coordinate_set (JObj d) "viewportCoordinates")) = true →
    is_ok (when_present d "pageCoordinates"
             (parse_coordinate_set (JObj d) "pageCoordinates")) = true →
    is_ok (when_present d "viewport" (parse_viewport_info (JObj d))) = true →
    get d "children" (JArr []) = JArr items →
    Forall (λ c, c = JNull ∨ well_formed c) items →
    well_formed (JObj d).
#[local] Set Elimination Schemes.

(** ** Further notions for the properties of the code *)

(** The two assignments of a splice: [dom.parent = node] and
    [node.children = [dom]]. *)
Definition splice (node dom : loc) (h : heap) : heap :=
  set_children node [dom] (set_parent dom (Some node) h).

(** What a round of the loop does to the store [h1] it reconstructed the
    frame's tree in, [dom] being the node reconstructed: the source's
    [if iframe.id:], the search, [if iframe_node:] and the [isinstance]
    test. *)
Definition splice_found (root : loc) (iframe_id : json) (dom : loc) (h1 : heap) : heap :=
  if truthy iframe_id then
    match find (has_id h1 iframe_id) (nodes h1 root) with
    | Some node => if is_element h1 dom then splice node dom h1 else h1
    | None => h1
    end
  else h1.

(** The children collected by the loop of [_parse_node] for the element
    [l], with their subtrees, are the nodes of the store from the one after
    [l] on, in pre-order. *)
Definition subtrees_fill (l : loc) (acc : list loc) (h : heap) : Prop :=
  ∀ fuel, length h - S l ≤ fuel →
          flat_map (preorder fuel h) acc = seq (S l) (length h - S l).

(** A body with two placeholders of the same frame [f1], which is live and
    holds the tree of the end-to-end scenario; the store after the main
    tree is reconstructed, and after round 0 of the loop. *)
Definition twin_body : json :=
  JObj [("tagName", JStr "body"); ("xpath", JStr "/html/body");
        ("children", JArr [iframe_record "f1" []; iframe_record "f1" []])].

Definition twin_page : Page.t := page_of twin_body [("f1", body_record)].

Definition twin_store_0 : heap := store_of (_parse_node twin_body None []).

Definition twin_store_1 : heap :=
  round_store (resolve_iframe twin_page 0 0 1 twin_store_0 []).

Definition twin_store_2 : heap :=
  round_store (resolve_iframe twin_page 0 1 2 twin_store_1 [CallFrame (JStr "f1")]).

(** Two calls end the same way: both return, a node in both or [None] in
    both, or both raise the same exception. *)
Definition same_outcome {A : Type} (r r' : result (option loc * A)) : Prop :=
  match r, r' with
  | Ok (n, _), Ok (n', _) => is_Some n ↔ is_Some n'
  | Raise e, Raise e' => e = e'
  | _, _ => False
  end.

(** Two runs of the loop over the children end the same way. *)
Definition same_ending {A B : Type} (r : result A) (r' : result B) : Prop :=
  match r, r' with
  | Ok _, Ok _ => True
  | Raise e, Raise e' => e = e'
  | _, _ => False
  end.

(** ** The claims on dropped entries, skipped placeholders and nested
    iframes, as stated *)

(** Five [children] entries, two of them null and one an empty record. *)
Definition five_entries_one_empty : list json :=
  [button_record; JNull; JObj []; JNull; hello_record].

Definition five_entries_one_empty_fields : list (string * json) :=
  [("tagName", JStr "div"); ("xpath", JStr "/html/body/div");
   ("children", JArr five_entries_one_empty)].

(** The claim on the children, as stated: the null entries are the ones
    dropped.  The children of the node are the nodes reconstructed from the
    non-null entries, in their order, so five entries with two nulls give
    three children. *)
Definition null_entries_alone_are_dropped : Prop :=
  ∀ d items parent h n h',
    is_text_record d = false →
    dict_get "children" d = Some (JArr items) →
    _parse_node (JObj d) parent h = Ok (Some n, h') →
    Forall2 (built_from h' n) (children_of h' n) (List.filter is_not_None items) ∧
    (length items = 5 → length (List.filter is_None items) = 2 →
     length (children_of h' n) = 3).

(** The claim on a skipped placeholder, as stated: a cross-origin iframe
    [P] of the reconstructed tree for which [page.frame] finds no frame when
    the loop comes to it (round [i]) has, in the tree the build returns, its
    original children and its flag. *)
Definition skipped_placeholders_are_kept : Prop :=
  ∀ page eval_page root h0 iframes i P h log,
    Page.evaluate page = Ok eval_page →
    _parse_node eval_page None [] = Ok (Some root, h0) →
    find_cross_origin_iframes (length h0) h0 root = Ok iframes →
    iframes !! i = Some P →
    Page.frame page i (id_of h0 P) = None →
    _build_dom_tree page = (Ok (root, h), log) →
    children_of h P = children_of h0 P ∧ is_cross_origin h P = true.

(** A body with two placeholders of frame [f1], the first with a text under
    it, and between them the placeholder of frame [f2].  Frame [f2] is live
    all along; frame [f1] is attached while the script of [f2] is awaited in
    round 1, so it is not found in round 0 and found in round 2. *)
Definition late_frame_body : json :=
  JObj [("tagName", JStr "body"); ("xpath", JStr "/html/body");
        ("children", JArr [iframe_record "f1" [hello_record]; iframe_record "f2" [];
                           iframe_record "f1" []])].

Definition late_frame_page : Page.t :=
  Page.mk (Ok late_frame_body)
    (λ i name,
       Page.frame
         (page_of late_frame_body
            (match i with
             | 0 => [("f2", body_record)]
             | S _ => [("f1", body_record); ("f2", body_record)]
             end)) i name).

Definition late_frame_store_0 : heap := store_of (_parse_node late_frame_body None []).

(** The claim on nested iframes, as stated: a cross-origin iframe [n] that
    came into the store with a spliced subtree (it is in the store [hk] the
    first [k] rounds leave, and not in the tree as first reconstructed) is
    not resolved in the same build: in the tree returned it has the children
    it came with. *)
Definition spliced_iframes_stay_unresolved : Prop :=
  ∀ page eval_page root h0 iframes k hk logk h log n,
    Page.evaluate page = Ok eval_page →
    _parse_node eval_page None [] = Ok (Some root, h0) →
    find_cross_origin_iframes (length h0) h0 root = Ok iframes →
    resolve_iframes page root 0 (take k iframes) h0 [] = (Ok hk, logk) →
    _build_dom_tree page = (Ok (root, h), log) →
    length h0 ≤ n → is_cross_origin hk n = true →
    children_of h n = children_of hk n.

(** The main document holds the placeholders of the frames [f1] and [f2];
    the tree of frame [f1] holds a placeholder of frame [f2] too, and both
    frames are live. *)
Definition nested_twin_body : json :=
  JObj [("tagName", JStr "body"); ("xpath", JStr "/html/body");
        ("children", JArr [iframe_record "f1" []; iframe_record "f2" []])].

Definition nested_twin_page : Page.t :=
  page_of nested_twin_body
    [("f1", JObj [("tagName", JStr "body"); ("xpath", JStr "/html/body");
                  ("children", JArr [iframe_record "f2" []])]);
     ("f2", body_record)].

(** The stores of [nested_twin_page]: after the main tree is reconstructed,
    and after round 0 of the loop. *)
Definition nested_twin_store_0 : heap := store_of (_parse_node nested_twin_body None []).

Definition nested_twin_store_1 : heap :=
  round_store (resolve_iframe nested_twin_page 0 0 1 nested_twin_store_0 []).

(** * Properties *)

(** ** Values *)

(** Induction principle that reaches the values nested in lists and dicts. *)
Lemma json_nested_ind (P : json → Prop) :
  P JNull → (∀ b, P (JBool b)) → (∀ n, P (JNum n)) → (∀ s, P (JStr s)) →
  (∀ items, Forall P items → P (JArr items)) →
  (∀ fields, Forall (λ kv, P kv.2) fields → P (JObj fields)) →
  ∀ v, P v.
Proof.
  intros HN HB HZ HS HA HO.
  fix IH 1. intros [ | b | n | s | items | fields ].
  - exact HN.
  - apply HB.
  - apply HZ.
  - apply HS.
  - apply HA. induction items as [ | v items IHitems ]; constructor.
    + apply IH.
    + exact IHitems.
  - apply HO. induction fields as [ | [k v] fields IHfields ]; constructor.
    + apply IH.
    + exact IHfields.
Qed.

Lemma dict_elim_get {A : Type} (key : string) (found : json → A) (missing : A) d :
  dict_elim key found missing d =
  match dict_get key d with Some v => found v | None => missing end.
Proof.
  induction d as [ | [k v] d IH ]; simpl; [ reflexivity | ].
  destruct (String.eqb k key); [ reflexivity | exact IH ].
Qed.

Lemma dict_get_elem_of key d v : dict_get key d = Some v → (key, v) ∈ d.
Proof.
  induction d as [ | [k x] d IH ]; simpl; [ discriminate | ].
  destruct (String.eqb_spec k key) as [ -> | _ ].
  - intros [= ->]. left.
  - intros H. right. auto.
Qed.

Lemma bind_Ok {A B : Type} (r : result A) (k : A → result B) b :
  bind r k = Ok b → ∃ a, r = Ok a ∧ k a = Ok b.
Proof. destruct r as [ a | e ]; simpl; [ eauto | discriminate ]. Qed.

Lemma parse_non_dict_eq v parent h :
  match v with JObj _ => False | _ => True end →
  _parse_node v parent h = parse_non_dict v parent h.
Proof. destruct v; simpl; try reflexivity; intros []. Qed.
(** Induction on records: the hypothesis covers the items of every list
    bound in the record. *)
Lemma json_record_ind (P : json → Prop) :
  (∀ v, match v with JObj _ => False | _ => True end → P v) →
  (∀ d, (∀ key items, dict_get key d = Some (JArr items) → Forall P items) → P (JObj d)) →
  ∀ v, P v.
Proof.
  intros Hleaf Hrec v.
  enough (P v ∧ match v with JArr items => Forall P items | _ => True end) as [? _]
    by assumption.
  induction v as [ | b | n | s | items IH | fields IH ] using json_nested_ind;
    try (split; [ apply Hleaf; exact I | exact I ]).
  - split; [ apply Hleaf; exact I | ].
    eapply Forall_impl; [ exact IH | ]. intros x [? _]. assumption.
  - split; [ | exact I ]. apply Hrec. intros key items Hget.
    apply dict_get_elem_of in Hget.
    rewrite Forall_forall in IH. specialize (IH _ Hget). simpl in IH. tauto.
Qed.

(** ** The store *)

Lemma parent_of_app_l (h k : heap) n : n < length h → parent_of (h ++ k) n = parent_of h n.
Proof. intros Hn. unfold parent_of. rewrite lookup_app_l by assumption. reflexivity. Qed.

Lemma prefix_lookup_lt (h h' : heap) n : h `prefix_of` h' → n < length h → h' !! n = h !! n.
Proof. intros [k ->] Hn. apply lookup_app_l. assumption. Qed.

Lemma prefix_parent_of (h h' : heap) n :
  h `prefix_of` h' → n < length h → parent_of h' n = parent_of h n.
Proof. intros Hp Hn. unfold parent_of. rewrite (prefix_lookup_lt h h') by assumption. reflexivity. Qed.

Lemma length_set_children n cs h : length (set_children n cs h) = length h.
Proof. unfold set_children. destruct (h !! n) as [ [ ? | ? ] | ]; rewrite ?length_insert; reflexivity. Qed.

Lemma length_set_parent n p h : length (set_parent n p h) = length h.
Proof. unfold set_parent. destruct (h !! n) as [ [ ? | ? ] | ]; rewrite ?length_insert; reflexivity. Qed.

Lemma lookup_set_children_ne n cs h m : n ≠ m → set_children n cs h !! m = h !! m.
Proof.
  intros Hne. unfold set_children.
  destruct (h !! n) as [ [ ? | ? ] | ]; rewrite ?list_lookup_insert_ne by assumption; reflexivity.
Qed.

Lemma lookup_set_children_eq n cs h e :
  h !! n = Some (ElementNode e) →
  set_children n cs h !! n = Some (ElementNode (DOMElementNode.set_children cs e)).
Proof.
  intros He. unfold set_children. rewrite He.
  apply list_lookup_insert_eq. eapply lookup_lt_Some. exact He.
Qed.

Lemma lookup_set_parent_ne n p h m : n ≠ m → set_parent n p h !! m = h !! m.
Proof.
  intros Hne. unfold set_parent.
  destruct (h !! n) as [ [ ? | ? ] | ]; rewrite ?list_lookup_insert_ne by assumption; reflexivity.
Qed.

Lemma lookup_set_parent_eq n p h e :
  h !! n = Some (ElementNode e) →
  set_parent n p h !! n = Some (ElementNode (DOMElementNode.set_parent p e)).
Proof.
  intros He. unfold set_parent. rewrite He.
  apply list_lookup_insert_eq. eapply lookup_lt_Some. exact He.
Qed.

Lemma parent_of_set_children n cs h m : parent_of (set_children n cs h) m = parent_of h m.
Proof.
  unfold parent_of. destruct (decide (n = m)) as [ <- | Hne ].
  - destruct (h !! n) as [ [ t | e ] | ] eqn:Hn.
    + unfold set_children. rewrite Hn. rewrite Hn. reflexivity.
    + rewrite (lookup_set_children_eq _ _ _ _ Hn). reflexivity.
    + unfold set_children. rewrite Hn. rewrite Hn. reflexivity.
  - rewrite lookup_set_children_ne by assumption. reflexivity.
Qed.

Lemma set_children_prefix (h k : heap) n cs :
  length h ≤ n → h `prefix_of` k → h `prefix_of` set_children n cs k.
Proof.
  intros Hn [new ->]. unfold set_children.
  destruct ((h ++ new) !! n) as [ [ ? | ? ] | ]; try (eexists; reflexivity).
  rewrite insert_app_r_alt by assumption. eexists. reflexivity.
Qed.

Lemma set_parent_prefix (h k : heap) n p :
  length h ≤ n → h `prefix_of` k → h `prefix_of` set_parent n p k.
Proof.
  intros Hn [new ->]. unfold set_parent.
  destruct ((h ++ new) !! n) as [ [ ? | ? ] | ]; try (eexists; reflexivity).
  rewrite insert_app_r_alt by assumption. eexists. reflexivity.
Qed.

(** ** [_parse_node] *)

Lemma parse_children_ext f g l cs :
  Forall (λ c, ∀ p h, f c p h = g c p h) cs →
  ∀ acc h, parse_children f l cs acc h = parse_children g l cs acc h.
Proof.
  induction 1 as [ | c cs Hc _ IH ]; intros acc h; simpl; [ reflexivity | ].
  rewrite Hc. destruct c; try apply IH;
    (destruct (g _ (Some l) h) as [ [ [ x | ] h' ] | e ]; simpl; [ apply IH | apply IH | reflexivity ]).
Qed.

(** [_parse_node] on a dict, as the source reads. *)
Lemma _parse_node_dict d parent h :
  _parse_node (JObj d) parent h =
  if negb (truthy (JObj d)) then Ok (None, h) else
  if py_eq (get d "type" JNull) (JStr "TEXT_NODE") then
    let* text := getitem (JObj d) "text" in
    let* is_visible := getitem (JObj d) "isVisible" in
    Ok (Some (length h), h ++ [TextNode (DOMTextNode.mk text is_visible parent)])
  else
    let* tag_name := getitem (JObj d) "tagName" in
    let* viewport_coordinates :=
      when_present d "viewportCoordinates"
        (parse_coordinate_set (JObj d) "viewportCoordinates") in
    let* page_coordinates :=
      when_present d "pageCoordinates"
        (parse_coordinate_set (JObj d) "pageCoordinates") in
    let* viewport_info := when_present d "viewport" (parse_viewport_info (JObj d)) in
    let* xpath := getitem (JObj d) "xpath" in
    let element_node := length h in
    let h1 := h ++ [ElementNode (new_element d parent tag_name xpath
                      viewport_coordinates page_coordinates viewport_info)] in
    let* (children, h2) :=
      (let* items := py_iter (get d "children" (JArr [])) in
       parse_children _parse_node element_node items [] h1) in
    Ok (Some element_node, set_children element_node children h2).
Proof.
  cbn [_parse_node]. destruct (negb (truthy (JObj d))); [ reflexivity | ].
  destruct (py_eq _ _); [ reflexivity | ].
  destruct (getitem (JObj d) "tagName") as [ tag | e ]; [ | reflexivity ]. cbn [bind].
  destruct (when_present d "viewportCoordinates" _) as [ vc | e ]; [ | reflexivity ]. cbn [bind].
  destruct (when_present d "pageCoordinates" _) as [ pc | e ]; [ | reflexivity ]. cbn [bind].
  destruct (when_present d "viewport" _) as [ vi | e ]; [ | reflexivity ]. cbn [bind].
  destruct (getitem (JObj d) "xpath") as [ xp | e ]; [ | reflexivity ]. cbn [bind].
  f_equal. rewrite dict_elim_get. unfold get, new_element.
  destruct (dict_get "children" d) as [ v | ]; [ | reflexivity ].
  destruct v as [ | b | n | s | items | fields ]; try reflexivity.
  - cbn [py_iter bind]. apply parse_children_ext.
    apply Forall_forall. intros c Hc p h'.
    apply list_elem_of_fmap in Hc as [a [-> _]]. symmetry. apply parse_non_dict_eq. exact I.
  - cbn [py_iter bind]. apply parse_children_ext.
    apply Forall_forall. intros c Hc p h'.
    apply list_elem_of_fmap in Hc as [a [-> _]]. symmetry. apply parse_non_dict_eq. exact I.
Qed.

Lemma heap_wf_nil : heap_wf [].
Proof. intros p e Hp. rewrite lookup_nil in Hp. discriminate. Qed.

Lemma heap_wf_alloc h node :
  heap_wf h → children_of [node] 0 = [] → heap_wf (h ++ [node]).
Proof.
  intros Hwf Hleaf p e Hp.
  destruct (decide (p < length h)) as [ Hlt | Hge ].
  - rewrite lookup_app_l in Hp by assumption.
    destruct (Hwf p e Hp) as [Hnd Hc]. split; [ assumption | ].
    intros c Hin. destruct (Hc c Hin) as [Hr Hpar].
    rewrite length_app. split; [ lia | ].
    rewrite parent_of_app_l by lia. assumption.
  - assert (p = length h) as ->.
    { apply lookup_lt_Some in Hp. rewrite length_app in Hp. simpl in Hp. lia. }
    rewrite list_lookup_middle in Hp by reflexivity. injection Hp as ->.
    unfold children_of in Hleaf. simpl in Hleaf. rewrite Hleaf.
    split; [ constructor | ]. intros c Hin. apply elem_of_nil in Hin. contradiction.
Qed.

Lemma heap_wf_set_children h l cs e :
  heap_wf h → h !! l = Some (ElementNode e) → children_ok l cs h →
  heap_wf (set_children l cs h).
Proof.
  intros Hwf Hl [Hnd Hcs] p e' Hp. rewrite length_set_children.
  destruct (decide (l = p)) as [ <- | Hne ].
  - rewrite (lookup_set_children_eq _ _ _ _ Hl) in Hp. injection Hp as <-. simpl.
    split; [ assumption | ]. intros c Hin. rewrite parent_of_set_children. auto.
  - rewrite lookup_set_children_ne in Hp by assumption.
    destruct (Hwf p e' Hp) as [Hnd' Hc]. split; [ assumption | ].
    intros c Hin. rewrite parent_of_set_children. auto.
Qed.

Lemma children_ok_prefix l cs h h' :
  h `prefix_of` h' → children_ok l cs h → children_ok l cs h'.
Proof.
  intros Hpre [Hnd Hcs]. split; [ assumption | ]. intros c Hin.
  destruct (Hcs c Hin) as [Hr Hpar]. apply prefix_length in Hpre as Hlen.
  split; [ lia | ]. rewrite (prefix_parent_of h h') by (assumption || lia). assumption.
Qed.

Lemma parse_children_post parse l cs :
  Forall (λ c, ∀ parent h r h',
            parse c parent h = Ok (r, h') → parse_post parent h r h') cs →
  ∀ acc h acc' h',
    l < length h → children_ok l acc h →
    parse_children parse l cs acc h = Ok (acc', h') →
    h `prefix_of` h' ∧ (heap_wf h → heap_wf h') ∧ children_ok l acc' h'.
Proof.
  induction 1 as [ | c cs Hc _ IH ]; intros acc h acc' h' Hl Hacc Hrun.
  - simpl in Hrun. injection Hrun as <- <-. auto.
  - assert (Hstep : ∀ r h1, parse c (Some l) h = Ok (r, h1) →
        parse_children parse l cs
          (match r with Some n => acc ++ [n] | None => acc end) h1 = Ok (acc', h') →
        h `prefix_of` h' ∧ (heap_wf h → heap_wf h') ∧ children_ok l acc' h').
    { intros r h1 Hparse Hrest.
      destruct (Hc _ _ _ _ Hparse) as (Hpre1 & Hwf1 & Hr).
      assert (children_ok l (match r with Some n => acc ++ [n] | None => acc end) h1) as Hacc1.
      { destruct r as [ n | ]; [ | subst h1; assumption ].
        destruct Hr as (-> & Hlt & Hpar).
        destruct (children_ok_prefix _ _ _ _ Hpre1 Hacc) as [Hnd Hcs].
        destruct Hacc as [_ Hold]. split.
        - apply NoDup_app. split; [ assumption | ]. split; [ | apply NoDup_singleton ].
          intros x Hx Hx'. apply list_elem_of_singleton in Hx'. subst x.
          destruct (Hold _ Hx) as [? _]. lia.
        - intros x Hx. apply elem_of_app in Hx as [ Hx | Hx ]; [ auto | ].
          apply list_elem_of_singleton in Hx. subst x. auto. }
      apply prefix_length in Hpre1 as Hlen.
      assert (l < length h1) as Hl1 by lia.
      destruct (IH _ _ _ _ Hl1 Hacc1 Hrest) as (? & ? & ?).
      split; [ etrans; eassumption | ]. split; [ auto | assumption ]. }
    simpl in Hrun. destruct c;
      try (apply bind_Ok in Hrun as [ [r h1] [Hparse Hrest] ];
           apply (Hstep r h1 Hparse); destruct r; exact Hrest).
    apply (IH _ _ _ _ Hl Hacc Hrun).
Qed.

Lemma py_iter_arr_items (P : json → Prop) v items :
  (∀ xs, v = JArr xs → Forall P xs) →
  (∀ x, match x with JObj _ => False | _ => True end → P x) →
  py_iter v = Ok items → Forall P items.
Proof.
  intros Harr Hleaf Hit. destruct v; simpl in Hit; try discriminate; injection Hit as <-.
  - apply Forall_forall. intros x Hx. apply list_elem_of_fmap in Hx as [a [-> _]].
    apply Hleaf. exact I.
  - apply Harr. reflexivity.
  - apply Forall_forall. intros x Hx. apply list_elem_of_fmap in Hx as [a [-> _]].
    apply Hleaf. exact I.
Qed.

Lemma parse_post_refl parent h : parse_post parent h None h.
Proof. split; [ reflexivity | ]. split; [ auto | reflexivity ]. Qed.

Lemma parse_non_dict_post v parent h r h' :
  match v with JObj _ => False | _ => True end →
  _parse_node v parent h = Ok (r, h') → parse_post parent h r h'.
Proof.
  intros Hv Hrun. rewrite parse_non_dict_eq in Hrun by assumption.
  unfold parse_non_dict in Hrun. destruct (negb (truthy v)); [ | discriminate ].
  injection Hrun as <- <-. apply parse_post_refl.
Qed.

(** [_parse_node] only extends the store and keeps it well shaped. *)
Lemma _parse_node_post v :
  ∀ parent h r h', _parse_node v parent h = Ok (r, h') → parse_post parent h r h'.
Proof.
  induction v as [ v Hv | d IH ] using json_record_ind; intros parent h r h' Hrun.
  { eapply parse_non_dict_post; eassumption. }
  rewrite _parse_node_dict in Hrun.
  destruct (negb (truthy (JObj d))).
  { injection Hrun as <- <-. apply parse_post_refl. }
  destruct (py_eq _ _).
  - apply bind_Ok in Hrun as [text [_ Hrun]].
    apply bind_Ok in Hrun as [vis [_ Hrun]].
    injection Hrun as <- <-.
    split; [ eexists; reflexivity | ].
    split; [ intros Hwf; apply heap_wf_alloc; [ assumption | reflexivity ] | ].
    split; [ reflexivity | ]. rewrite length_app. simpl. split; [ lia | ].
    unfold parent_of. rewrite list_lookup_middle by reflexivity. reflexivity.
  - apply bind_Ok in Hrun as [tag [_ Hrun]].
    apply bind_Ok in Hrun as [vc [_ Hrun]].
    apply bind_Ok in Hrun as [pc [_ Hrun]].
    apply bind_Ok in Hrun as [vi [_ Hrun]].
    apply bind_Ok in Hrun as [xp [_ Hrun]].
    cbv zeta in Hrun.
    apply bind_Ok in Hrun as [ [cs h2] [Hkids Hrun] ].
    injection Hrun as <- <-.
    apply bind_Ok in Hkids as [items [Hit Hkids]].
    set (e := new_element d parent tag xp vc pc vi) in *.
    set (h1 := h ++ [ElementNode e]) in *.
    assert (length h < length h1) as Hl1 by (unfold h1; rewrite length_app; simpl; lia).
    assert (children_ok (length h) [] h1) as Hnil.
    { split; [ constructor | ]. intros c Hc. apply elem_of_nil in Hc. contradiction. }
    assert (Forall (λ c, ∀ parent h r h',
              _parse_node c parent h = Ok (r, h') → parse_post parent h r h') items) as Hitems.
    { eapply py_iter_arr_items; [ | | exact Hit ].
      - intros xs Hxs. unfold get in Hxs.
        destruct (dict_get "children" d) as [ v | ] eqn:Hget.
        + subst v. eapply IH. eassumption.
        + injection Hxs as <-. constructor.
      - intros x Hx parent' h0 r0 h0'. apply parse_non_dict_post. assumption. }
    destruct (parse_children_post _ _ _ Hitems _ _ _ _ Hl1 Hnil Hkids) as (Hpre2 & Hwf2 & Hcs).
    assert (h1 !! length h = Some (ElementNode e)) as Hl
      by (unfold h1; apply list_lookup_middle; reflexivity).
    assert (h2 !! length h = Some (ElementNode e)) as Hl2
      by (rewrite (prefix_lookup_lt h1 h2); assumption).
    split.
    { apply set_children_prefix; [ lia | ]. etrans; [ | exact Hpre2 ].
      eexists; reflexivity. }
    split.
    { intros Hwf. eapply heap_wf_set_children; [ | eassumption | eassumption ].
      apply Hwf2. apply heap_wf_alloc; [ assumption | reflexivity ]. }
    split; [ reflexivity | ]. rewrite length_set_children.
    apply prefix_length in Hpre2. split; [ lia | ].
    rewrite parent_of_set_children. unfold parent_of. rewrite Hl2. reflexivity.
Qed.

(** ** Reachability and the pre-order walk *)

Lemma heap_wf_linked h root : heap_wf h → linked h root.
Proof.
  intros Hwf n Hreach Hne. split.
  - destruct Hreach as [ | p e c _ Hp Hc ]; [ contradiction | ].
    destruct (Hwf p e Hp) as [_ Hkids]. destruct (Hkids c Hc) as [_ Hpar].
    exists p, e. auto.
  - intros p e Hp Hc. destruct (Hwf p e Hp) as [_ Hkids]. apply Hkids. assumption.
Qed.

Lemma reachable_trans h a b c : reachable h a b → reachable h b c → reachable h a c.
Proof.
  intros Hab Hbc. induction Hbc as [ | p e c _ IH Hp Hc ]; [ assumption | ].
  eapply reachable_child; eassumption.
Qed.

Lemma reachable_head h n x :
  reachable h n x → x = n ∨ ∃ c, c ∈ children_of h n ∧ reachable h c x.
Proof.
  induction 1 as [ | p e c Hreach IH Hp Hc ]; [ left; reflexivity | right ].
  destruct IH as [ -> | (c' & Hc' & Hreach') ].
  - exists c. split; [ | constructor ]. unfold children_of. rewrite Hp. assumption.
  - exists c'. split; [ assumption | ]. eapply reachable_child; eassumption.
Qed.

Lemma elem_of_children_of h p c :
  c ∈ children_of h p ↔ ∃ e, h !! p = Some (ElementNode e) ∧ c ∈ DOMElementNode.children e.
Proof.
  unfold children_of. split.
  - destruct (h !! p) as [ [ t | e ] | ]; intros Hc;
      try (apply elem_of_nil in Hc; contradiction). eauto.
  - intros (e & -> & Hc). assumption.
Qed.

Lemma heap_wf_children_of h p c :
  heap_wf h → c ∈ children_of h p → p < c < length h ∧ parent_of h c = Some p.
Proof.
  intros Hwf Hc. apply elem_of_children_of in Hc as (e & Hp & Hc).
  destruct (Hwf p e Hp) as [_ Hkids]. auto.
Qed.

Lemma reachable_bound h root n :
  heap_wf h → root < length h → reachable h root n → root ≤ n < length h.
Proof.
  intros Hwf Hroot. induction 1 as [ | p e c _ IH Hp Hc ]; [ lia | ].
  destruct (Hwf p e Hp) as [_ Hkids]. destruct (Hkids c Hc) as [? _]. lia.
Qed.

Lemma elem_of_flat_map {A B : Type} (f : A → list B) (l : list A) (y : B) :
  y ∈ flat_map f l ↔ ∃ x, x ∈ l ∧ y ∈ f x.
Proof.
  rewrite list_elem_of_In, in_flat_map. split; intros (x & Hx & Hy); exists x;
    rewrite ?list_elem_of_In in *; auto.
Qed.

Lemma preorder_reachable fuel h n x : x ∈ preorder fuel h n → reachable h n x.
Proof.
  revert n. induction fuel as [ | fuel IH ]; intros n Hx; simpl in Hx.
  - apply elem_of_nil in Hx. contradiction.
  - apply elem_of_cons in Hx as [ -> | Hx ]; [ constructor | ].
    apply elem_of_flat_map in Hx as (c & Hc & Hx).
    apply elem_of_children_of in Hc as (e & Hn & Hc).
    eapply reachable_trans; [ | apply IH; exact Hx ].
    eapply reachable_child; [ constructor | eassumption | assumption ].
Qed.

Lemma reachable_preorder fuel h n x :
  heap_wf h → n < length h → length h ≤ fuel + n →
  reachable h n x → x ∈ preorder fuel h n.
Proof.
  intros Hwf. revert n. induction fuel as [ | fuel IH ]; intros n Hn Hfuel Hx; [ lia | ].
  simpl. apply reachable_head in Hx as [ -> | (c & Hc & Hx) ]; [ left | right ].
  apply elem_of_flat_map. exists c. split; [ assumption | ].
  destruct (heap_wf_children_of _ _ _ Hwf Hc) as [? _]. apply IH; [ lia | lia | assumption ].
Qed.

(** The walk from the root with the size of the store as fuel lists exactly
    the nodes of the tree. *)
Lemma elem_of_nodes h root x :
  heap_wf h → root < length h → x ∈ nodes h root ↔ reachable h root x.
Proof.
  intros Hwf Hroot. unfold nodes. split.
  - apply preorder_reachable.
  - apply reachable_preorder; [ assumption | assumption | lia ].
Qed.

Lemma reachable_comparable h a b x :
  heap_wf h → reachable h a x → reachable h b x → reachable h a b ∨ reachable h b a.
Proof.
  intros Hwf Ha. revert b. induction Ha as [ | p e c Hap IH Hp Hc ]; intros b Hb.
  - right. assumption.
  - inversion Hb as [ | p' e' c' Hbp' Hp' Hc' ]; subst.
    + left. eapply reachable_child; eassumption.
    + destruct (Hwf p e Hp) as [_ Hkids]. destruct (Hkids c Hc) as [_ Hpar].
      destruct (Hwf p' e' Hp') as [_ Hkids']. destruct (Hkids' c Hc') as [_ Hpar'].
      assert (p' = p) as -> by congruence. apply IH. assumption.
Qed.

Lemma siblings_disjoint h n c1 c2 x :
  heap_wf h → c1 ∈ children_of h n → c2 ∈ children_of h n → c1 ≠ c2 →
  reachable h c1 x → reachable h c2 x → False.
Proof.
  intros Hwf H1 H2 Hne Hx1 Hx2.
  destruct (heap_wf_children_of _ _ _ Hwf H1) as [Hb1 Hp1].
  destruct (heap_wf_children_of _ _ _ Hwf H2) as [Hb2 Hp2].
  assert (∀ a b, a ≠ b → n < a < length h → parent_of h b = Some n →
                 reachable h a b → False) as Hbelow.
  { intros a b Hab Ha Hpb Hreach.
    destruct Hreach as [ | p e c Hap Hp Hc ]; [ congruence | ].
    destruct (Hwf p e Hp) as [_ Hkids]. destruct (Hkids c Hc) as [_ Hpar].
    assert (p = n) as -> by congruence.
    apply reachable_bound in Hap; [ lia | assumption | lia ]. }
  destruct (reachable_comparable _ _ _ _ Hwf Hx1 Hx2) as [ H | H ].
  - exact (Hbelow c1 c2 Hne Hb1 Hp2 H).
  - exact (Hbelow c2 c1 (not_eq_sym Hne) Hb2 Hp1 H).
Qed.

Lemma NoDup_flat_map {A B : Type} (f : A → list B) (l : list A) :
  NoDup l → (∀ x, x ∈ l → NoDup (f x)) →
  (∀ x y z, x ∈ l → y ∈ l → x ≠ y → z ∈ f x → z ∈ f y → False) →
  NoDup (flat_map f l).
Proof.
  induction 1 as [ | a l Ha Hl IH ]; intros Hf Hdisj; simpl; [ constructor | ].
  apply NoDup_app. split; [ apply Hf; left | ]. split.
  - intros z Hz Hz'. apply elem_of_flat_map in Hz' as (y & Hy & Hz').
    apply (Hdisj a y z); [ left | right; assumption | | assumption | assumption ].
    intros ->. contradiction.
  - apply IH.
    + intros x Hx. apply Hf. right. assumption.
    + intros x y z Hx Hy. apply Hdisj; right; assumption.
Qed.

(** In a well-shaped store the walk meets every node once: the store holds
    a tree. *)
Lemma NoDup_preorder fuel h n : heap_wf h → NoDup (preorder fuel h n).
Proof.
  intros Hwf. revert n. induction fuel as [ | fuel IH ]; intros n; simpl; [ constructor | ].
  apply NoDup_cons. split.
  - intros Hn. apply elem_of_flat_map in Hn as (c & Hc & Hn).
    destruct (heap_wf_children_of _ _ _ Hwf Hc) as [Hb _].
    apply preorder_reachable, reachable_bound in Hn; [ lia | assumption | lia ].
  - apply NoDup_flat_map.
    + unfold children_of. destruct (h !! n) as [ [ t | e ] | ] eqn:Hn; try constructor.
      apply (Hwf n e Hn).
    + intros c _. apply IH.
    + intros c1 c2 x H1 H2 Hne Hx1 Hx2.
      apply preorder_reachable in Hx1, Hx2.
      exact (siblings_disjoint _ _ _ _ _ Hwf H1 H2 Hne Hx1 Hx2).
Qed.

Lemma NoDup_nodes h root : heap_wf h → NoDup (nodes h root).
Proof. apply NoDup_preorder. Qed.

(** ** The recursive helpers as list functions over the walk *)

Lemma fold_result_app {A B : Type} (f : A → B → result A) l1 l2 a :
  fold_result f (l1 ++ l2) a = let* a' := fold_result f l1 a in fold_result f l2 a'.
Proof.
  revert a. induction l1 as [ | x l1 IH ]; intros a; simpl; [ reflexivity | ].
  destruct (f a x); simpl; [ apply IH | reflexivity ].
Qed.

Lemma find_app {A : Type} (f : A → bool) l1 l2 :
  find f (l1 ++ l2) = match find f l1 with Some x => Some x | None => find f l2 end.
Proof.
  induction l1 as [ | x l1 IH ]; simpl; [ reflexivity | ].
  destruct (f x); [ reflexivity | exact IH ].
Qed.

Lemma filter_flat_map_skip (P : loc → bool) (f : loc → list loc) c cs :
  (∀ x, x ∈ f c → P x = false) →
  List.filter P (flat_map f (c :: cs)) = List.filter P (flat_map f cs).
Proof.
  intros Hskip. simpl. rewrite List.filter_app.
  replace (List.filter P (f c)) with (@nil loc); [ reflexivity | ].
  symmetry. induction (f c) as [ | x l IH ]; simpl; [ reflexivity | ].
  rewrite Hskip by left. apply IH. intros y Hy. apply Hskip. right. assumption.
Qed.

Lemma preorder_not_element fuel h c x :
  is_element h c = false → x ∈ preorder fuel h c → x = c.
Proof.
  intros Hc. destruct fuel as [ | fuel ]; simpl; intros Hx.
  - apply elem_of_nil in Hx. contradiction.
  - unfold children_of in Hx. unfold is_element in Hc.
    destruct (h !! c) as [ [ t | e ] | ]; try discriminate;
      simpl in Hx; apply list_elem_of_singleton in Hx; assumption.
Qed.

Lemma find_cross_origin_iframes_walk fuel h :
  heap_wf h → ∀ node,
    is_element h node = true → length h ≤ fuel + node →
    find_cross_origin_iframes fuel h node =
    Ok (List.filter (is_cross_origin h) (preorder fuel h node)).
Proof.
  intros Hwf. induction fuel as [ | fuel IH ]; intros node Hel Hfuel.
  { unfold is_element in Hel. destruct (h !! node) eqn:Hn; [ | discriminate ].
    apply lookup_lt_Some in Hn. lia. }
  cbn [find_cross_origin_iframes preorder]. unfold is_element in Hel.
  destruct (h !! node) as [ [ t | e ] | ] eqn:Hn; try discriminate.
  assert (children_of h node = DOMElementNode.children e) as Hkids
    by (unfold children_of; rewrite Hn; reflexivity).
  rewrite Hkids. simpl List.filter. unfold is_cross_origin at 1. rewrite Hn.
  assert (Forall (λ c, node < c) (DOMElementNode.children e)) as Hbelow.
  { apply Forall_forall. intros c Hc. destruct (Hwf node e Hn) as [_ Hk].
    destruct (Hk c Hc) as [? _]. lia. }
  set (start := if truthy (DOMElementNode.is_cross_oirigin_iframe e) then [node] else []).
  assert (∀ cs acc, Forall (λ c, node < c) cs →
    (fix loop (cs : list loc) (iframes : list loc) {struct cs} : result (list loc) :=
       match cs with
       | [] => Ok iframes
       | child :: cs' =>
           if is_element h child
           then let* found := find_cross_origin_iframes fuel h child in
                loop cs' (iframes ++ found)
           else loop cs' iframes
       end) cs acc =
    Ok (acc ++ List.filter (is_cross_origin h) (flat_map (preorder fuel h) cs))) as Hloop.
  { clear Hbelow. induction cs as [ | c cs IHcs ]; intros acc Hcs.
    - simpl. rewrite app_nil_r. reflexivity.
    - inversion Hcs as [ | ? ? Hc Hcs' ]; subst.
      destruct (is_element h c) eqn:Hce.
      + rewrite IH by (assumption || lia). cbn [bind]. rewrite IHcs by assumption.
        simpl flat_map. rewrite List.filter_app, app_assoc. reflexivity.
      + rewrite IHcs by assumption. rewrite filter_flat_map_skip; [ reflexivity | ].
        intros x Hx. apply (preorder_not_element _ _ _ _ Hce) in Hx. subst x.
        unfold is_cross_origin. unfold is_element in Hce.
        destruct (h !! c) as [ [ ? | ? ] | ]; try reflexivity. discriminate. }
  rewrite Hloop by assumption.
  destruct (truthy (DOMElementNode.is_cross_oirigin_iframe e)); reflexivity.
Qed.

Lemma find_skip (P : loc → bool) (f : loc → list loc) c cs :
  (∀ x, x ∈ f c → P x = false) →
  find P (flat_map f (c :: cs)) = find P (flat_map f cs).
Proof.
  intros Hskip. simpl. rewrite find_app.
  replace (find P (f c)) with (@None loc); [ reflexivity | ].
  symmetry. induction (f c) as [ | x l IH ]; simpl; [ reflexivity | ].
  rewrite Hskip by left. apply IH. intros y Hy. apply Hskip. right. assumption.
Qed.

Lemma find_iframe_node_walk fuel h iframe_id :
  heap_wf h → ∀ node,
    is_element h node = true → length h ≤ fuel + node →
    find_iframe_node fuel h iframe_id node =
    Ok (find (has_id h iframe_id) (preorder fuel h node)).
Proof.
  intros Hwf. induction fuel as [ | fuel IH ]; intros node Hel Hfuel.
  { unfold is_element in Hel. destruct (h !! node) eqn:Hn; [ | discriminate ].
    apply lookup_lt_Some in Hn. lia. }
  cbn [find_iframe_node preorder find]. unfold is_element in Hel.
  destruct (h !! node) as [ [ t | e ] | ] eqn:Hn; try discriminate.
  assert (children_of h node = DOMElementNode.children e) as Hkids
    by (unfold children_of; rewrite Hn; reflexivity).
  rewrite Hkids. unfold has_id at 1. rewrite Hn.
  destruct (py_eq (DOMElementNode.id e) iframe_id); [ reflexivity | ].
  assert (Forall (λ c, node < c) (DOMElementNode.children e)) as Hbelow.
  { apply Forall_forall. intros c Hc. destruct (Hwf node e Hn) as [_ Hk].
    destruct (Hk c Hc) as [? _]. lia. }
  revert Hbelow. generalize (DOMElementNode.children e).
  induction l as [ | c cs IHcs ]; intros Hcs; [ reflexivity | ].
  inversion Hcs as [ | ? ? Hc Hcs' ]; subst.
  destruct (is_element h c) eqn:Hce.
  - rewrite IH by (assumption || lia). cbn [bind]. simpl flat_map. rewrite find_app.
    destruct (find (has_id h iframe_id) (preorder fuel h c)); [ reflexivity | ].
    apply IHcs. assumption.
  - rewrite IHcs by assumption. rewrite find_skip; [ reflexivity | ].
    intros x Hx. apply (preorder_not_element _ _ _ _ Hce) in Hx. subst x.
    unfold has_id. unfold is_element in Hce.
    destruct (h !! c) as [ [ ? | ? ] | ]; try reflexivity. discriminate.
Qed.

Lemma process_node_walk fuel h :
  heap_wf h → ∀ node selector_map,
    node < length h → length h ≤ fuel + node →
    process_node fuel h node selector_map =
    fold_result (index_node h) (preorder fuel h node) selector_map.
Proof.
  intros Hwf. induction fuel as [ | fuel IH ]; intros node m Hnode Hfuel; [ lia | ].
  cbn [process_node preorder fold_result]. unfold index_node at 1, indexed, highlight_index_of.
  unfold children_of.
  destruct (h !! node) as [ [ t | e ] | ] eqn:Hn; [ reflexivity | | reflexivity ].
  destruct (if is_not_None (DOMElementNode.highlight_index e)
            then setitem m (DOMElementNode.highlight_index e) node
            else Ok m) as [ m1 | err ]; [ | reflexivity ].
  cbn [bind].
  assert (Forall (λ c, node < c < length h) (DOMElementNode.children e)) as Hbelow.
  { apply Forall_forall. intros c Hc. destruct (Hwf node e Hn) as [_ Hk].
    destruct (Hk c Hc) as [? _]. lia. }
  revert m1 Hbelow. generalize (DOMElementNode.children e).
  induction l as [ | c cs IHcs ]; intros m1 Hcs; [ reflexivity | ].
  inversion Hcs as [ | ? ? Hc Hcs' ]; subst.
  simpl flat_map. rewrite fold_result_app. rewrite IH by lia.
  destruct (fold_result (index_node h) (preorder fuel h c) m1); cbn [bind]; [ | reflexivity ].
  apply IHcs. assumption.
Qed.

(** ** The resolution loop *)

Lemma same_object_refl x : same_object x x.
Proof. destruct x; reflexivity. Qed.

Lemma same_object_trans x y z : same_object x y → same_object y z → same_object x z.
Proof.
  destruct x, y, z; simpl; try contradiction; intros H1 H2; congruence.
Qed.

Lemma later_store_refl h : later_store h h.
Proof. intros n x Hn. exists x. split; [ assumption | apply same_object_refl ]. Qed.

Lemma later_store_trans h1 h2 h3 :
  later_store h1 h2 → later_store h2 h3 → later_store h1 h3.
Proof.
  intros H12 H23 n x Hn. destruct (H12 n x Hn) as (y & Hy & Hxy).
  destruct (H23 n y Hy) as (z & Hz & Hyz). exists z.
  split; [ assumption | eapply same_object_trans; eassumption ].
Qed.

Lemma later_store_prefix h h' : h `prefix_of` h' → later_store h h'.
Proof.
  intros Hpre n x Hn. exists x. split; [ | apply same_object_refl ].
  eapply prefix_lookup_Some; eassumption.
Qed.

Lemma later_store_set_children n cs h : later_store h (set_children n cs h).
Proof.
  intros m x Hm. destruct (decide (n = m)) as [ <- | Hne ].
  - destruct x as [ t | e ].
    + exists (TextNode t). unfold set_children. rewrite Hm. split; [ assumption | reflexivity ].
    + rewrite (lookup_set_children_eq _ _ _ _ Hm). eexists. split; reflexivity.
  - rewrite lookup_set_children_ne by assumption. exists x.
    split; [ assumption | apply same_object_refl ].
Qed.

Lemma later_store_set_parent n p h : later_store h (set_parent n p h).
Proof.
  intros m x Hm. destruct (decide (n = m)) as [ <- | Hne ].
  - destruct x as [ t | e ].
    + exists (TextNode t). unfold set_parent. rewrite Hm. split; [ assumption | reflexivity ].
    + rewrite (lookup_set_parent_eq _ _ _ _ Hm). eexists. split; reflexivity.
  - rewrite lookup_set_parent_ne by assumption. exists x.
    split; [ assumption | apply same_object_refl ].
Qed.

Lemma later_store_length h h' : later_store h h' → length h ≤ length h'.
Proof.
  intros Hl. destruct (decide (length h ≤ length h')) as [ | Hgt ]; [ assumption | exfalso ].
  destruct (lookup_lt_is_Some_2 h (length h')) as [x Hx]; [ lia | ].
  destruct (Hl _ _ Hx) as (y & Hy & _). apply lookup_lt_Some in Hy. lia.
Qed.

Lemma later_store_is_element h h' n :
  later_store h h' → is_element h n = true → is_element h' n = true.
Proof.
  unfold is_element. intros Hl Hn.
  destruct (h !! n) as [ [ t | e ] | ] eqn:Hx; try discriminate.
  destruct (Hl _ _ Hx) as (y & -> & Hy). destruct y; [ contradiction | reflexivity ].
Qed.

Lemma later_store_id_of h h' n : later_store h h' → n < length h → id_of h' n = id_of h n.
Proof.
  unfold id_of. intros Hl Hn. destruct (lookup_lt_is_Some_2 h n Hn) as [x Hx].
  destruct (Hl _ _ Hx) as (y & Hy & Hxy). rewrite Hx, Hy.
  destruct x, y; simpl in Hxy; try contradiction; [ reflexivity | ].
  apply (f_equal DOMElementNode.id) in Hxy. simpl in Hxy. congruence.
Qed.

Lemma later_store_is_cross_origin h h' n :
  later_store h h' → n < length h → is_cross_origin h' n = is_cross_origin h n.
Proof.
  unfold is_cross_origin. intros Hl Hn. destruct (lookup_lt_is_Some_2 h n Hn) as [x Hx].
  destruct (Hl _ _ Hx) as (y & Hy & Hxy). rewrite Hx, Hy.
  destruct x, y; simpl in Hxy; try contradiction; [ reflexivity | ].
  apply (f_equal DOMElementNode.is_cross_oirigin_iframe) in Hxy. simpl in Hxy. congruence.
Qed.

Lemma parent_of_set_parent_eq n p h :
  is_element h n = true → parent_of (set_parent n p h) n = p.
Proof.
  unfold is_element, parent_of. intros Hn.
  destruct (h !! n) as [ [ t | e ] | ] eqn:Hx; try discriminate.
  rewrite (lookup_set_parent_eq _ _ _ _ Hx). reflexivity.
Qed.

Lemma heap_wf_set_parent h n p :
  heap_wf h →
  (∀ q e, h !! q = Some (ElementNode e) → n ∉ DOMElementNode.children e) →
  heap_wf (set_parent n p h).
Proof.
  intros Hwf Hfree q e Hq. rewrite length_set_parent.
  assert (∃ e0, h !! q = Some (ElementNode e0) ∧
                DOMElementNode.children e = DOMElementNode.children e0) as (e0 & Hq0 & Hkids).
  { destruct (decide (n = q)) as [ <- | Hne ].
    - unfold set_parent in Hq. destruct (h !! n) as [ [ t | e0 ] | ] eqn:Hn.
      + rewrite Hn in Hq. discriminate.
      + rewrite list_lookup_insert_eq in Hq by (eapply lookup_lt_Some; eassumption).
        injection Hq as <-. eauto.
      + rewrite Hn in Hq. discriminate.
    - rewrite lookup_set_parent_ne in Hq by assumption. eauto. }
  rewrite Hkids. destruct (Hwf q e0 Hq0) as [Hnd Hc]. split; [ assumption | ].
  intros c Hin. destruct (Hc c Hin) as [Hb Hpar]. split; [ assumption | ].
  assert (n ≠ c) as Hne by (intros ->; exact (Hfree q e0 Hq0 Hin)).
  unfold parent_of. rewrite lookup_set_parent_ne by assumption. exact Hpar.
Qed.

Lemma reachable_prefix h h' root n :
  heap_wf h → h `prefix_of` h' → root < length h →
  reachable h' root n → reachable h root n.
Proof.
  intros Hwf Hpre Hroot. induction 1 as [ | p e c Hreach IH Hp Hc ]; [ constructor | ].
  apply reachable_bound in IH as Hb; [ | assumption | assumption ].
  rewrite (prefix_lookup_lt h h') in Hp by (assumption || lia).
  eapply reachable_child; eassumption.
Qed.

Lemma is_element_lt h n : is_element h n = true → n < length h.
Proof.
  unfold is_element. destruct (h !! n) eqn:Hn; [ | discriminate ].
  intros _. eapply lookup_lt_Some. eassumption.
Qed.

Lemma find_iframe_node_found h iframe_id root node :
  heap_wf h → is_element h root = true →
  find_iframe_node (length h) h iframe_id root = Ok (Some node) →
  reachable h root node ∧ has_id h iframe_id node = true.
Proof.
  intros Hwf Hroot Hfind.
  rewrite find_iframe_node_walk in Hfind by (assumption || lia).
  injection Hfind as Hfind. apply find_some in Hfind as [Hin Hid].
  split; [ | assumption ]. eapply preorder_reachable. apply list_elem_of_In. eassumption.
Qed.

(** The splice: [dom.parent = node; node.children = [dom]]. *)
Lemma heap_wf_splice h h1 node dom :
  heap_wf h → heap_wf h1 → h `prefix_of` h1 →
  node < length h → dom = length h → is_element h1 dom = true →
  heap_wf (set_children node [dom] (set_parent dom (Some node) h1)).
Proof.
  intros Hwf Hwf1 Hpre Hnode -> Hdom.
  assert (heap_wf (set_parent (length h) (Some node) h1)) as Hwf2.
  { apply heap_wf_set_parent; [ assumption | ]. intros q e Hq Hin.
    destruct (Hwf1 q e Hq) as [_ Hk]. destruct (Hk _ Hin) as [Hb _].
    rewrite (prefix_lookup_lt h h1) in Hq by (assumption || lia).
    destruct (Hwf q e Hq) as [_ Hk']. destruct (Hk' _ Hin) as [Hb' _]. lia. }
  destruct (set_parent (length h) (Some node) h1 !! node) as [ [ t | e ] | ] eqn:Hn.
  - unfold set_children. rewrite Hn. assumption.
  - eapply heap_wf_set_children; [ exact Hwf2 | exact Hn | ].
    split; [ apply NoDup_singleton | ]. intros c Hc. apply list_elem_of_singleton in Hc. subst c.
    rewrite length_set_parent. apply is_element_lt in Hdom as Hlt.
    split; [ lia | ]. apply parent_of_set_parent_eq. assumption.
  - unfold set_children. rewrite Hn. assumption.
Qed.

(** One round of the loop that ends without an exception: the call of
    [page.frame] is logged, the store stays well shaped, every object stays,
    and an object is as it was unless it has the id looked up and a frame
    was found for it. *)
Lemma resolve_iframe_Ok page root i iframe h log h' log' :
  heap_wf h → is_element h root = true →
  resolve_iframe page root i iframe h log = (Ok h', log') →
  log' = log ++ [CallFrame (id_of h iframe)] ∧
  is_element h iframe = true ∧
  heap_wf h' ∧ later_store h h' ∧
  ∀ n, n < length h →
       (has_id h (id_of h iframe) n = true → Page.frame page i (id_of h iframe) = None) →
       h' !! n = h !! n.
Proof.
  intros Hwf Hroot Hrun. unfold resolve_iframe in Hrun.
  unfold id_of, is_element.
  destruct (h !! iframe) as [ [ t | e ] | ] eqn:Hifr; try discriminate.
  set (name := DOMElementNode.id e) in *.
  destruct (Page.frame page i name) as [ ev | ] eqn:Hframe.
  2:{ injection Hrun as <- <-.
      split; [ reflexivity | ]. split; [ reflexivity | ]. split; [ assumption | ].
      split; [ apply later_store_refl | ]. reflexivity. }
  injection Hrun as Hrun <-. split; [ reflexivity | ]. split; [ reflexivity | ].
  assert (∀ h1, h `prefix_of` h1 → heap_wf h1 →
            heap_wf h1 ∧ later_store h h1 ∧
            ∀ n, n < length h →
                 (has_id h name n = true → Some ev = None) → h1 !! n = h !! n) as Hsame.
  { intros h1 Hpre Hwf1. split; [ assumption | ]. split; [ apply later_store_prefix; assumption | ].
    intros n Hn _. apply prefix_lookup_lt; assumption. }
  apply bind_Ok in Hrun as [ result [_ Hrun] ].
  destruct (truthy result).
  2:{ injection Hrun as <-. apply Hsame; [ reflexivity | assumption ]. }
  apply bind_Ok in Hrun as [ [iframe_dom h1] [Hparse Hrun] ].
  destruct (_parse_node_post _ _ _ _ _ Hparse) as (Hpre & Hwf1 & Hdom).
  specialize (Hwf1 Hwf).
  destruct iframe_dom as [ dom | ].
  2:{ injection Hrun as <-. apply Hsame; assumption. }
  destruct Hdom as (-> & Hlt & _).
  destruct (truthy name).
  2:{ injection Hrun as <-. apply Hsame; assumption. }
  apply bind_Ok in Hrun as [ iframe_node [Hfind Hrun] ].
  destruct iframe_node as [ node | ].
  2:{ injection Hrun as <-. apply Hsame; assumption. }
  destruct (is_element h1 (length h)) eqn:Hdom.
  2:{ injection Hrun as <-. apply Hsame; assumption. }
  injection Hrun as <-.
  assert (is_element h1 root = true) as Hroot1
    by (eapply later_store_is_element; [ apply later_store_prefix | ]; eassumption).
  destruct (find_iframe_node_found _ _ _ _ Hwf1 Hroot1 Hfind) as [Hreach Hid].
  apply is_element_lt in Hroot as Hrlt.
  apply (reachable_prefix h h1) in Hreach; [ | assumption | assumption | assumption ].
  apply reachable_bound in Hreach as [_ Hnode]; [ | assumption | assumption ].
  split; [ apply (heap_wf_splice h h1 node (length h)); (assumption || reflexivity) | ].
  split.
  { eapply later_store_trans; [ apply later_store_prefix; eassumption | ].
    eapply later_store_trans; [ apply later_store_set_parent | apply later_store_set_children ]. }
  intros n Hn Hnone.
  destruct (decide (n = node)) as [ -> | Hne ].
  - assert (Some ev = None); [ | discriminate ]. apply Hnone.
    unfold has_id in *. rewrite <- (prefix_lookup_lt h h1) by assumption. assumption.
  - rewrite lookup_set_children_ne by congruence.
    rewrite lookup_set_parent_ne by lia.
    apply prefix_lookup_lt; assumption.
Qed.

Lemma later_store_has_id h h' name n :
  later_store h h' → n < length h → has_id h' name n = has_id h name n.
Proof.
  unfold has_id. intros Hl Hn. destruct (lookup_lt_is_Some_2 h n Hn) as [x Hx].
  destruct (Hl _ _ Hx) as (y & Hy & Hxy). rewrite Hx, Hy.
  destruct x, y; simpl in Hxy; try contradiction; [ reflexivity | ].
  apply (f_equal DOMElementNode.id) in Hxy. simpl in Hxy. congruence.
Qed.

(** The whole loop, when it ends without an exception: one call of
    [page.frame] per iframe of the list, in the order of the list, with the
    id the iframe had when the loop started. *)
Lemma resolve_iframes_Ok page root iframes :
  ∀ i h log h' log',
    heap_wf h → is_element h root = true → Forall (λ n, n < length h) iframes →
    resolve_iframes page root i iframes h log = (Ok h', log') →
    log' = log ++ map (λ n, CallFrame (id_of h n)) iframes ∧
    heap_wf h' ∧ later_store h h' ∧
    ∀ n, n < length h →
         (∀ k name, has_id h name n = true → Page.frame page k name = None) →
         h' !! n = h !! n.
Proof.
  induction iframes as [ | iframe rest IH ]; intros i h log h' log' Hwf Hroot Hin Hrun.
  - simpl in Hrun. injection Hrun as <- <-. rewrite app_nil_r.
    split; [ reflexivity | ]. split; [ assumption | ].
    split; [ apply later_store_refl | reflexivity ].
  - simpl in Hrun.
    destruct (resolve_iframe page root i iframe h log) as [ [ h1 | e ] log1 ] eqn:Hstep;
      [ | discriminate ].
    destruct (resolve_iframe_Ok _ _ _ _ _ _ _ _ Hwf Hroot Hstep)
      as (-> & _ & Hwf1 & Hlater1 & Hkeep1).
    inversion Hin as [ | ? ? Hifr Hrest ]; subst.
    apply later_store_length in Hlater1 as Hlen.
    assert (Forall (λ n, n < length h1) rest) as Hrest1
      by (eapply Forall_impl; [ exact Hrest | ]; simpl; intros; lia).
    destruct (IH _ _ _ _ _ Hwf1 (later_store_is_element _ _ _ Hlater1 Hroot) Hrest1 Hrun)
      as (-> & Hwf' & Hlater' & Hkeep').
    split.
    { simpl. rewrite <- app_assoc. simpl. do 2 f_equal.
      apply map_ext_in. intros n Hn. f_equal. apply later_store_id_of; [ assumption | ].
      rewrite Forall_forall in Hrest. apply Hrest. apply list_elem_of_In. assumption. }
    split; [ assumption | ].
    split; [ eapply later_store_trans; eassumption | ].
    intros n Hn Hnone. rewrite Hkeep'; [ | lia | ].
    + apply Hkeep1; [ assumption | ]. intros Hid. eapply Hnone. eassumption.
    + intros k name Hid. apply (Hnone k name).
      rewrite <- (later_store_has_id h h1) by assumption. assumption.
Qed.

(** ** [_build_dom_tree] *)

(** A build that returns went through the reconstruction of the main tree,
    one discovery of the cross-origin iframes, the loop over them and the
    print after the loop. *)
Lemma _build_dom_tree_Ok page root h log :
  _build_dom_tree page = (Ok (root, h), log) →
  ∃ eval_page h0 cross_origin_iframes log0,
    Page.evaluate page = Ok eval_page ∧
    _parse_node eval_page None [] = Ok (Some root, h0) ∧
    is_element h0 root = true ∧
    find_cross_origin_iframes (length h0) h0 root = Ok cross_origin_iframes ∧
    resolve_iframes page root 0 cross_origin_iframes h0 [] = (Ok h, log0) ∧
    log = log0 ++ [Print "Iframe not found"].
Proof.
  unfold _build_dom_tree. intros Hrun.
  destruct (Page.evaluate page) as [ eval_page | e ]; [ | discriminate ].
  destruct (_parse_node eval_page None []) as [ [ [ r | ] h0 ] | e ] eqn:Hparse;
    try discriminate.
  destruct (is_element h0 r) eqn:Hel; [ | discriminate ].
  destruct (find_cross_origin_iframes (length h0) h0 r) as [ iframes | e ] eqn:Hfind;
    [ | discriminate ].
  destruct (resolve_iframes page r 0 iframes h0 []) as [ [ h1 | e ] log0 ] eqn:Hloop;
    [ | discriminate ].
  injection Hrun as <- <- <-. exists eval_page, h0, iframes, log0. auto 10.
Qed.

Lemma find_cross_origin_iframes_bound h root iframes :
  heap_wf h → is_element h root = true →
  find_cross_origin_iframes (length h) h root = Ok iframes →
  Forall (λ n, n < length h) iframes.
Proof.
  intros Hwf Hroot Hfind.
  rewrite find_cross_origin_iframes_walk in Hfind by (assumption || lia).
  injection Hfind as <-. apply Forall_forall. intros n Hn.
  apply list_elem_of_In, filter_In in Hn as [Hn _]. apply list_elem_of_In in Hn.
  apply preorder_reachable, reachable_bound in Hn; [ lia | assumption | ].
  apply is_element_lt. assumption.
Qed.

(** The tree a build returns is a finished tree. *)
Lemma _build_dom_tree_tree page root h log :
  _build_dom_tree page = (Ok (root, h), log) → tree h root.
Proof.
  intros Hrun.
  apply _build_dom_tree_Ok in Hrun
    as (raw & h0 & iframes & log0 & _ & Hparse & Hroot & Hfind & Hloop & _).
  destruct (_parse_node_post _ _ _ _ _ Hparse) as (_ & Hwf0 & _).
  specialize (Hwf0 heap_wf_nil).
  pose proof (find_cross_origin_iframes_bound _ _ _ Hwf0 Hroot Hfind) as Hbound.
  destruct (resolve_iframes_Ok _ _ _ _ _ _ _ _ Hwf0 Hroot Hbound Hloop)
    as (_ & Hwf & Hlater & _).
  split; [ assumption | ]. eapply later_store_is_element; eassumption.
Qed.

(** ** Well-formed raw trees are reconstructed *)

Lemma parse_children_returns parse l items :
  Forall (λ c, c = JNull ∨ ∀ p h, ∃ n h', parse c p h = Ok (Some n, h')) items →
  ∀ acc h, ∃ acc' h', parse_children parse l items acc h = Ok (acc', h').
Proof.
  induction 1 as [ | c items Hc _ IH ]; intros acc h; simpl; [ eauto | ].
  destruct Hc as [ -> | Hc ]; [ apply IH | ].
  destruct (Hc (Some l) h) as (n & h' & Hparse).
  destruct c; try apply IH; rewrite Hparse; simpl; apply IH.
Qed.

Lemma contains_getitem d key :
  contains d key = true → ∃ x, getitem (JObj d) key = Ok x.
Proof.
  unfold contains, getitem. destruct (dict_get key d); [ eauto | discriminate ].
Qed.

Lemma is_ok_Ok {A : Type} (r : result A) : is_ok r = true → ∃ a, r = Ok a.
Proof. destruct r; [ eauto | discriminate ]. Qed.

(** [_parse_node] returns a node for every well-formed record, whatever the
    store and the parent. *)
Lemma well_formed_is_reconstructed v :
  well_formed v → ∀ parent h, ∃ n h', _parse_node v parent h = Ok (Some n, h').
Proof.
  induction v as [ v Hv | d IH ] using json_record_ind; intros Hwf parent h.
  { inversion Hwf; subst; contradiction. }
  rewrite _parse_node_dict. fold (is_text_record d).
  inversion Hwf as [ d' Htext Hhas_text Hhas_vis
                   | d' items Htruthy Htext Htag Hxpath Hvc Hpc Hvi Hkids Hitems ]; subst.
  - assert (truthy (JObj d) = true) as -> by (destruct d; [ discriminate | reflexivity ]).
    simpl negb. cbv iota. rewrite Htext.
    destruct (contains_getitem _ _ Hhas_text) as [text ->].
    destruct (contains_getitem _ _ Hhas_vis) as [vis ->]. cbn [bind]. eauto.
  - rewrite Htruthy, Htext. simpl negb. cbv iota.
    destruct (contains_getitem _ _ Htag) as [tag ->].
    destruct (is_ok_Ok _ Hvc) as [vc ->]. destruct (is_ok_Ok _ Hpc) as [pc ->].
    destruct (is_ok_Ok _ Hvi) as [vi ->].
    destruct (contains_getitem _ _ Hxpath) as [xp ->]. cbn [bind]. cbv zeta.
    rewrite Hkids. cbn [py_iter bind].
    match goal with
    | |- context [parse_children _parse_node ?l items [] ?h1] =>
        destruct (parse_children_returns _parse_node l items) with (acc := @nil loc) (h := h1)
          as (cs & h2 & ->)
    end; [ | cbn [bind]; eauto ].
    assert (Forall (λ c, well_formed c →
              ∀ parent h, ∃ n h', _parse_node c parent h = Ok (Some n, h')) items) as HIH.
    { unfold get in Hkids. destruct (dict_get "children" d) as [ v | ] eqn:Hget.
      - subst v. eapply IH. eassumption.
      - injection Hkids as <-. constructor. }
    clear -Hitems HIH. induction Hitems as [ | c items Hc _ IHitems ]; [ constructor | ].
    inversion HIH as [ | ? ? Hc' HIH' ]; subst.
    constructor; [ | apply IHitems; assumption ].
    destruct Hc as [ -> | Hc ]; [ left; reflexivity | right; intros p h0; apply Hc'; assumption ].
Qed.

(** C1. For every raw tree that [_parse_node] reconstructs (a well-formed
    one), every node reachable from the root returned, the root apart, has as
    [parent] an element whose [children] list holds the node itself, and no
    other element lists it; this still holds in the tree [_build_dom_tree]
    returns after the iframes are spliced in. *)
Theorem parent_owns_every_node (node_data : json) (root : loc) (h0 : heap) :
  _parse_node node_data None [] = Ok (Some root, h0) →
  linked h0 root ∧
  ∀ page h log,
    Page.evaluate page = Ok node_data →
    _build_dom_tree page = (Ok (root, h), log) →
    linked h root.
Proof.
  intros Hparse. split.
  - apply heap_wf_linked. apply (_parse_node_post _ _ _ _ _ Hparse), heap_wf_nil.
  - intros page h log _ Hrun. apply heap_wf_linked.
    apply (_build_dom_tree_tree _ _ _ _ Hrun).
Qed.

Lemma parent_owns_every_node_witness :
  ∃ h0 h log,
    _build_dom_tree framed_page = (Ok (0, h), log) ∧ linked h0 0 ∧ linked h 0.
Proof.
  eexists _, _, _.
  assert (_build_dom_tree framed_page = (Ok (0, _), _)) as Hrun by (vm_compute; reflexivity).
  split; [ exact Hrun | ].
  destruct (parent_owns_every_node framed_body 0 _ eq_refl) as [H0 H].
  split; [ exact H0 | ]. exact (H framed_page _ _ eq_refl Hrun).
Defined.

(** ** Children of a record *)

Lemma _parse_node_falsy v parent h :
  truthy v = false → _parse_node v parent h = Ok (None, h).
Proof. intros Hv. destruct v; simpl; simpl in Hv; rewrite ?Hv; reflexivity. Qed.

Lemma _parse_node_truthy v parent h r h' :
  truthy v = true → _parse_node v parent h = Ok (r, h') → ∃ n, r = Some n.
Proof.
  intros Hv Hrun. destruct v as [ | b | n | s | items | d ];
    try (rewrite parse_non_dict_eq in Hrun by exact I; unfold parse_non_dict in Hrun;
         rewrite Hv in Hrun; discriminate).
  rewrite _parse_node_dict in Hrun. rewrite Hv in Hrun. simpl negb in Hrun. cbv iota in Hrun.
  destruct (py_eq _ _).
  - apply bind_Ok in Hrun as [text [_ Hrun]].
    apply bind_Ok in Hrun as [vis [_ Hrun]].
    injection Hrun as <- _. eauto.
  - apply bind_Ok in Hrun as [tag [_ Hrun]].
    apply bind_Ok in Hrun as [vc [_ Hrun]].
    apply bind_Ok in Hrun as [pc [_ Hrun]].
    apply bind_Ok in Hrun as [vi [_ Hrun]].
    apply bind_Ok in Hrun as [xp [_ Hrun]].
    cbv zeta in Hrun.
    apply bind_Ok in Hrun as [ [cs h2] [_ Hrun] ].
    injection Hrun as <- _. eauto.
Qed.

Lemma truthy_not_None v : truthy v = true → is_not_None v = true.
Proof. destruct v; simpl; congruence. Qed.

(** The loop over the raw entries appends, in their order, the nodes
    reconstructed from the truthy entries. *)
Lemma parse_children_order l cs :
  ∀ acc h acc' h',
    l < length h →
    parse_children _parse_node l cs acc h = Ok (acc', h') →
    h `prefix_of` h' ∧
    ∃ new, acc' = acc ++ new ∧
      Forall2 (λ child raw, l < child ∧ ∃ h1 h2,
                 _parse_node raw (Some l) h1 = Ok (Some child, h2) ∧ h2 `prefix_of` h')
              new (List.filter truthy cs).
Proof.
  induction cs as [ | c cs IH ]; intros acc h acc' h' Hl Hrun.
  - simpl in Hrun. injection Hrun as <- <-. split; [ reflexivity | ].
    exists []. rewrite app_nil_r. split; [ reflexivity | constructor ].
  - assert (Hstep : ∀ r h1, _parse_node c (Some l) h = Ok (r, h1) →
        parse_children _parse_node l cs
          (match r with Some n => acc ++ [n] | None => acc end) h1 = Ok (acc', h') →
        h `prefix_of` h' ∧
        ∃ new, acc' = acc ++ new ∧
          Forall2 (λ child raw, l < child ∧ ∃ h1 h2,
                     _parse_node raw (Some l) h1 = Ok (Some child, h2) ∧ h2 `prefix_of` h')
                  new (List.filter truthy (c :: cs))).
    { intros r h1 Hparse Hrest.
      destruct (_parse_node_post _ _ _ _ _ Hparse) as (Hpre1 & _ & Hr).
      apply prefix_length in Hpre1 as Hlen.
      assert (l < length h1) as Hl1 by lia.
      destruct (IH _ _ _ _ Hl1 Hrest) as (Hpre & new & -> & Hnew).
      split; [ etrans; eassumption | ]. simpl.
      destruct (truthy c) eqn:Hc.
      - destruct (_parse_node_truthy _ _ _ _ _ Hc Hparse) as [n ->].
        exists (n :: new). rewrite <- app_assoc. split; [ reflexivity | ].
        constructor; [ | assumption ]. destruct Hr as (-> & _).
        split; [ assumption | ]. exists h, h1. auto.
      - rewrite _parse_node_falsy in Hparse by assumption. injection Hparse as <- <-.
        exists new. auto. }
    simpl in Hrun. destruct c;
      try (apply bind_Ok in Hrun as [ [r h1] [Hparse Hrest] ];
           apply (Hstep r h1 Hparse); destruct r; exact Hrest).
    apply (Hstep None h); [ reflexivity | exact Hrun ].
Qed.

Lemma filter_truthy_not_None items :
  Forall (λ c, c = JNull ∨ truthy c = true) items →
  List.filter truthy items = List.filter is_not_None items.
Proof.
  induction 1 as [ | c items Hc _ IH ]; simpl; [ reflexivity | ].
  destruct Hc as [ -> | Hc ]; simpl; [ assumption | ].
  rewrite Hc, (truthy_not_None _ Hc), IH. reflexivity.
Qed.

Lemma length_filter_is_None items :
  length (List.filter is_not_None items) + length (List.filter is_None items) = length items.
Proof.
  induction items as [ | c items IH ]; simpl; [ reflexivity | ].
  change (is_None c) with (negb (is_not_None c)). destruct (is_not_None c); simpl; lia.
Qed.

(** C3, as the code has it.  For an element record whose [children] is the
    list [items], [_parse_node] goes through [items] in their order and
    drops the entries that are not truthy: the nulls, and the other falsy
    entries such as an empty record.  The children of the node are, in the
    order of [items], the nodes reconstructed from the truthy entries, and
    their number is the number of truthy entries.  When every non-null entry
    is truthy, the entries kept are the non-null ones and the number of
    children is the number of non-null entries (5 entries with 2 nulls give
    3 children). *)
Theorem children_follow_raw_order (d : list (string * json)) (items : list json)
    (parent : option loc) (h : heap) (n : loc) (h' : heap) :
  py_eq (get d "type" JNull) (JStr "TEXT_NODE") = false →
  dict_get "children" d = Some (JArr items) →
  _parse_node (JObj d) parent h = Ok (Some n, h') →
  Forall2 (built_from h' n) (children_of h' n) (List.filter truthy items) ∧
  length (children_of h' n) + length (List.filter (λ c, negb (truthy c)) items) =
    length items ∧
  (Forall (λ c, c = JNull ∨ truthy c = true) items →
   List.filter truthy items = List.filter is_not_None items ∧
   length (children_of h' n) + length (List.filter is_None items) = length items ∧
   (length items = 5 → length (List.filter is_None items) = 2 →
    length (children_of h' n) = 3)).
Proof.
  intros Helem Hkids Hrun.
  enough (Forall2 (built_from h' n) (children_of h' n) (List.filter truthy items)) as HF.
  { split; [ exact HF | ]. split.
    { apply Forall2_length in HF. rewrite HF. clear.
      induction items as [ | c items IH ]; simpl; [ reflexivity | ].
      destruct (truthy c); simpl; lia. }
    intros Hrecords.
    pose proof (filter_truthy_not_None _ Hrecords) as Heq.
    split; [ exact Heq | ]. apply Forall2_length in HF. rewrite Heq in HF.
    pose proof (length_filter_is_None items). lia. }
  rewrite _parse_node_dict in Hrun.
  destruct (negb (truthy (JObj d))); [ discriminate | ].
  rewrite Helem in Hrun.
  apply bind_Ok in Hrun as [tag [_ Hrun]].
  apply bind_Ok in Hrun as [vc [_ Hrun]].
  apply bind_Ok in Hrun as [pc [_ Hrun]].
  apply bind_Ok in Hrun as [vi [_ Hrun]].
  apply bind_Ok in Hrun as [xp [_ Hrun]].
  cbv zeta in Hrun.
  apply bind_Ok in Hrun as [ [cs h2] [Hloop Hrun] ].
  injection Hrun as <- <-.
  unfold get in Hloop. rewrite Hkids in Hloop. cbn [py_iter bind] in Hloop.
  apply parse_children_order in Hloop as (Hpre & new & Hnew & HF);
    [ | rewrite length_app; simpl; lia ].
  simpl in Hnew. subst new.
  set (e := new_element d parent tag xp vc pc vi) in *.
  assert (h2 !! length h = Some (ElementNode e)) as Hl.
  { eapply prefix_lookup_Some; [ | exact Hpre ]. apply list_lookup_middle. reflexivity. }
  unfold children_of. rewrite (lookup_set_children_eq _ _ _ _ Hl). simpl.
  eapply Forall2_impl; [ exact HF | ].
  intros child raw (Hlt & ha & hb & Hparse & Hpreb). exists ha, hb. split; [ assumption | ].
  intros i Hi. rewrite lookup_set_children_ne by lia.
  apply prefix_lookup_lt; [ assumption | lia ].
Qed.

Lemma children_follow_raw_order_witness :
  ∃ h',
    _parse_node (JObj five_entries_fields) None [] = Ok (Some 0, h') ∧
    Forall2 (built_from h' 0) (children_of h' 0)
      [button_record; hello_record; button_record] ∧
    length (children_of h' 0) = 3.
Proof.
  eexists.
  assert (_parse_node (JObj five_entries_fields) None [] = Ok (Some 0, _)) as Hrun
    by (vm_compute; reflexivity).
  split; [ exact Hrun | ].
  destruct (children_follow_raw_order five_entries_fields five_entries None [] 0 _
              eq_refl eq_refl Hrun) as (Horder & _ & Hcount).
  split; [ exact Horder | ].
  assert (Forall (λ c, c = JNull ∨ truthy c = true) five_entries) as Hrecords.
  { unfold five_entries.
    repeat (apply List.Forall_cons; [ (left; reflexivity) || (right; reflexivity) | ]).
    apply List.Forall_nil. }
  destruct (Hcount Hrecords) as (_ & _ & Hthree). apply Hthree; reflexivity.
Defined.

(** ** Falsy records *)

Lemma dict_get_app key d1 d2 :
  dict_get key (d1 ++ d2) =
  match dict_get key d1 with Some v => Some v | None => dict_get key d2 end.
Proof.
  induction d1 as [ | [k v] d1 IH ]; simpl; [ reflexivity | ].
  destruct (String.eqb k key); [ reflexivity | exact IH ].
Qed.

Lemma dict_get_middle_ne key k x d1 d2 :
  key ≠ k → dict_get key (d1 ++ (k, x) :: d2) = dict_get key (d1 ++ d2).
Proof.
  intros Hne. rewrite !dict_get_app. simpl.
  destruct (String.eqb_spec k key) as [ -> | _ ]; [ contradiction | reflexivity ].
Qed.

Lemma dict_get_middle_eq k x d1 d2 :
  dict_get k d1 = None → dict_get k (d1 ++ (k, x) :: d2) = Some x.
Proof. intros Hd1. rewrite dict_get_app, Hd1. simpl. rewrite String.eqb_refl. reflexivity. Qed.

(** Two records that differ in their [children] only are reconstructed alike
    when the loops over their children run alike. *)
Lemma _parse_node_children_ext d d' parent h :
  truthy (JObj d) = truthy (JObj d') →
  (∀ key, key ≠ "children" → dict_get key d = dict_get key d') →
  (∀ l h1,
     (let* items := py_iter (get d "children" (JArr [])) in
      parse_children _parse_node l items [] h1) =
     (let* items := py_iter (get d' "children" (JArr [])) in
      parse_children _parse_node l items [] h1)) →
  _parse_node (JObj d) parent h = _parse_node (JObj d') parent h.
Proof.
  intros Htruthy Hget Hloop.
  assert (∀ key, key ≠ "children" → getitem (JObj d) key = getitem (JObj d') key) as Hitem
    by (intros key Hkey; unfold getitem; rewrite (Hget key Hkey); reflexivity).
  assert (∀ key v, key ≠ "children" → get d key v = get d' key v) as Hdef
    by (intros key v Hkey; unfold get; rewrite (Hget key Hkey); reflexivity).
  assert (∀ A key (x : result A), key ≠ "children" →
            when_present d key x = when_present d' key x) as Hwhen
    by (intros A key x Hkey; unfold when_present, contains; rewrite (Hget key Hkey);
        reflexivity).
  assert (∀ key, key ≠ "children" →
            parse_coordinate_set (JObj d) key = parse_coordinate_set (JObj d') key) as Hcoord
    by (intros key Hkey; unfold parse_coordinate_set; rewrite (Hitem key Hkey); reflexivity).
  assert (parse_viewport_info (JObj d) = parse_viewport_info (JObj d')) as Hview
    by (unfold parse_viewport_info; rewrite (Hitem "viewport") by discriminate; reflexivity).
  assert (∀ p t x vc pc vi, new_element d p t x vc pc vi = new_element d' p t x vc pc vi)
    as Hnew by (intros; unfold new_element; rewrite !Hdef by discriminate; reflexivity).
  rewrite !_parse_node_dict, Htruthy.
  rewrite (Hdef "type"), (Hitem "text"), (Hitem "isVisible"), (Hitem "tagName"),
    (Hitem "xpath"), (Hwhen _ "viewportCoordinates"), (Hwhen _ "pageCoordinates"),
    (Hwhen _ "viewport"), (Hcoord "viewportCoordinates"), (Hcoord "pageCoordinates"), Hview
    by discriminate.
  destruct (negb (truthy (JObj d'))); [ reflexivity | ].
  destruct (py_eq _ _); [ reflexivity | ].
  destruct (getitem (JObj d') "tagName"); [ | reflexivity ]. cbn [bind].
  destruct (when_present d' "viewportCoordinates" _); [ | reflexivity ]. cbn [bind].
  destruct (when_present d' "pageCoordinates" _); [ | reflexivity ]. cbn [bind].
  destruct (when_present d' "viewport" _); [ | reflexivity ]. cbn [bind].
  destruct (getitem (JObj d') "xpath"); [ | reflexivity ]. cbn [bind].
  cbv zeta. rewrite Hnew, Hloop. reflexivity.
Qed.

Lemma parse_children_drop_falsy parse l v before after :
  (v ≠ JNull → ∀ p h, parse v p h = Ok (None, h)) →
  ∀ acc h,
    parse_children parse l (before ++ v :: after) acc h =
    parse_children parse l (before ++ after) acc h.
Proof.
  intros Hv. induction before as [ | c before IH ]; intros acc h; simpl.
  - destruct v; try reflexivity; rewrite Hv by discriminate; reflexivity.
  - destruct c; try apply IH;
      (destruct (parse _ (Some l) h) as [ [ [ x | ] h' ] | e ]; simpl;
       [ apply IH | apply IH | reflexivity ]).
Qed.

(** C9. A falsy raw record, such as the empty dict, is treated as [None]:
    [_parse_node] returns [None] for it and leaves the store as it is; as an
    entry of a [children] list it is dropped, the record being reconstructed
    exactly as if the entry were not there; and as the top-level result it
    makes the build fail with the [ValueError] of a [None] result. *)
Theorem falsy_record_is_none (v : json) :
  truthy v = false →
  (∀ parent h, _parse_node v parent h = Ok (None, h) ∧
               _parse_node v parent h = _parse_node JNull parent h) ∧
  (∀ d1 d2 before after parent h,
     dict_get "children" d1 = None →
     _parse_node (JObj (d1 ++ ("children", JArr (before ++ v :: after)) :: d2)) parent h =
     _parse_node (JObj (d1 ++ ("children", JArr (before ++ after)) :: d2)) parent h) ∧
  (∀ page,
     Page.evaluate page = Ok v →
     _build_dom_tree page = (Raise (ValueError "Failed to parse HTML to dictionary"), []) ∧
     _build_dom_tree page = _build_dom_tree (Page.mk (Ok JNull) (Page.frame page))).
Proof.
  intros Hv. split; [ | split ].
  - intros parent h. rewrite _parse_node_falsy by assumption. split; reflexivity.
  - intros d1 d2 before after parent h Hd1. apply _parse_node_children_ext.
    + destruct d1; reflexivity.
    + intros key Hkey. rewrite !dict_get_middle_ne by assumption. reflexivity.
    + intros l h1. unfold get. rewrite !dict_get_middle_eq by assumption.
      cbn [py_iter bind]. apply parse_children_drop_falsy.
      intros _ p h0. apply _parse_node_falsy. assumption.
  - intros page Hpage. unfold _build_dom_tree. cbn [Page.evaluate].
    rewrite Hpage, _parse_node_falsy by assumption. split; reflexivity.
Qed.

Lemma falsy_record_is_none_witness :
  _parse_node (JObj []) (Some 0) [] = Ok (None, []) ∧
  _parse_node (JObj [("tagName", JStr "ul"); ("xpath", JStr "/ul");
                     ("children", JArr [hello_record; JObj []; button_record])]) None [] =
  _parse_node (JObj [("tagName", JStr "ul"); ("xpath", JStr "/ul");
                     ("children", JArr [hello_record; button_record])]) None [] ∧
  _build_dom_tree (page_of (JObj []) []) =
  (Raise (ValueError "Failed to parse HTML to dictionary"), []).
Proof.
  destruct (falsy_record_is_none (JObj []) eq_refl) as (Hnone & Hchild & Htop).
  split; [ apply Hnone | ]. split.
  - exact (Hchild [("tagName", JStr "ul"); ("xpath", JStr "/ul")] []
             [hello_record] [button_record] None [] eq_refl).
  - apply Htop. reflexivity.
Defined.

(** ** What the build prints and which frames it asks for *)

Lemma resolve_iframe_log page root i iframe h log :
  ∃ calls, (resolve_iframe page root i iframe h log).2 = log ++ calls ∧
           ∀ msg, Print msg ∉ calls.
Proof.
  unfold resolve_iframe. destruct (h !! iframe) as [ [ t | e ] | ].
  - exists []. rewrite app_nil_r. split; [ reflexivity | ]. intros msg. apply not_elem_of_nil.
  - exists [CallFrame (DOMElementNode.id e)]. split.
    + destruct (Page.frame page i (DOMElementNode.id e)); reflexivity.
    + intros msg Hin. apply list_elem_of_singleton in Hin. discriminate.
  - exists []. rewrite app_nil_r. split; [ reflexivity | ]. intros msg. apply not_elem_of_nil.
Qed.

Lemma resolve_iframes_log page root iframes :
  ∀ i h log, ∃ calls,
    (resolve_iframes page root i iframes h log).2 = log ++ calls ∧
    ∀ msg, Print msg ∉ calls.
Proof.
  induction iframes as [ | iframe rest IH ]; intros i h log.
  - exists []. simpl. rewrite app_nil_r. split; [ reflexivity | ]. intros msg. apply not_elem_of_nil.
  - simpl. destruct (resolve_iframe_log page root i iframe h log) as (c1 & Hc1 & Hp1).
    destruct (resolve_iframe page root i iframe h log) as [ [ h1 | e ] log1 ]; simpl in Hc1;
      subst log1.
    + destruct (IH (S i) h1 (log ++ c1)) as (c2 & -> & Hp2).
      exists (c1 ++ c2). rewrite app_assoc. split; [ reflexivity | ].
      intros msg Hin. apply elem_of_app in Hin as [ Hin | Hin ];
        [ exact (Hp1 _ Hin) | exact (Hp2 _ Hin) ].
    + exists c1. auto.
Qed.

(** The build in terms of the loop, once the main tree is reconstructed and
    the iframes are discovered. *)
Lemma _build_dom_tree_loop page eval_page root h0 iframes :
  Page.evaluate page = Ok eval_page →
  _parse_node eval_page None [] = Ok (Some root, h0) →
  is_element h0 root = true →
  find_cross_origin_iframes (length h0) h0 root = Ok iframes →
  _build_dom_tree page =
  match resolve_iframes page root 0 iframes h0 [] with
  | (Ok h, log) => (Ok (root, h), log ++ [Print "Iframe not found"])
  | (Raise e, log) => (Raise e, log)
  end.
Proof.
  intros Hpage Hparse Hroot Hfind. unfold _build_dom_tree.
  rewrite Hpage, Hparse, Hroot, Hfind. reflexivity.
Qed.

(** C7. "Iframe not found" belongs to the loop, not to a test for an empty
    list of iframes: whatever iframes were discovered, it is printed, once
    and last, exactly when the loop over them ends without an exception, and
    the tree returned is then the store the loop left; the loop itself
    prints nothing, and a build that raises prints nothing. *)
Theorem iframe_not_found_follows_the_loop (page : Page.t) :
  (∀ msg, Print msg ∈ (_build_dom_tree page).2 ↔
          msg = "Iframe not found" ∧ is_ok (_build_dom_tree page).1 = true) ∧
  ∀ eval_page root h0 iframes,
    Page.evaluate page = Ok eval_page →
    _parse_node eval_page None [] = Ok (Some root, h0) →
    is_element h0 root = true →
    find_cross_origin_iframes (length h0) h0 root = Ok iframes →
    (∀ msg, Print msg ∉ (resolve_iframes page root 0 iframes h0 []).2) ∧
    _build_dom_tree page =
    match resolve_iframes page root 0 iframes h0 [] with
    | (Ok h, log) => (Ok (root, h), log ++ [Print "Iframe not found"])
    | (Raise e, log) => (Raise e, log)
    end.
Proof.
  assert (∀ eval_page root h0 iframes,
    Page.evaluate page = Ok eval_page →
    _parse_node eval_page None [] = Ok (Some root, h0) →
    is_element h0 root = true →
    find_cross_origin_iframes (length h0) h0 root = Ok iframes →
    (∀ msg, Print msg ∉ (resolve_iframes page root 0 iframes h0 []).2) ∧
    _build_dom_tree page =
    match resolve_iframes page root 0 iframes h0 [] with
    | (Ok h, log) => (Ok (root, h), log ++ [Print "Iframe not found"])
    | (Raise e, log) => (Raise e, log)
    end) as Hloop.
  { intros eval_page root h0 iframes Hpage Hparse Hroot Hfind.
    split; [ | eapply _build_dom_tree_loop; eassumption ].
    destruct (resolve_iframes_log page root iframes 0 h0 []) as (calls & -> & Hcalls).
    exact Hcalls. }
  split; [ | exact Hloop ].
  assert (∀ e, ∀ msg, Print msg ∈ (Raise e : result (loc * heap), @nil event).2 ↔
                      msg = "Iframe not found" ∧ is_ok (Raise e : result (loc * heap)) = true)
    as Hfail.
  { intros e msg. simpl. split; [ intros Hin; apply elem_of_nil in Hin; contradiction | ].
    intros [_ ?]. discriminate. }
  unfold _build_dom_tree.
  destruct (Page.evaluate page) as [ eval_page | e ] eqn:Hpage; [ | apply Hfail ].
  destruct (_parse_node eval_page None []) as [ [ [ root | ] h0 ] | e ] eqn:Hparse;
    [ | apply Hfail | apply Hfail ].
  destruct (is_element h0 root) eqn:Hroot; [ | apply Hfail ].
  destruct (find_cross_origin_iframes (length h0) h0 root) as [ iframes | e ] eqn:Hfind;
    [ | apply Hfail ].
  destruct (Hloop _ _ _ _ eq_refl Hparse Hroot Hfind) as [Hquiet _].
  destruct (resolve_iframes page root 0 iframes h0 []) as [ [ h | e ] log ]; simpl in *;
    intros msg.
  - rewrite elem_of_app, list_elem_of_singleton. split.
    + intros [ Hin | [= ->] ]; [ destruct (Hquiet _ Hin) | auto ].
    + intros [-> _]. right. reflexivity.
  - split; [ intros Hin; destruct (Hquiet _ Hin) | intros [_ ?]; discriminate ].
Qed.

Lemma iframe_not_found_follows_the_loop_witness :
  (∃ r, _build_dom_tree (page_of body_record []) = (Ok r, [Print "Iframe not found"])) ∧
  (∃ r, _build_dom_tree framed_page =
        (Ok r, [CallFrame (JStr "f1"); Print "Iframe not found"])) ∧
  (∀ msg, Print msg ∈ (_build_dom_tree framed_page).2 ↔
          msg = "Iframe not found" ∧ is_ok (_build_dom_tree framed_page).1 = true).
Proof.
  split; [ eexists; vm_compute; reflexivity | ].
  split; [ eexists; vm_compute; reflexivity | ].
  apply (iframe_not_found_follows_the_loop framed_page).
Defined.

(** ** The splice *)

(** C6, as the code has it.  In a round of the loop in which the frame of
    the iframe is found and its result is reconstructed as an element
    [dom], the round ends without an exception; when the frame id is truthy
    and a fresh pre-order search from the root finds a node with an equal id
    (the first such node, [placeholder]), [dom.parent] becomes that node and
    its children list becomes [[dom]], whatever it held, every other object
    staying as it was; when the id is falsy or no node is found, nothing is
    spliced. *)
Theorem resolved_iframe_is_spliced_if_found (page : Page.t) (root : loc) (i : nat)
    (iframe : loc) (h : heap) (log : list event) (e : DOMElementNode.t)
    (result : json) (dom : loc) (h1 : heap) :
  heap_wf h → is_element h root = true →
  h !! iframe = Some (ElementNode e) →
  Page.frame page i (DOMElementNode.id e) = Some (Ok result) →
  _parse_node result None h = Ok (Some dom, h1) →
  is_element h1 dom = true →
  ∃ h',
    resolve_iframe page root i iframe h log =
      (Ok h', log ++ [CallFrame (DOMElementNode.id e)]) ∧
    match (if truthy (DOMElementNode.id e)
           then find (has_id h1 (DOMElementNode.id e)) (nodes h1 root)
           else None) with
    | Some placeholder =>
        h' = set_children placeholder [dom] (set_parent dom (Some placeholder) h1) ∧
        parent_of h' dom = Some placeholder ∧
        children_of h' placeholder = [dom] ∧
        ∀ n, n ≠ placeholder → n ≠ dom → h' !! n = h1 !! n
    | None => h' = h1
    end.
Proof.
  intros Hwf Hroot Hifr Hframe Hparse Hdom.
  destruct (_parse_node_post _ _ _ _ _ Hparse) as (Hpre & Hwf1 & -> & Hlt & _).
  specialize (Hwf1 Hwf).
  assert (is_element h1 root = true) as Hroot1
    by (eapply later_store_is_element; [ apply later_store_prefix | ]; eassumption).
  assert (truthy result = true) as Hresult.
  { destruct (truthy result) eqn:Hr; [ reflexivity | ].
    rewrite _parse_node_falsy in Hparse by assumption. discriminate. }
  unfold resolve_iframe. rewrite Hifr, Hframe. cbn [bind]. rewrite Hresult, Hparse. cbn [bind].
  destruct (truthy (DOMElementNode.id e)); [ | eexists; split; reflexivity ].
  rewrite find_iframe_node_walk by (assumption || lia). cbn [bind]. fold (nodes h1 root).
  destruct (find (has_id h1 (DOMElementNode.id e)) (nodes h1 root)) as [ node | ] eqn:Hfind;
    [ | eexists; split; reflexivity ].
  rewrite Hdom. eexists. split; [ reflexivity | ]. split; [ reflexivity | ].
  apply find_some in Hfind as [Hin Hid].
  assert (node < length h) as Hnode.
  { apply list_elem_of_In, preorder_reachable in Hin.
    apply is_element_lt in Hroot as Hrlt.
    apply (reachable_prefix h h1) in Hin; [ | assumption | assumption | assumption ].
    apply reachable_bound in Hin; [ lia | assumption | assumption ]. }
  split; [ | split ].
  - rewrite parent_of_set_children. apply parent_of_set_parent_eq. assumption.
  - unfold has_id in Hid. destruct (h1 !! node) as [ [ t | en ] | ] eqn:Hn; try discriminate.
    unfold children_of. erewrite lookup_set_children_eq; [ reflexivity | ].
    rewrite lookup_set_parent_ne by lia. exact Hn.
  - intros n Hn1 Hn2. rewrite lookup_set_children_ne by congruence.
    apply lookup_set_parent_ne. congruence.
Qed.

Lemma resolved_iframe_is_spliced_if_found_witness :
  ∃ h',
    _parse_node framed_body None [] = Ok (Some 0, framed_store) ∧
    _parse_node body_record None framed_store = Ok (Some 4, framed_store_dom) ∧
    resolve_iframe framed_page 0 0 1 framed_store [] = (Ok h', [CallFrame (JStr "f1")]) ∧
    children_of framed_store 1 = [2] ∧
    parent_of h' 4 = Some 1 ∧ children_of h' 1 = [4].
Proof.
  assert (_parse_node framed_body None [] = Ok (Some 0, framed_store)) as Hparse0
    by (vm_compute; reflexivity).
  assert (_parse_node body_record None framed_store = Ok (Some 4, framed_store_dom))
    as Hparse1 by (vm_compute; reflexivity).
  destruct (_parse_node_post _ _ _ _ _ Hparse0) as (_ & Hwf0 & _).
  destruct (resolved_iframe_is_spliced_if_found framed_page 0 0 1 framed_store [] _ _ _ _
              (Hwf0 heap_wf_nil) eq_refl eq_refl eq_refl Hparse1 eq_refl)
    as (h' & Hround & Hsplice).
  exists h'.
  split; [ exact Hparse0 | ]. split; [ exact Hparse1 | ].
  split; [ exact Hround | ]. split; [ reflexivity | ].
  change (if truthy (JStr "f1")
          then find (has_id framed_store_dom (JStr "f1")) (nodes framed_store_dom 0)
          else None) with (Some 1) in Hsplice.
  destruct Hsplice as (_ & Hparent & Hchildren & _).
  split; [ exact Hparent | exact Hchildren ].
Defined.

(** C6 as stated fails on [nested_placeholders_page].  The iframes
    discovered are the nodes 1 ([outer]) and 2 ([inner]).  Round 0 splices
    the tree of [outer] under node 1, which takes node 2 out of the tree.
    In round 1 the frame of [inner] is found and its result is reconstructed
    as the element 6, but the search from the root finds no node with the id
    [inner]: node 6 keeps [parent = None], node 2 keeps its empty children
    list, and no node lists node 6. *)
Lemma nested_iframe_is_not_spliced :
  _parse_node nested_placeholders None [] = Ok (Some 0, nested_store_0) ∧
  find_cross_origin_iframes (length nested_store_0) nested_store_0 0 = Ok [1; 2] ∧
  resolve_iframe nested_placeholders_page 0 0 1 nested_store_0 [] =
    (Ok nested_store_1, [CallFrame (JStr "outer")]) ∧
  is_cross_origin nested_store_1 2 = true ∧
  Page.frame nested_placeholders_page 1 (id_of nested_store_1 2) = Some (Ok body_record) ∧
  _parse_node body_record None nested_store_1 = Ok (Some 6, nested_store_dom) ∧
  is_element nested_store_dom 6 = true ∧
  resolve_iframe nested_placeholders_page 0 1 2 nested_store_1 [CallFrame (JStr "outer")] =
    (Ok nested_store_2, [CallFrame (JStr "outer"); CallFrame (JStr "inner")]) ∧
  parent_of nested_store_2 6 = None ∧
  children_of nested_store_2 2 = [] ∧
  map (children_of nested_store_2) (seq 0 (length nested_store_2)) =
    [[1]; [3]; []; [4; 5]; []; []; [7; 8]; []; []] ∧
  ¬ every_resolved_iframe_is_spliced.
Proof.
  assert (_parse_node nested_placeholders None [] = Ok (Some 0, nested_store_0)) as Hparse0
    by (vm_compute; reflexivity).
  assert (resolve_iframe nested_placeholders_page 0 0 1 nested_store_0 [] =
            (Ok nested_store_1, [CallFrame (JStr "outer")])) as Hround0
    by (vm_compute; reflexivity).
  assert (_parse_node body_record None nested_store_1 = Ok (Some 6, nested_store_dom))
    as Hparse1 by (vm_compute; reflexivity).
  assert (resolve_iframe nested_placeholders_page 0 1 2 nested_store_1
            [CallFrame (JStr "outer")] =
          (Ok nested_store_2, [CallFrame (JStr "outer"); CallFrame (JStr "inner")]))
    as Hround1 by (vm_compute; reflexivity).
  repeat (split; [ first [ assumption | vm_compute; reflexivity ] | ]).
  intros Hclaim.
  destruct (_parse_node_post _ _ _ _ _ Hparse0) as (_ & Hwf0 & _).
  destruct (resolve_iframe_Ok nested_placeholders_page 0 0 1 nested_store_0 [] _ _
              (Hwf0 heap_wf_nil) eq_refl Hround0) as (_ & _ & Hwf1 & _).
  destruct (Hclaim nested_placeholders_page 0 1 2 _ _ body_record 6 _ _ _
              Hwf1 eq_refl eq_refl eq_refl Hparse1 eq_refl Hround1)
    as (placeholder & _ & Hparent & _).
  vm_compute in Hparent. discriminate.
Qed.

(** ** [_create_selector_map] *)

Lemma py_eq_key_of a b :
  hashable a = true → hashable b = true →
  py_eq a b = bool_decide (key_of a = key_of b).
Proof.
  intros Ha Hb. destruct a as [ | x | n | s | | ], b as [ | y | m | t | | ];
    try discriminate; simpl; try reflexivity.
  - destruct x, y; reflexivity.
  - destruct (Z.eqb_spec (Z.b2z x) m) as [ <- | Hne ].
    + rewrite bool_decide_eq_true_2; reflexivity.
    + rewrite bool_decide_eq_false_2; [ reflexivity | congruence ].
  - destruct (Z.eqb_spec n (Z.b2z y)) as [ -> | Hne ].
    + rewrite bool_decide_eq_true_2; reflexivity.
    + rewrite bool_decide_eq_false_2; [ reflexivity | congruence ].
  - destruct (Z.eqb_spec n m) as [ -> | Hne ].
    + rewrite bool_decide_eq_true_2; reflexivity.
    + rewrite bool_decide_eq_false_2; [ reflexivity | congruence ].
  - destruct (String.eqb_spec s t) as [ -> | Hne ].
    + rewrite bool_decide_eq_true_2; reflexivity.
    + rewrite bool_decide_eq_false_2; [ reflexivity | congruence ].
Qed.

Lemma _create_selector_map_walk h root :
  tree h root →
  _create_selector_map h root = fold_result (index_node h) (nodes h root) [].
Proof.
  intros [Hwf Hroot]. unfold _create_selector_map, nodes.
  apply process_node_walk; [ assumption | apply is_element_lt; assumption | lia ].
Qed.

(** With hashable indexes the walk never raises: it is a plain fold over
    the indexed elements. *)
Lemma fold_index_node h l :
  (∀ n, n ∈ List.filter (indexed h) l → hashable (highlight_index_of h n) = true) →
  ∀ m, fold_result (index_node h) l m =
       Ok (fold_left (λ m n, selector_set m (highlight_index_of h n) n)
                     (List.filter (indexed h) l) m).
Proof.
  induction l as [ | a l IH ]; intros Hhash m; simpl; [ reflexivity | ].
  unfold index_node at 1. simpl in Hhash. destruct (indexed h a) eqn:Ha.
  - unfold setitem. rewrite (Hhash a) by left. cbn [bind fold_left].
    apply IH. intros n Hn. apply Hhash. right. assumption.
  - cbn [bind]. apply IH. assumption.
Qed.

Lemma selector_set_fresh m key n :
  (∀ k n', (k, n') ∈ m → py_eq k key = false) →
  selector_set m key n = m ++ [(key, n)].
Proof.
  induction m as [ | [k n'] m IH ]; intros Hfresh; simpl; [ reflexivity | ].
  rewrite (Hfresh k n') by left. f_equal. apply IH.
  intros k0 n0 Hin. apply (Hfresh k0 n0). right. assumption.
Qed.

(** With unique indexes every assignment adds a binding at the end. *)
Lemma fold_selector_set_unique (key : loc → json) l :
  NoDup l →
  (∀ a b, a ∈ l → b ∈ l → a ≠ b → py_eq (key a) (key b) = false) →
  ∀ m, (∀ k n' a, (k, n') ∈ m → a ∈ l → py_eq k (key a) = false) →
       fold_left (λ m n, selector_set m (key n) n) l m = m ++ map (λ n, (key n, n)) l.
Proof.
  induction l as [ | a l IH ]; intros Hnd Huniq m Hm; simpl.
  - rewrite app_nil_r. reflexivity.
  - apply NoDup_cons in Hnd as [Ha Hnd].
    rewrite selector_set_fresh by (intros k n' Hin; apply (Hm k n' a Hin); left).
    rewrite IH; [ rewrite <- app_assoc; reflexivity | assumption | | ].
    + intros x y Hx Hy. apply Huniq; right; assumption.
    + intros k n' b Hin Hb. apply elem_of_app in Hin as [ Hin | Hin ].
      * apply (Hm k n' b Hin). right. assumption.
      * apply list_elem_of_singleton in Hin. injection Hin as -> ->.
        apply Huniq; [ left | right; assumption | ]. intros ->. contradiction.
Qed.

Lemma elem_of_indexed_nodes h root n :
  tree h root →
  n ∈ indexed_nodes h root ↔
  reachable h root n ∧
  ∃ e, h !! n = Some (ElementNode e) ∧ is_not_None (DOMElementNode.highlight_index e) = true.
Proof.
  intros [Hwf Hroot]. unfold indexed_nodes.
  rewrite list_elem_of_In, filter_In, <- list_elem_of_In.
  rewrite elem_of_nodes by (assumption || (apply is_element_lt; assumption)).
  unfold indexed, highlight_index_of. split.
  - intros [Hreach Hidx]. split; [ assumption | ].
    destruct (h !! n) as [ [ t | e ] | ]; try discriminate. eauto.
  - intros [Hreach (e & -> & Hidx)]. auto.
Qed.

Lemma NoDup_indexed_nodes h root : tree h root → NoDup (indexed_nodes h root).
Proof.
  intros [Hwf _]. unfold indexed_nodes. apply NoDup_ListNoDup, List.NoDup_filter.
  apply NoDup_ListNoDup, NoDup_nodes. assumption.
Qed.

(** C2. In a finished tree whose highlight indexes are unique (and can be
    keys: the data model has them integers), [_create_selector_map] returns
    the map whose bindings are exactly the pairs (highlight index, node) of
    the elements of the tree with a highlight index that is not [None]: text
    nodes and elements without index give no binding, and the size of the
    map is the number of those elements. *)
Theorem selector_map_holds_the_indexed_elements (h : heap) (root : loc) :
  tree h root → indexes_hashable h root → indexes_unique h root →
  ∃ m,
    _create_selector_map h root = Ok m ∧
    m = map (entry h) (indexed_nodes h root) ∧
    (∀ k n, (k, n) ∈ m ↔
            reachable h root n ∧
            ∃ e, h !! n = Some (ElementNode e) ∧
                 DOMElementNode.highlight_index e = k ∧ is_not_None k = true) ∧
    NoDup (indexed_nodes h root) ∧
    length m = length (indexed_nodes h root).
Proof.
  intros Htree Hhash Huniq.
  exists (map (entry h) (indexed_nodes h root)).
  split.
  { rewrite _create_selector_map_walk, fold_index_node by assumption.
    fold (indexed_nodes h root).
    rewrite fold_selector_set_unique.
    - reflexivity.
    - apply NoDup_indexed_nodes. assumption.
    - exact Huniq.
    - intros k n' a Hin. apply elem_of_nil in Hin. contradiction. }
  split; [ reflexivity | ]. split; [ | split ].
  - intros k n. rewrite list_elem_of_fmap. split.
    + intros (x & [= -> ->] & Hx).
      apply (elem_of_indexed_nodes _ _ _ Htree) in Hx as [Hreach (e & He & Hidx)].
      split; [ assumption | ]. exists e. unfold highlight_index_of. rewrite He. auto.
    + intros [Hreach (e & He & <- & Hidx)]. exists n. split.
      * unfold entry, highlight_index_of. rewrite He. reflexivity.
      * apply (elem_of_indexed_nodes _ _ _ Htree). eauto.
  - apply NoDup_indexed_nodes. assumption.
  - apply length_map.
Qed.

Lemma selector_map_holds_the_indexed_elements_witness :
  _build_dom_tree scenario_page = (Ok (0, built_store scenario_page), [Print "Iframe not found"]) ∧
  indexed_nodes (built_store scenario_page) 0 = [1] ∧
  _create_selector_map (built_store scenario_page) 0 = Ok [(JNum 0, 1)].
Proof.
  assert (_build_dom_tree scenario_page =
            (Ok (0, built_store scenario_page), [Print "Iframe not found"])) as Hrun
    by (vm_compute; reflexivity).
  assert (indexed_nodes (built_store scenario_page) 0 = [1]) as Hnodes
    by (vm_compute; reflexivity).
  split; [ exact Hrun | ]. split; [ exact Hnodes | ].
  assert (indexes_hashable (built_store scenario_page) 0) as Hhash.
  { intros n Hn. rewrite Hnodes in Hn. apply list_elem_of_singleton in Hn. subst n.
    reflexivity. }
  assert (indexes_unique (built_store scenario_page) 0) as Huniq.
  { intros n1 n2 H1 H2 Hne. rewrite Hnodes in H1, H2.
    apply list_elem_of_singleton in H1, H2. congruence. }
  destruct (selector_map_holds_the_indexed_elements _ _
              (_build_dom_tree_tree _ _ _ _ Hrun) Hhash Huniq) as (m & Hmap & -> & _).
  rewrite Hmap, Hnodes. reflexivity.
Defined.

(** ** Shared highlight indexes *)

Lemma keys_hashable_set m key n :
  keys_hashable m → hashable key = true → keys_hashable (selector_set m key n).
Proof.
  induction m as [ | [k n'] m IH ]; intros Hm Hkey; simpl.
  - intros k0 n0 Hin. apply list_elem_of_singleton in Hin. injection Hin as -> ->. assumption.
  - assert (keys_hashable m) as Hm' by (intros k0 n0 Hin; apply (Hm k0 n0); right; assumption).
    destruct (py_eq k key).
    + intros k0 n0 Hin. apply elem_of_cons in Hin as [ [= -> ->] | Hin ].
      * apply (Hm k n'). left.
      * apply (Hm' k0 n0). assumption.
    + intros k0 n0 Hin. apply elem_of_cons in Hin as [ [= -> ->] | Hin ].
      * apply (Hm k n'). left.
      * apply (IH Hm' Hkey k0 n0). assumption.
Qed.

(** Reading after an assignment. *)
Lemma selector_get_set m key n key' :
  keys_hashable m → hashable key = true → hashable key' = true →
  selector_get (selector_set m key n) key' =
  if py_eq key key' then Some n else selector_get m key'.
Proof.
  intros Hm Hkey Hkey'. induction m as [ | [k n'] m IH ]; simpl; [ reflexivity | ].
  assert (hashable k = true) as Hk by (apply (Hm k n'); left).
  assert (keys_hashable m) as Hm' by (intros k0 n0 Hin; apply (Hm k0 n0); right; assumption).
  specialize (IH Hm').
  rewrite (py_eq_key_of k key), (py_eq_key_of key key') in * by assumption.
  destruct (bool_decide_reflect (key_of k = key_of key)) as [ Hkk | Hkk ]; simpl.
  - rewrite (py_eq_key_of k key') by assumption.
    destruct (bool_decide_reflect (key_of k = key_of key')) as [ Hk' | Hk' ].
    + rewrite bool_decide_eq_true_2 by congruence. reflexivity.
    + rewrite bool_decide_eq_false_2 by congruence. reflexivity.
  - rewrite (py_eq_key_of k key') by assumption.
    destruct (bool_decide_reflect (key_of k = key_of key')) as [ Hk' | Hk' ].
    + rewrite bool_decide_eq_false_2 by congruence. reflexivity.
    + exact IH.
Qed.

Lemma fold_left_snoc {A B : Type} (f : A → B → A) l x a :
  fold_left f (l ++ [x]) a = f (fold_left f l a) x.
Proof. rewrite fold_left_app. reflexivity. Qed.

Lemma keys_hashable_fold (key : loc → json) l :
  (∀ n, n ∈ l → hashable (key n) = true) →
  keys_hashable (fold_left (λ m n, selector_set m (key n) n) l []).
Proof.
  induction l as [ | a l IH ] using rev_ind; intros Hl.
  - intros k n Hin. apply elem_of_nil in Hin. contradiction.
  - rewrite fold_left_snoc. apply keys_hashable_set.
    + apply IH. intros n Hn. apply Hl. apply elem_of_app. left. assumption.
    + apply Hl. apply elem_of_app. right. left.
Qed.

(** A key reads the node that was assigned to it last. *)
Lemma selector_get_fold (key : loc → json) l key' :
  (∀ n, n ∈ l → hashable (key n) = true) → hashable key' = true →
  selector_get (fold_left (λ m n, selector_set m (key n) n) l []) key' =
  find (λ n, py_eq (key n) key') (rev l).
Proof.
  intros Hl Hkey'. induction l as [ | a l IH ] using rev_ind; [ reflexivity | ].
  assert (∀ n, n ∈ l → hashable (key n) = true) as Hl'
    by (intros n Hn; apply Hl, elem_of_app; left; assumption).
  rewrite fold_left_snoc, rev_app_distr. simpl.
  rewrite selector_get_set;
    [ | apply keys_hashable_fold; assumption
      | apply Hl, elem_of_app; right; left
      | assumption ].
  destruct (py_eq (key a) key'); [ reflexivity | apply IH; assumption ].
Qed.

(** The keys of the map after an assignment. *)
Lemma selector_set_keys m key n :
  keys_hashable m → hashable key = true →
  map (λ kn, key_of kn.1) (selector_set m key n) =
  if bool_decide (key_of key ∈ map (λ kn, key_of kn.1) m)
  then map (λ kn, key_of kn.1) m
  else map (λ kn, key_of kn.1) m ++ [key_of key].
Proof.
  intros Hm Hkey. induction m as [ | [k n'] m IH ]; simpl; [ reflexivity | ].
  assert (hashable k = true) as Hk by (apply (Hm k n'); left).
  assert (keys_hashable m) as Hm' by (intros k0 n0 Hin; apply (Hm k0 n0); right; assumption).
  specialize (IH Hm'). rewrite (py_eq_key_of k key) by assumption.
  destruct (bool_decide_reflect (key_of k = key_of key)) as [ Hkk | Hkk ]; simpl.
  - rewrite bool_decide_eq_true_2; [ reflexivity | ]. rewrite Hkk. left.
  - rewrite IH. destruct (bool_decide_reflect (key_of key ∈ map (λ kn, key_of kn.1) m))
      as [ Hin | Hin ].
    + rewrite bool_decide_eq_true_2; [ reflexivity | ]. right. assumption.
    + rewrite bool_decide_eq_false_2; [ reflexivity | ].
      intros Hin'. apply elem_of_cons in Hin' as [ Heq | Hin' ]; congruence.
Qed.

(** The keys of the map are the distinct indexes assigned, each once. *)
Lemma fold_selector_set_keys (key : loc → json) l :
  (∀ n, n ∈ l → hashable (key n) = true) →
  let m := fold_left (λ m n, selector_set m (key n) n) l [] in
  NoDup (map (λ kn, key_of kn.1) m) ∧
  (list_to_set (map (λ kn, key_of kn.1) m) : gset key_value) =
  list_to_set (map (λ n, key_of (key n)) l).
Proof.
  induction l as [ | a l IH ] using rev_ind; intros Hl; simpl.
  - split; [ constructor | reflexivity ].
  - assert (∀ n, n ∈ l → hashable (key n) = true) as Hl'
      by (intros n Hn; apply Hl, elem_of_app; left; assumption).
    destruct (IH Hl') as [Hnd Hset]. rewrite fold_left_snoc.
    rewrite selector_set_keys;
      [ | apply keys_hashable_fold; assumption | apply Hl, elem_of_app; right; left ].
    rewrite map_app, list_to_set_app_L. simpl.
    destruct (bool_decide_reflect (key_of (key a) ∈
                map (λ kn, key_of kn.1) (fold_left (λ m n, selector_set m (key n) n) l [])))
      as [ Hin | Hin ].
    + split; [ assumption | ]. rewrite <- Hset.
      apply (elem_of_list_to_set (C := gset key_value)) in Hin. set_solver.
    + split.
      * apply NoDup_app. split; [ assumption | ]. split; [ | apply NoDup_singleton ].
        intros x Hx Hx'. apply list_elem_of_singleton in Hx'. subst x. contradiction.
      * rewrite list_to_set_app_L, Hset. reflexivity.
Qed.

Lemma size_list_to_set_le (ks : list key_value) :
  size (list_to_set ks : gset key_value) ≤ length ks.
Proof.
  induction ks as [ | k ks IH ].
  - rewrite list_to_set_nil, size_empty. simpl. lia.
  - rewrite list_to_set_cons, size_union_alt, size_singleton. simpl.
    assert (size (list_to_set ks ∖ {[k]} : gset key_value) ≤ size (list_to_set ks : gset key_value))
      by (apply subseteq_size; set_solver).
    lia.
Qed.

Lemma size_list_to_set_dup (ks : list key_value) :
  ¬ NoDup ks → size (list_to_set ks : gset key_value) < length ks.
Proof.
  induction ks as [ | k ks IH ]; intros Hdup.
  - destruct Hdup. constructor.
  - rewrite list_to_set_cons. simpl length. destruct (decide (k ∈ ks)) as [ Hin | Hout ].
    + replace ({[k]} ∪ list_to_set ks : gset key_value) with (list_to_set ks : gset key_value).
      * pose proof (size_list_to_set_le ks). lia.
      * apply (elem_of_list_to_set (C := gset key_value)) in Hin. set_solver.
    + rewrite size_union_alt, size_singleton.
      assert (size (list_to_set ks ∖ {[k]} : gset key_value) ≤ size (list_to_set ks : gset key_value))
        by (apply subseteq_size; set_solver).
      assert (¬ NoDup ks) as Hdup' by (intros Hnd; apply Hdup, NoDup_cons; auto).
      specialize (IH Hdup'). lia.
Qed.

Lemma NoDup_map_inj {A B : Type} (f : A → B) (l : list A) x y :
  NoDup (map f l) → x ∈ l → y ∈ l → f x = f y → x = y.
Proof.
  induction l as [ | a l IH ]; simpl; intros Hnd Hx Hy Hxy.
  - apply elem_of_nil in Hx. contradiction.
  - apply NoDup_cons in Hnd as [Ha Hnd].
    apply elem_of_cons in Hx as [ -> | Hx ], Hy as [ -> | Hy ].
    + reflexivity.
    + destruct Ha. rewrite Hxy. apply (list_elem_of_fmap_2 f). assumption.
    + destruct Ha. rewrite <- Hxy. apply (list_elem_of_fmap_2 f). assumption.
    + apply IH; assumption.
Qed.

(** C10. When two elements of a finished tree share a highlight index (the
    indexes being such that they can be keys), [_create_selector_map] still
    returns a map; every key reads the element with that index that comes
    last in pre-order; the size of the map is the number of distinct
    indexes, and it is smaller than the number of indexed elements. *)
Theorem shared_index_keeps_the_last_node (h : heap) (root : loc) (n1 n2 : loc) :
  tree h root → indexes_hashable h root →
  n1 ∈ indexed_nodes h root → n2 ∈ indexed_nodes h root → n1 ≠ n2 →
  py_eq (highlight_index_of h n1) (highlight_index_of h n2) = true →
  ∃ m,
    _create_selector_map h root = Ok m ∧
    (∀ key, hashable key = true → selector_get m key = last_indexed h root key) ∧
    length m = size (distinct_indexes h root) ∧
    length m < length (indexed_nodes h root).
Proof.
  intros Htree Hhash H1 H2 Hne Hshared.
  set (key := highlight_index_of h).
  exists (fold_left (λ m n, selector_set m (key n) n) (indexed_nodes h root) []).
  split.
  { rewrite _create_selector_map_walk, fold_index_node by assumption. reflexivity. }
  split.
  { intros key' Hkey'. apply selector_get_fold; assumption. }
  destruct (fold_selector_set_keys key (indexed_nodes h root) Hhash) as [Hnd Hset].
  assert (length (fold_left (λ m n, selector_set m (key n) n) (indexed_nodes h root) []) =
          size (distinct_indexes h root)) as Hsize.
  { unfold distinct_indexes. fold key. rewrite <- Hset.
    rewrite size_list_to_set by assumption. rewrite length_map. reflexivity. }
  split; [ exact Hsize | ]. rewrite Hsize. unfold distinct_indexes.
  rewrite <- (length_map (λ n, key_of (highlight_index_of h n)) (indexed_nodes h root)).
  apply size_list_to_set_dup. intros Hnodup. apply Hne.
  apply (NoDup_map_inj _ _ _ _ Hnodup H1 H2).
  rewrite py_eq_key_of in Hshared by (apply Hhash; assumption).
  apply bool_decide_eq_true_1 in Hshared. exact Hshared.
Qed.

Lemma shared_index_keeps_the_last_node_witness :
  indexed_nodes (built_store framed_page) 0 = [5; 3] ∧
  highlight_index_of (built_store framed_page) 5 = JNum 0 ∧
  highlight_index_of (built_store framed_page) 3 = JNum 0 ∧
  ∃ m,
    _create_selector_map (built_store framed_page) 0 = Ok m ∧
    selector_get m (JNum 0) = Some 3 ∧
    length m = 1.
Proof.
  assert (indexed_nodes (built_store framed_page) 0 = [5; 3]) as Hnodes
    by (vm_compute; reflexivity).
  split; [ exact Hnodes | ]. split; [ reflexivity | ]. split; [ reflexivity | ].
  assert (_build_dom_tree framed_page =
            (Ok (0, built_store framed_page),
             [CallFrame (JStr "f1"); Print "Iframe not found"])) as Hrun
    by (vm_compute; reflexivity).
  assert (indexes_hashable (built_store framed_page) 0) as Hhash.
  { intros n Hn. rewrite Hnodes in Hn.
    apply elem_of_cons in Hn as [ -> | Hn ]; [ reflexivity | ].
    apply list_elem_of_singleton in Hn. subst n. reflexivity. }
  destruct (shared_index_keeps_the_last_node (built_store framed_page) 0 5 3
              (_build_dom_tree_tree _ _ _ _ Hrun) Hhash) as (m & Hmap & Hget & Hsize & Hless).
  - rewrite Hnodes. left.
  - rewrite Hnodes. right. left.
  - discriminate.
  - reflexivity.
  - exists m. split; [ exact Hmap | ]. split.
    + rewrite Hget by reflexivity. vm_compute. reflexivity.
    + rewrite Hnodes in Hless. simpl in Hless.
      destruct m as [ | kn m ]; [ | simpl in *; lia ].
      specialize (Hget (JNum 0) eq_refl). vm_compute in Hget. discriminate.
Defined.

(** ** Fatal inputs *)

Lemma parse_children_raises parse l items child :
  child ∈ items → child ≠ JNull →
  (∀ p h, ∃ e, parse child p h = Raise e) →
  ∀ acc h, ∃ e, parse_children parse l items acc h = Raise e.
Proof.
  intros Hin Hchild Hraise. induction items as [ | c items IH ]; intros acc h.
  - apply elem_of_nil in Hin. contradiction.
  - apply elem_of_cons in Hin as [ <- | Hin ].
    + destruct (Hraise (Some l) h) as [e He]. exists e.
      destruct child; try contradiction; simpl; rewrite He; reflexivity.
    + specialize (IH Hin). simpl.
      destruct c; try apply IH;
        (destruct (parse _ (Some l) h) as [ [ [ x | ] h' ] | e ]; simpl;
         [ apply IH | apply IH | eexists; reflexivity ]).
Qed.

Lemma getitem_missing d key :
  dict_get key d = None → getitem (JObj d) key = Raise (KeyError key).
Proof. intros Hd. unfold getitem. rewrite Hd. reflexivity. Qed.

(** A record that lacks a required field makes [_parse_node] raise. *)
Lemma lacks_required_raises v :
  lacks_required v → ∀ parent h, ∃ e, _parse_node v parent h = Raise e.
Proof.
  induction 1 as [ d key Hd Htext Hkey Hmiss | d key Hd Htext Hkey Hmiss
                 | d items child Hd Htext Hkids Hin Hchild IH ];
    intros parent h; rewrite _parse_node_dict, Hd; simpl negb; cbv iota;
    fold (is_text_record d); rewrite Htext.
  - destruct Hkey as [ -> | -> ].
    + rewrite getitem_missing by assumption. eexists; reflexivity.
    + destruct (getitem (JObj d) "text"); [ | eexists; reflexivity ]. cbn [bind].
      rewrite getitem_missing by assumption. eexists; reflexivity.
  - destruct Hkey as [ -> | -> ].
    + rewrite getitem_missing by assumption. eexists; reflexivity.
    + destruct (getitem (JObj d) "tagName"); [ | eexists; reflexivity ]. cbn [bind].
      destruct (when_present d "viewportCoordinates" _); [ | eexists; reflexivity ]. cbn [bind].
      destruct (when_present d "pageCoordinates" _); [ | eexists; reflexivity ]. cbn [bind].
      destruct (when_present d "viewport" _); [ | eexists; reflexivity ]. cbn [bind].
      rewrite getitem_missing by assumption. eexists; reflexivity.
  - destruct (getitem (JObj d) "tagName"); [ | eexists; reflexivity ]. cbn [bind].
    destruct (when_present d "viewportCoordinates" _); [ | eexists; reflexivity ]. cbn [bind].
    destruct (when_present d "pageCoordinates" _); [ | eexists; reflexivity ]. cbn [bind].
    destruct (when_present d "viewport" _); [ | eexists; reflexivity ]. cbn [bind].
    destruct (getitem (JObj d) "xpath"); [ | eexists; reflexivity ]. cbn [bind]. cbv zeta.
    unfold get. rewrite Hkids. cbn [py_iter bind].
    match goal with
    | |- context [parse_children _parse_node ?l items [] ?h1] =>
        destruct (parse_children_raises _parse_node l items child Hin) with (acc := @nil loc) (h := h1)
          as [e He]
    end.
    + intros ->. inversion Hchild.
    + exact IH.
    + rewrite He. eexists; reflexivity.
Qed.

(** A text record with its fields is reconstructed as a text node. *)
Lemma _parse_node_text d parent h r h' :
  is_text_record d = true →
  _parse_node (JObj d) parent h = Ok (r, h') →
  match r with Some n => is_element h' n = false | None => True end.
Proof.
  intros Htext Hrun. rewrite _parse_node_dict in Hrun.
  destruct (negb (truthy (JObj d))); [ injection Hrun as <- <-; exact I | ].
  fold (is_text_record d) in Hrun. rewrite Htext in Hrun.
  apply bind_Ok in Hrun as [text [_ Hrun]].
  apply bind_Ok in Hrun as [vis [_ Hrun]].
  injection Hrun as <- <-. unfold is_element.
  rewrite list_lookup_middle by reflexivity. reflexivity.
Qed.

(** C4, as the code has it.  On a fatal top-level result the whole build
    raises, before any frame is asked for or anything is printed, and
    [get_clickable_elements] returns no snapshot.  The exception is the
    [ValueError] of [_build_dom_tree] when [_parse_node] returns (no node or
    a text node), and otherwise the exception [_parse_node] raised itself:
    the [KeyError] of the missing key, or the [AttributeError] of a truthy
    value that is not a dict.  There is no error kind of its own and the
    exception does not hold the record. *)
Theorem fatal_result_aborts_the_build (v : json) (page : Page.t) :
  fatal_result v → Page.evaluate page = Ok v →
  ∃ e,
    _build_dom_tree page = (Raise e, []) ∧
    get_clickable_elements page = (Raise e, []) ∧
    match _parse_node v None [] with
    | Ok _ => e = ValueError "Failed to parse HTML to dictionary"
    | Raise e' => e = e'
    end ∧
    (truthy v = false → e = ValueError "Failed to parse HTML to dictionary") ∧
    (∀ d, v = JObj d → truthy v = true → is_text_record d = false →
          dict_get "tagName" d = None → e = KeyError "tagName") ∧
    (∀ d, v = JObj d → is_text_record d = true →
          dict_get "text" d = None → e = KeyError "text").
Proof.
  intros Hfatal Hpage.
  assert (∃ e, _build_dom_tree page = (Raise e, []) ∧
               match _parse_node v None [] with
               | Ok _ => e = ValueError "Failed to parse HTML to dictionary"
               | Raise e' => e = e'
               end) as (e & Hrun & He).
  { unfold _build_dom_tree. rewrite Hpage.
    destruct (_parse_node v None []) as [ [ [ root | ] h0 ] | e' ] eqn:Hparse;
      [ | eexists; split; reflexivity | eexists; split; reflexivity ].
    assert (is_element h0 root = false) as ->; [ | eexists; split; reflexivity ].
    destruct Hfatal as [ Hfalsy | [ Hshape | Hlacks ] ].
    - rewrite _parse_node_falsy in Hparse by assumption. discriminate.
    - destruct v as [ | b | n | s | items | d ];
        try (rewrite parse_non_dict_eq in Hparse by exact I; unfold parse_non_dict in Hparse;
             destruct (negb (truthy _)); discriminate).
      exact (_parse_node_text _ _ _ _ _ Hshape Hparse).
    - destruct (lacks_required_raises _ Hlacks None []) as [e' He']. congruence. }
  exists e. split; [ exact Hrun | ].
  split; [ unfold get_clickable_elements; rewrite Hrun; reflexivity | ].
  split; [ exact He | ]. split; [ | split ].
  - intros Hfalsy. rewrite _parse_node_falsy in He by assumption. exact He.
  - intros d -> Htruthy Htext Hmiss. rewrite _parse_node_dict, Htruthy in He.
    simpl negb in He. cbv iota in He.
    fold (is_text_record d) in He. rewrite Htext, getitem_missing in He by assumption.
    exact He.
  - intros d -> Htext Hmiss.
    assert (truthy (JObj d) = true) as Htruthy
      by (destruct d; [ discriminate | reflexivity ]).
    rewrite _parse_node_dict, Htruthy in He. simpl negb in He. cbv iota in He.
    fold (is_text_record d) in He. rewrite Htext, getitem_missing in He by assumption.
    exact He.
Qed.

Lemma fatal_result_aborts_the_build_witness :
  _build_dom_tree (page_of (JObj [("tagName", JStr "div")]) []) = (Raise (KeyError "xpath"), []) ∧
  get_clickable_elements (page_of (JObj [("tagName", JStr "div")]) []) =
    (Raise (KeyError "xpath"), []).
Proof.
  assert (fatal_result (JObj [("tagName", JStr "div")])) as Hfatal.
  { right. right. apply (lacks_element_field _ "xpath"); [ reflexivity | reflexivity | | reflexivity ].
    right. reflexivity. }
  destruct (fatal_result_aborts_the_build (JObj [("tagName", JStr "div")])
              (page_of (JObj [("tagName", JStr "div")]) []) Hfatal eq_refl)
    as (e & Hrun & Hget & He & _).
  vm_compute in He. subst e. split; [ exact Hrun | exact Hget ].
Defined.

(** C4 as stated fails: a null result and a text record both fail with the
    same [ValueError], which holds a fixed message and nothing of the record,
    and a record without [xpath] fails with another class of error, a
    [KeyError] that holds the name of the missing key only. *)
Lemma fatal_results_raise_builtin_errors :
  _build_dom_tree (page_of JNull []) =
    (Raise (ValueError "Failed to parse HTML to dictionary"), []) ∧
  _build_dom_tree (page_of hello_record []) =
    (Raise (ValueError "Failed to parse HTML to dictionary"), []) ∧
  _build_dom_tree (page_of (JObj [("tagName", JStr "div")]) []) =
    (Raise (KeyError "xpath"), []) ∧
  ¬ fatal_results_share_an_error_kind.
Proof.
  split; [ reflexivity | ]. split; [ reflexivity | ]. split; [ reflexivity | ].
  intros [kind Hkind].
  destruct (Hkind JNull (page_of JNull [])) as (e1 & He1 & Hk1);
    [ left; reflexivity | reflexivity | ].
  destruct (Hkind (JObj [("tagName", JStr "div")])
              (page_of (JObj [("tagName", JStr "div")]) [])) as (e2 & He2 & Hk2);
    [ | reflexivity | ].
  { right. right. apply (lacks_element_field _ "xpath"); [ reflexivity | reflexivity | | reflexivity ].
    right. reflexivity. }
  vm_compute in He1, He2. injection He1 as <-. injection He2 as <-.
  simpl in Hk1, Hk2. congruence.
Qed.

(** * Further properties of the code *)

(** ** Rounds of the loop, case by case *)

(** A round that ends without an exception: no frame, a falsy result, or a
    tree reconstructed in the store and spliced when found. *)
Lemma resolve_iframe_cases page root i iframe h log h' log' :
  heap_wf h → is_element h root = true →
  resolve_iframe page root i iframe h log = (Ok h', log') →
  ∃ e,
    h !! iframe = Some (ElementNode e) ∧
    log' = log ++ [CallFrame (DOMElementNode.id e)] ∧
    (Page.frame page i (DOMElementNode.id e) = None ∧ h' = h ∨
     ∃ result,
       Page.frame page i (DOMElementNode.id e) = Some (Ok result) ∧
       (truthy result = false ∧ h' = h ∨
        ∃ dom h1,
          _parse_node result None h = Ok (Some dom, h1) ∧
          h' = splice_found root (DOMElementNode.id e) dom h1)).
Proof.
  intros Hwf Hroot Hrun. unfold resolve_iframe in Hrun.
  destruct (h !! iframe) as [ [ t | e ] | ] eqn:Hifr; try discriminate.
  exists e. split; [ reflexivity | ].
  destruct (Page.frame page i (DOMElementNode.id e)) as [ [ result | err ] | ] eqn:Hframe;
    [ | discriminate | injection Hrun as <- <-; auto ].
  injection Hrun as Hrun <-. split; [ reflexivity | ]. right. exists result.
  split; [ reflexivity | ]. cbn [bind] in Hrun.
  destruct (truthy result) eqn:Hresult; [ | injection Hrun as <-; auto ].
  right. apply bind_Ok in Hrun as [ [iframe_dom h1] [Hparse Hrun] ].
  destruct (_parse_node_truthy _ _ _ _ _ Hresult Hparse) as [dom ->].
  exists dom, h1. split; [ assumption | ]. unfold splice_found.
  destruct (truthy (DOMElementNode.id e)); [ | injection Hrun as <-; reflexivity ].
  destruct (_parse_node_post _ _ _ _ _ Hparse) as (Hpre & Hwf1 & _).
  specialize (Hwf1 Hwf).
  assert (is_element h1 root = true) as Hroot1
    by (eapply later_store_is_element; [ apply later_store_prefix | ]; eassumption).
  rewrite find_iframe_node_walk in Hrun by (assumption || lia). cbn [bind] in Hrun.
  fold (nodes h1 root) in Hrun.
  destruct (find (has_id h1 (DOMElementNode.id e)) (nodes h1 root));
    [ | injection Hrun as <-; reflexivity ].
  unfold splice. destruct (is_element h1 dom); injection Hrun as <-; reflexivity.
Qed.

(** ** [_parse_node] and the store *)

(** X1. [_parse_node] never touches the nodes that are already in the
    store: it only appends.  When it returns a node, that node is the first
    one appended and its [parent] is the argument; when it returns [None],
    the store is as it was. *)
Theorem _parse_node_only_appends (node_data : json) (parent : option loc) (h : heap)
    (r : option loc) (h' : heap) :
  _parse_node node_data parent h = Ok (r, h') →
  (∃ new, h' = h ++ new) ∧
  (∀ n, n < length h → h' !! n = h !! n) ∧
  match r with
  | Some n => n = length h ∧ n < length h' ∧ parent_of h' n = parent
  | None => h' = h
  end.
Proof.
  intros Hrun. destruct (_parse_node_post _ _ _ _ _ Hrun) as (Hpre & _ & Hr).
  split; [ exact Hpre | ]. split; [ | exact Hr ].
  intros n Hn. apply prefix_lookup_lt; assumption.
Qed.

Lemma _parse_node_only_appends_witness :
  ∃ h', _parse_node body_record (Some 1) framed_store = Ok (Some 4, h') ∧
        (∀ n, n < 4 → h' !! n = framed_store !! n) ∧ parent_of h' 4 = Some 1.
Proof.
  eexists.
  assert (_parse_node body_record (Some 1) framed_store = Ok (Some 4, _)) as Hrun
    by (vm_compute; reflexivity).
  split; [ exact Hrun | ].
  destruct (_parse_node_only_appends _ _ _ _ _ Hrun) as (_ & Hkeep & _ & _ & Hparent).
  split; [ exact Hkeep | exact Hparent ].
Defined.

(** ** The two searches of [_build_dom_tree] *)

(** X2. On a finished tree [find_cross_origin_iframes] returns, without
    exception, exactly the elements of the tree whose
    [is_cross_oirigin_iframe] is truthy, each once, in pre-order. *)
Theorem find_cross_origin_iframes_finds_all (h : heap) (root : loc) :
  tree h root →
  ∃ iframes,
    find_cross_origin_iframes (length h) h root = Ok iframes ∧
    iframes = List.filter (is_cross_origin h) (nodes h root) ∧
    NoDup iframes ∧
    ∀ n, n ∈ iframes ↔
         reachable h root n ∧
         ∃ e, h !! n = Some (ElementNode e) ∧
              truthy (DOMElementNode.is_cross_oirigin_iframe e) = true.
Proof.
  intros [Hwf Hroot]. eexists. split.
  { apply find_cross_origin_iframes_walk; [ assumption | assumption | lia ]. }
  fold (nodes h root). split; [ reflexivity | ]. split.
  - apply NoDup_ListNoDup, List.NoDup_filter, NoDup_ListNoDup, NoDup_nodes. assumption.
  - intros n. rewrite list_elem_of_In, filter_In, <- list_elem_of_In.
    rewrite elem_of_nodes by (assumption || (apply is_element_lt; assumption)).
    unfold is_cross_origin. split.
    + intros [Hreach Hflag]. split; [ assumption | ].
      destruct (h !! n) as [ [ t | e ] | ]; try discriminate. eauto.
    + intros [Hreach (e & -> & Hflag)]. auto.
Qed.

Lemma find_cross_origin_iframes_finds_all_witness :
  find_cross_origin_iframes (length nested_store_0) nested_store_0 0 = Ok [1; 2] ∧
  NoDup [1; 2].
Proof.
  assert (_parse_node nested_placeholders None [] = Ok (Some 0, nested_store_0)) as Hparse
    by (vm_compute; reflexivity).
  destruct (_parse_node_post _ _ _ _ _ Hparse) as (_ & Hwf & _).
  destruct (find_cross_origin_iframes_finds_all nested_store_0 0
              (conj (Hwf heap_wf_nil) eq_refl)) as (iframes & Hfind & Heq & Hnd & _).
  assert (iframes = [1; 2]) as -> by (rewrite Heq; vm_compute; reflexivity).
  split; [ exact Hfind | exact Hnd ].
Defined.

Lemma find_none_iff {A : Type} (f : A → bool) (l : list A) :
  find f l = None ↔ ∀ x, x ∈ l → f x = false.
Proof.
  induction l as [ | a l IH ]; simpl.
  - split; [ intros _ x Hx; apply elem_of_nil in Hx; contradiction | reflexivity ].
  - destruct (f a) eqn:Ha.
    + split; [ discriminate | ]. intros H. specialize (H a ltac:(left)). congruence.
    + rewrite IH. split.
      * intros H x Hx. apply elem_of_cons in Hx as [ -> | Hx ]; auto.
      * intros H x Hx. apply H. right. assumption.
Qed.

Lemma find_first {A : Type} (f : A → bool) (l : list A) x :
  find f l = Some x →
  ∃ before after, l = before ++ x :: after ∧ f x = true ∧ ∀ y, y ∈ before → f y = false.
Proof.
  induction l as [ | a l IH ]; simpl; [ discriminate | ].
  destruct (f a) eqn:Ha.
  - intros [= ->]. exists [], l. split; [ reflexivity | ]. split; [ assumption | ].
    intros y Hy. apply elem_of_nil in Hy. contradiction.
  - intros Hfind. destruct (IH Hfind) as (before & after & -> & Hx & Hbefore).
    exists (a :: before), after. split; [ reflexivity | ]. split; [ assumption | ].
    intros y Hy. apply elem_of_cons in Hy as [ -> | Hy ]; auto.
Qed.

(** X3. On a finished tree [find_iframe_node] returns without exception.
    It returns [None] exactly when no element of the tree has an id equal
    to the one searched; otherwise it returns the first element in
    pre-order whose id is equal to it. *)
Theorem find_iframe_node_finds_first (h : heap) (root : loc) (iframe_id : json) :
  tree h root →
  ∃ r,
    find_iframe_node (length h) h iframe_id root = Ok r ∧
    match r with
    | None => ∀ n, reachable h root n → has_id h iframe_id n = false
    | Some node =>
        reachable h root node ∧ has_id h iframe_id node = true ∧
        ∃ before after,
          nodes h root = before ++ node :: after ∧
          ∀ n, n ∈ before → has_id h iframe_id n = false
    end.
Proof.
  intros [Hwf Hroot]. eexists. split.
  { apply find_iframe_node_walk; [ assumption | assumption | lia ]. }
  fold (nodes h root).
  destruct (find (has_id h iframe_id) (nodes h root)) as [ node | ] eqn:Hfind.
  - destruct (find_first _ _ _ Hfind) as (before & after & Heq & Hid & Hbefore).
    split; [ | split; [ assumption | eauto ] ].
    apply elem_of_nodes; [ assumption | apply is_element_lt; assumption | ].
    rewrite Heq. apply elem_of_app. right. left.
  - intros n Hn. rewrite find_none_iff in Hfind. apply Hfind.
    apply elem_of_nodes; [ assumption | apply is_element_lt; assumption | assumption ].
Qed.

Lemma find_iframe_node_finds_first_witness :
  find_iframe_node (length framed_store) framed_store (JStr "f1") 0 = Ok (Some 1) ∧
  find_iframe_node (length framed_store) framed_store (JStr "f9") 0 = Ok None.
Proof.
  assert (_parse_node framed_body None [] = Ok (Some 0, framed_store)) as Hparse
    by (vm_compute; reflexivity).
  destruct (_parse_node_post _ _ _ _ _ Hparse) as (_ & Hwf & _).
  destruct (find_iframe_node_finds_first framed_store 0 (JStr "f1")
              (conj (Hwf heap_wf_nil) eq_refl)) as (r & Hfind & _).
  split; [ | vm_compute; reflexivity ].
  rewrite Hfind. vm_compute in Hfind. injection Hfind as <-. reflexivity.
Defined.

(** ** What the loop keeps *)

Lemma parent_of_set_parent_ne n p h m : n ≠ m → parent_of (set_parent n p h) m = parent_of h m.
Proof. intros Hne. unfold parent_of. rewrite lookup_set_parent_ne by assumption. reflexivity. Qed.

Lemma parent_of_splice_found root iframe_id dom h1 n :
  n ≠ dom → parent_of (splice_found root iframe_id dom h1) n = parent_of h1 n.
Proof.
  intros Hne. unfold splice_found, splice.
  destruct (truthy iframe_id); [ | reflexivity ].
  destruct (find _ _); [ | reflexivity ].
  destruct (is_element h1 dom); [ | reflexivity ].
  rewrite parent_of_set_children. apply parent_of_set_parent_ne. congruence.
Qed.

(** A round keeps the [parent] of every node that was in the store. *)
Lemma resolve_iframe_parents page root i iframe h log h' log' :
  heap_wf h → is_element h root = true →
  resolve_iframe page root i iframe h log = (Ok h', log') →
  ∀ n, n < length h → parent_of h' n = parent_of h n.
Proof.
  intros Hwf Hroot Hrun n Hn.
  destruct (resolve_iframe_cases _ _ _ _ _ _ _ _ Hwf Hroot Hrun)
    as (e & _ & _ & [ [_ ->] | (result & _ & [ [_ ->] | (dom & h1 & Hparse & ->) ]) ]);
    try reflexivity.
  destruct (_parse_node_post _ _ _ _ _ Hparse) as (Hpre & _ & -> & _).
  rewrite parent_of_splice_found by lia. apply prefix_parent_of; assumption.
Qed.

Lemma resolve_iframes_parents page root iframes :
  ∀ i h log h' log',
    heap_wf h → is_element h root = true →
    resolve_iframes page root i iframes h log = (Ok h', log') →
    ∀ n, n < length h → parent_of h' n = parent_of h n.
Proof.
  induction iframes as [ | iframe rest IH ]; intros i h log h' log' Hwf Hroot Hrun n Hn.
  - simpl in Hrun. injection Hrun as <- _. reflexivity.
  - simpl in Hrun.
    destruct (resolve_iframe page root i iframe h log) as [ [ h1 | e ] log1 ] eqn:Hstep;
      [ | discriminate ].
    destruct (resolve_iframe_Ok _ _ _ _ _ _ _ _ Hwf Hroot Hstep)
      as (_ & _ & Hwf1 & Hlater1 & _).
    apply later_store_length in Hlater1 as Hlen.
    rewrite (IH _ _ _ _ _ Hwf1 (later_store_is_element _ _ _ Hlater1 Hroot) Hrun) by lia.
    eapply resolve_iframe_parents; eassumption.
Qed.

(** What a build that returns went through, with the facts the loop
    keeps. *)
Lemma _build_dom_tree_kept page root h log :
  _build_dom_tree page = (Ok (root, h), log) →
  ∃ eval_page h0,
    Page.evaluate page = Ok eval_page ∧
    _parse_node eval_page None [] = Ok (Some root, h0) ∧
    root = 0 ∧ heap_wf h0 ∧ is_element h0 root = true ∧
    heap_wf h ∧ later_store h0 h ∧
    ∀ n, n < length h0 → parent_of h n = parent_of h0 n.
Proof.
  intros Hrun.
  apply _build_dom_tree_Ok in Hrun
    as (raw & h0 & iframes & log0 & Hpage & Hparse & Hroot & Hfind & Hloop & _).
  destruct (_parse_node_post _ _ _ _ _ Hparse) as (_ & Hwf0 & Hzero & _).
  specialize (Hwf0 heap_wf_nil).
  pose proof (find_cross_origin_iframes_bound _ _ _ Hwf0 Hroot Hfind) as Hbound.
  destruct (resolve_iframes_Ok _ _ _ _ _ _ _ _ Hwf0 Hroot Hbound Hloop)
    as (_ & Hwf & Hlater & _).
  exists raw, h0. repeat (split; [ assumption | ]).
  eapply resolve_iframes_parents; eassumption.
Qed.

(** X4. The tree a build returns is rooted and acyclic: the root is the
    first node allocated and has no parent, every child was allocated after
    the element that lists it, and no element is below one of its own
    children. *)
Theorem built_tree_is_acyclic (page : Page.t) (root : loc) (h : heap) (log : list event) :
  _build_dom_tree page = (Ok (root, h), log) →
  root = 0 ∧ parent_of h root = None ∧
  (∀ p c, c ∈ children_of h p → p < c < length h) ∧
  ∀ p c, c ∈ children_of h p → ¬ reachable h c p.
Proof.
  intros Hrun.
  destruct (_build_dom_tree_kept _ _ _ _ Hrun)
    as (raw & h0 & _ & Hparse & -> & Hwf0 & Hroot & Hwf & _ & Hparents).
  split; [ reflexivity | ]. split.
  { rewrite Hparents by (apply is_element_lt; assumption).
    destruct (_parse_node_post _ _ _ _ _ Hparse) as (_ & _ & _ & _ & Hp). exact Hp. }
  split.
  - intros p c Hc. apply (heap_wf_children_of _ _ _ Hwf Hc).
  - intros p c Hc Hreach. destruct (heap_wf_children_of _ _ _ Hwf Hc) as [Hb _].
    apply reachable_bound in Hreach; [ lia | assumption | lia ].
Qed.

Lemma built_tree_is_acyclic_witness :
  parent_of (built_store framed_page) 0 = None ∧
  ∀ p c, c ∈ children_of (built_store framed_page) p → ¬ reachable (built_store framed_page) c p.
Proof.
  assert (_build_dom_tree framed_page =
            (Ok (0, built_store framed_page),
             [CallFrame (JStr "f1"); Print "Iframe not found"])) as Hrun
    by (vm_compute; reflexivity).
  destruct (built_tree_is_acyclic _ _ _ _ Hrun) as (_ & Hparent & _ & Hacyclic).
  split; [ exact Hparent | exact Hacyclic ].
Defined.

(** X5. The loop never removes a node and never changes what a node is:
    every node of the tree as first reconstructed (store [h0]) is, in the
    store the build returns, a node of the same class with the same fields,
    [children] apart, and with the same [parent].  Only [children] lists of
    existing nodes are rewritten. *)
Theorem splices_only_rewrite_children (page : Page.t) (eval_page : json) (root : loc)
    (h0 h : heap) (log : list event) :
  Page.evaluate page = Ok eval_page →
  _parse_node eval_page None [] = Ok (Some root, h0) →
  _build_dom_tree page = (Ok (root, h), log) →
  length h0 ≤ length h ∧
  ∀ n x, h0 !! n = Some x →
    ∃ y, h !! n = Some y ∧ same_object x y ∧ parent_of h n = parent_of h0 n.
Proof.
  intros Hpage Hparse Hrun.
  destruct (_build_dom_tree_kept _ _ _ _ Hrun)
    as (raw & h0' & Hpage' & Hparse' & _ & _ & _ & _ & Hlater & Hparents).
  assert (raw = eval_page) as -> by congruence.
  assert (h0' = h0) as -> by congruence.
  split; [ apply later_store_length; assumption | ].
  intros n x Hx. destruct (Hlater n x Hx) as (y & Hy & Hxy).
  exists y. split; [ assumption | ]. split; [ assumption | ].
  apply Hparents. eapply lookup_lt_Some. eassumption.
Qed.

Lemma splices_only_rewrite_children_witness :
  id_of (built_store framed_page) 1 = JStr "f1" ∧
  children_of framed_store 1 = [2] ∧ children_of (built_store framed_page) 1 = [4] ∧
  parent_of (built_store framed_page) 2 = Some 1.
Proof.
  assert (_build_dom_tree framed_page =
            (Ok (0, built_store framed_page),
             [CallFrame (JStr "f1"); Print "Iframe not found"])) as Hrun
    by (vm_compute; reflexivity).
  assert (_parse_node framed_body None [] = Ok (Some 0, framed_store)) as Hparse
    by (vm_compute; reflexivity).
  destruct (splices_only_rewrite_children framed_page framed_body 0 framed_store _ _
              eq_refl Hparse Hrun) as [_ Hkept].
  split; [ reflexivity | ]. split; [ reflexivity | ]. split; [ reflexivity | ].
  destruct (Hkept 2 _ eq_refl) as (y & _ & _ & Hparent). exact Hparent.
Defined.

(** X6. A child that a splice drops from a [children] list leaves the tree
    for good: a node that some element listed in the tree as first
    reconstructed, and that the element does not list in the tree returned,
    is not reachable from the root of the tree returned. *)
Theorem dropped_children_leave_the_tree (page : Page.t) (eval_page : json) (root : loc)
    (h0 h : heap) (log : list event) (p c : loc) :
  Page.evaluate page = Ok eval_page →
  _parse_node eval_page None [] = Ok (Some root, h0) →
  _build_dom_tree page = (Ok (root, h), log) →
  c ∈ children_of h0 p → c ∉ children_of h p →
  ¬ reachable h root c.
Proof.
  intros Hpage Hparse Hrun Hold Hnew Hreach.
  destruct (_build_dom_tree_kept _ _ _ _ Hrun)
    as (raw & h0' & Hpage' & Hparse' & -> & Hwf0 & Hroot & Hwf & Hlater & Hparents).
  assert (raw = eval_page) as -> by congruence.
  assert (h0' = h0) as -> by congruence.
  destruct (heap_wf_children_of _ _ _ Hwf0 Hold) as [Hb Hparent0].
  destruct (heap_wf_linked h 0 Hwf c Hreach ltac:(lia)) as [(q & e & Hq & He & Hin) _].
  rewrite Hparents, Hparent0 in Hq by lia. injection Hq as <-.
  apply Hnew. unfold children_of. rewrite He. exact Hin.
Qed.

Lemma dropped_children_leave_the_tree_witness :
  2 ∈ children_of framed_store 1 ∧ ¬ reachable (built_store framed_page) 0 2.
Proof.
  assert (_build_dom_tree framed_page =
            (Ok (0, built_store framed_page),
             [CallFrame (JStr "f1"); Print "Iframe not found"])) as Hrun
    by (vm_compute; reflexivity).
  assert (_parse_node framed_body None [] = Ok (Some 0, framed_store)) as Hparse
    by (vm_compute; reflexivity).
  split; [ left | ].
  apply (dropped_children_leave_the_tree framed_page framed_body 0 framed_store _ _ 1 2
           eq_refl Hparse Hrun); [ left | ].
  vm_compute. intros Hin. apply list_elem_of_singleton in Hin. discriminate.
Defined.

(** ** Builds that splice nothing *)

(** The loop when every lookup finds no frame, or a frame whose script
    returns a falsy value. *)
Lemma resolve_iframes_nothing_live page root iframes :
  (∀ i name, Page.frame page i name = None ∨
             ∃ result, Page.frame page i name = Some (Ok result) ∧ truthy result = false) →
  ∀ i h log,
    Forall (λ n, is_element h n = true) iframes →
    resolve_iframes page root i iframes h log =
    (Ok h, log ++ map (λ n, CallFrame (id_of h n)) iframes).
Proof.
  intros Hdead. induction iframes as [ | iframe rest IH ]; intros i h log Hel; simpl.
  - rewrite app_nil_r. reflexivity.
  - inversion Hel as [ | ? ? Hifr Hrest ]; subst.
    assert (resolve_iframe page root i iframe h log =
            (Ok h, log ++ [CallFrame (id_of h iframe)])) as ->.
    { unfold resolve_iframe, id_of. unfold is_element in Hifr.
      destruct (h !! iframe) as [ [ t | e ] | ]; try discriminate.
      destruct (Hdead i (DOMElementNode.id e)) as [ -> | (result & -> & Hfalsy) ];
        [ reflexivity | ].
      cbn [bind]. rewrite Hfalsy. reflexivity. }
    rewrite IH by assumption. rewrite <- app_assoc. reflexivity.
Qed.

Lemma find_cross_origin_iframes_elements h root iframes :
  heap_wf h → is_element h root = true →
  find_cross_origin_iframes (length h) h root = Ok iframes →
  Forall (λ n, is_element h n = true) iframes.
Proof.
  intros Hwf Hroot Hfind.
  rewrite find_cross_origin_iframes_walk in Hfind by (assumption || lia).
  injection Hfind as <-. apply Forall_forall. intros n Hn.
  apply list_elem_of_In, filter_In in Hn as [_ Hn].
  unfold is_cross_origin in Hn. unfold is_element.
  destruct (h !! n) as [ [ t | e ] | ]; try discriminate. reflexivity.
Qed.

(** X7. When no frame is live, or the scripts of the live frames return
    falsy values, the build raises nothing and returns the tree exactly as
    first reconstructed: it asks [page.frame] once for each cross-origin
    iframe, in pre-order, prints its line and changes no node. *)
Theorem build_without_live_frames (page : Page.t) (eval_page : json) (root : loc)
    (h0 : heap) :
  Page.evaluate page = Ok eval_page →
  _parse_node eval_page None [] = Ok (Some root, h0) →
  is_element h0 root = true →
  (∀ i name, Page.frame page i name = None ∨
             ∃ result, Page.frame page i name = Some (Ok result) ∧ truthy result = false) →
  _build_dom_tree page =
  (Ok (root, h0),
   map (λ n, CallFrame (id_of h0 n)) (List.filter (is_cross_origin h0) (nodes h0 root)) ++
   [Print "Iframe not found"]).
Proof.
  intros Hpage Hparse Hroot Hdead.
  destruct (_parse_node_post _ _ _ _ _ Hparse) as (_ & Hwf0 & _).
  specialize (Hwf0 heap_wf_nil).
  assert (find_cross_origin_iframes (length h0) h0 root =
          Ok (List.filter (is_cross_origin h0) (nodes h0 root))) as Hfind
    by (apply find_cross_origin_iframes_walk; [ assumption | assumption | lia ]).
  rewrite (_build_dom_tree_loop _ _ _ _ _ Hpage Hparse Hroot Hfind).
  rewrite resolve_iframes_nothing_live; [ reflexivity | assumption | ].
  eapply find_cross_origin_iframes_elements; eassumption.
Qed.

Lemma build_without_live_frames_witness :
  ∃ h0,
    _parse_node (JObj [("tagName", JStr "body"); ("xpath", JStr "/html/body");
                       ("children", JArr [iframe_record "f1" [hello_record]])]) None [] =
      Ok (Some 0, h0) ∧
    _build_dom_tree detached_page =
      (Ok (0, h0), [CallFrame (JStr "f1"); Print "Iframe not found"]).
Proof.
  eexists.
  assert (_parse_node (JObj [("tagName", JStr "body"); ("xpath", JStr "/html/body");
                             ("children", JArr [iframe_record "f1" [hello_record]])]) None [] =
          Ok (Some 0, _)) as Hparse by (vm_compute; reflexivity).
  split; [ exact Hparse | ].
  rewrite (build_without_live_frames detached_page _ 0 _ eq_refl Hparse eq_refl).
  - reflexivity.
  - intros i name. left. destruct name; reflexivity.
Defined.

(** X8. When the tree holds no cross-origin iframe, the build never calls
    [page.frame]: it returns the tree as first reconstructed and the only
    event is the line printed. *)
Theorem build_without_placeholders (page : Page.t) (eval_page : json) (root : loc)
    (h0 : heap) :
  Page.evaluate page = Ok eval_page →
  _parse_node eval_page None [] = Ok (Some root, h0) →
  is_element h0 root = true →
  (∀ n, reachable h0 root n → is_cross_origin h0 n = false) →
  _build_dom_tree page = (Ok (root, h0), [Print "Iframe not found"]).
Proof.
  intros Hpage Hparse Hroot Hnone.
  destruct (_parse_node_post _ _ _ _ _ Hparse) as (_ & Hwf0 & _).
  specialize (Hwf0 heap_wf_nil).
  assert (List.filter (is_cross_origin h0) (nodes h0 root) = []) as Hempty.
  { assert (∀ l, (∀ n, n ∈ l → is_cross_origin h0 n = false) →
                 List.filter (is_cross_origin h0) l = []) as Hfilter.
    { induction l as [ | a l IH ]; intros Hl; simpl; [ reflexivity | ].
      rewrite (Hl a) by left. apply IH. intros n Hn. apply Hl. right. assumption. }
    apply Hfilter. intros n Hn. apply Hnone.
    apply elem_of_nodes in Hn; [ assumption | assumption | apply is_element_lt; assumption ]. }
  assert (find_cross_origin_iframes (length h0) h0 root = Ok []) as Hfind.
  { rewrite find_cross_origin_iframes_walk by (assumption || lia).
    fold (nodes h0 root). rewrite Hempty. reflexivity. }
  rewrite (_build_dom_tree_loop _ _ _ _ _ Hpage Hparse Hroot Hfind). reflexivity.
Qed.

Lemma build_without_placeholders_witness :
  ∃ h0,
    _parse_node body_record None [] = Ok (Some 0, h0) ∧
    _build_dom_tree (page_of body_record [("f1", body_record)]) =
      (Ok (0, h0), [Print "Iframe not found"]).
Proof.
  eexists.
  assert (_parse_node body_record None [] = Ok (Some 0, _)) as Hparse
    by (vm_compute; reflexivity).
  split; [ exact Hparse | ].
  apply (build_without_placeholders (page_of body_record [("f1", body_record)])
           body_record 0 _ eq_refl Hparse eq_refl).
  intros n _. destruct n as [ | [ | [ | n ] ] ]; reflexivity.
Defined.

(** ** Failures inside the loop *)

Lemma resolve_iframes_app page root l1 l2 :
  ∀ i h log,
    resolve_iframes page root i (l1 ++ l2) h log =
    match resolve_iframes page root i l1 h log with
    | (Ok h', log') => resolve_iframes page root (i + length l1) l2 h' log'
    | (Raise e, log') => (Raise e, log')
    end.
Proof.
  induction l1 as [ | a l1 IH ]; intros i h log; simpl.
  - rewrite Nat.add_0_r. reflexivity.
  - destruct (resolve_iframe page root i a h log) as [ [ h1 | e ] log1 ]; [ | reflexivity ].
    rewrite IH. replace (S i + length l1) with (i + S (length l1)) by lia. reflexivity.
Qed.

(** X9. A failure while an iframe is resolved is fatal for the whole build,
    not a skipped iframe: when the script of the frame raises, or the value
    it returns makes [_parse_node] raise (a record without a required
    field, say), [_build_dom_tree] raises that exception; the iframes after
    it are not looked up and nothing is printed. *)
Theorem iframe_failure_aborts_the_build (page : Page.t) (eval_page : json) (root : loc)
    (h0 : heap) (before : list loc) (P : loc) (rest : list loc) (hk : heap)
    (logk : list event) (outcome : result json) (e : exn) :
  Page.evaluate page = Ok eval_page →
  _parse_node eval_page None [] = Ok (Some root, h0) →
  is_element h0 root = true →
  find_cross_origin_iframes (length h0) h0 root = Ok (before ++ P :: rest) →
  resolve_iframes page root 0 before h0 [] = (Ok hk, logk) →
  Page.frame page (length before) (id_of hk P) = Some outcome →
  (outcome = Raise e ∨
   ∃ result, outcome = Ok result ∧ truthy result = true ∧
             _parse_node result None hk = Raise e) →
  _build_dom_tree page = (Raise e, logk ++ [CallFrame (id_of hk P)]).
Proof.
  intros Hpage Hparse Hroot Hfind Hbefore Hframe Hfail.
  destruct (_parse_node_post _ _ _ _ _ Hparse) as (_ & Hwf0 & _).
  specialize (Hwf0 heap_wf_nil).
  pose proof (find_cross_origin_iframes_elements _ _ _ Hwf0 Hroot Hfind) as Hel.
  pose proof (find_cross_origin_iframes_bound _ _ _ Hwf0 Hroot Hfind) as Hbound.
  apply Forall_app in Hel as [_ Hel]. apply Forall_app in Hbound as [Hbound _].
  inversion Hel as [ | ? ? HP _ ]; subst.
  destruct (resolve_iframes_Ok _ _ _ _ _ _ _ _ Hwf0 Hroot Hbound Hbefore)
    as (_ & _ & Hlater & _).
  apply (later_store_is_element _ _ _ Hlater) in HP.
  rewrite (_build_dom_tree_loop _ _ _ _ _ Hpage Hparse Hroot Hfind).
  rewrite resolve_iframes_app, Hbefore. simpl.
  assert (resolve_iframe page root (length before) P hk logk =
          (Raise e, logk ++ [CallFrame (id_of hk P)])) as ->; [ | reflexivity ].
  unfold resolve_iframe. unfold id_of in *. unfold is_element in HP.
  destruct (hk !! P) as [ [ t | el ] | ]; try discriminate.
  rewrite Hframe. destruct Hfail as [ -> | (result & -> & Htruthy & Hraise) ];
    [ reflexivity | ].
  cbn [bind]. rewrite Htruthy, Hraise. reflexivity.
Qed.

Lemma iframe_failure_aborts_the_build_witness :
  _build_dom_tree
    (page_of framed_body [("f1", JObj [("tagName", JStr "body")])]) =
  (Raise (KeyError "xpath"), [CallFrame (JStr "f1")]).
Proof.
  assert (_parse_node framed_body None [] = Ok (Some 0, framed_store)) as Hparse
    by (vm_compute; reflexivity).
  apply (iframe_failure_aborts_the_build
           (page_of framed_body [("f1", JObj [("tagName", JStr "body")])])
           framed_body 0 framed_store [] 1 [] framed_store []
           (Ok (JObj [("tagName", JStr "body")])) (KeyError "xpath")
           eq_refl Hparse eq_refl eq_refl eq_refl eq_refl).
  right. eexists. split; [ reflexivity | ]. split; reflexivity.
Defined.

(** ** The walk and the order of allocation *)

Lemma flat_map_ext_elem {A B : Type} (f g : A → list B) (l : list A) :
  (∀ x, x ∈ l → f x = g x) → flat_map f l = flat_map g l.
Proof.
  induction l as [ | a l IH ]; intros Hfg; simpl; [ reflexivity | ].
  rewrite (Hfg a) by left. f_equal. apply IH. intros x Hx. apply Hfg. right. assumption.
Qed.

(** The walk only reads the [children] of the nodes it meets. *)
Lemma preorder_agree (P : loc → Prop) (h1 h2 : heap) :
  (∀ x, P x → children_of h2 x = children_of h1 x) →
  ∀ fuel n, (∀ x, x ∈ preorder fuel h1 n → P x) →
            preorder fuel h2 n = preorder fuel h1 n.
Proof.
  intros Hsame. induction fuel as [ | fuel IH ]; intros n Hin; simpl; [ reflexivity | ].
  rewrite (Hsame n) by (apply Hin; left). f_equal.
  apply flat_map_ext_elem. intros c Hc. apply IH. intros x Hx. apply Hin.
  simpl. right. apply elem_of_flat_map. eauto.
Qed.

(** With enough fuel the walk does not depend on the fuel. *)
Lemma preorder_fuel h :
  heap_wf h → ∀ f f' n,
    n < length h → length h ≤ f + n → length h ≤ f' + n →
    preorder f h n = preorder f' h n.
Proof.
  intros Hwf. induction f as [ | f IH ]; intros f' n Hn Hf Hf'; [ lia | ].
  destruct f' as [ | f' ]; [ lia | ]. simpl. f_equal.
  apply flat_map_ext_elem. intros c Hc.
  destruct (heap_wf_children_of _ _ _ Hwf Hc) as [Hb _]. apply IH; lia.
Qed.

Lemma children_of_prefix (h h' : heap) n :
  h `prefix_of` h' → n < length h → children_of h' n = children_of h n.
Proof.
  intros Hpre Hn. unfold children_of. rewrite (prefix_lookup_lt h h') by assumption.
  reflexivity.
Qed.

(** Extending the store does not change the tree under a node of it. *)
Lemma nodes_prefix h h' root :
  heap_wf h → h `prefix_of` h' → heap_wf h' → root < length h →
  nodes h' root = nodes h root.
Proof.
  intros Hwf Hpre Hwf' Hroot. unfold nodes. apply prefix_length in Hpre as Hlen.
  rewrite <- (preorder_fuel h Hwf (length h') (length h) root) by lia.
  apply (preorder_agree (λ x, x < length h)).
  - intros x Hx. apply children_of_prefix; assumption.
  - intros x Hx. apply preorder_reachable, reachable_bound in Hx; [ lia | assumption | assumption ].
Qed.

Lemma children_of_set_children_ne n cs h m :
  n ≠ m → children_of (set_children n cs h) m = children_of h m.
Proof. intros Hne. unfold children_of. rewrite lookup_set_children_ne by assumption. reflexivity. Qed.

Lemma elem_of_seq_bounds (a len x : nat) : x ∈ seq a len ↔ a ≤ x < a + len.
Proof. rewrite list_elem_of_In. apply in_seq. Qed.

Lemma parse_children_fill parse l cs :
  Forall (λ c, ∀ parent h n h',
            parse c parent h = Ok (Some n, h') →
            h `prefix_of` h' ∧ n = length h ∧ n < length h' ∧
            ∀ fuel, length h' - length h ≤ fuel →
                    preorder fuel h' n = seq (length h) (length h' - length h)) cs →
  (∀ c parent h h', parse c parent h = Ok (None, h') → h' = h) →
  ∀ acc h acc' h',
    l < length h → subtrees_fill l acc h →
    parse_children parse l cs acc h = Ok (acc', h') →
    l < length h' ∧ subtrees_fill l acc' h'.
Proof.
  intros Hcs Hnone. induction Hcs as [ | c cs Hc _ IH ]; intros acc h acc' h' Hl Hacc Hrun.
  - simpl in Hrun. injection Hrun as <- <-. auto.
  - assert (Hstep : ∀ r h1, parse c (Some l) h = Ok (r, h1) →
        parse_children parse l cs
          (match r with Some n => acc ++ [n] | None => acc end) h1 = Ok (acc', h') →
        l < length h' ∧ subtrees_fill l acc' h').
    { intros r h1 Hparse Hrest. destruct r as [ n | ].
      - destruct (Hc _ _ _ _ Hparse) as (Hpre & -> & Hlt & Hsub).
        apply prefix_length in Hpre as Hlen.
        assert (l < length h1) as Hl1 by lia.
        apply (IH _ _ _ _ Hl1) in Hrest; [ assumption | ].
        intros fuel Hfuel. rewrite flat_map_app. simpl. rewrite app_nil_r.
        rewrite Hsub by lia.
        rewrite (flat_map_ext_elem (preorder fuel h1) (preorder fuel h)).
        + rewrite Hacc by lia.
          replace (length h1 - S l) with ((length h - S l) + (length h1 - length h)) by lia.
          rewrite seq_app. do 2 f_equal. lia.
        + intros a Ha. apply (preorder_agree (λ x, x < length h)).
          * intros x Hx. apply children_of_prefix; assumption.
          * intros x Hx.
            assert (x ∈ flat_map (preorder fuel h) acc) as Hin
              by (apply elem_of_flat_map; eauto).
            rewrite Hacc in Hin by lia. apply elem_of_seq_bounds in Hin. lia.
      - apply Hnone in Hparse. subst h1. eapply IH; eassumption. }
    simpl in Hrun. destruct c;
      try (apply bind_Ok in Hrun as [ [r h1] [Hparse Hrest] ];
           apply (Hstep r h1 Hparse); destruct r; exact Hrest).
    apply (IH _ _ _ _ Hl Hacc Hrun).
Qed.

Lemma _parse_node_fill v :
  ∀ parent h n h',
    _parse_node v parent h = Ok (Some n, h') →
    ∀ fuel, length h' - length h ≤ fuel →
            preorder fuel h' n = seq (length h) (length h' - length h).
Proof.
  induction v as [ v Hv | d IH ] using json_record_ind; intros parent h n h' Hrun fuel Hfuel.
  { rewrite parse_non_dict_eq in Hrun by assumption. unfold parse_non_dict in Hrun.
    destruct (negb (truthy v)); discriminate. }
  rewrite _parse_node_dict in Hrun.
  destruct (negb (truthy (JObj d))); [ discriminate | ].
  destruct (py_eq _ _).
  - apply bind_Ok in Hrun as [text [_ Hrun]].
    apply bind_Ok in Hrun as [vis [_ Hrun]].
    injection Hrun as <- <-. rewrite length_app in *. simpl in *.
    replace (length h + 1 - length h) with 1 in * by lia.
    destruct fuel as [ | fuel ]; [ lia | ]. simpl. unfold children_of.
    rewrite list_lookup_middle by reflexivity. reflexivity.
  - apply bind_Ok in Hrun as [tag [_ Hrun]].
    apply bind_Ok in Hrun as [vc [_ Hrun]].
    apply bind_Ok in Hrun as [pc [_ Hrun]].
    apply bind_Ok in Hrun as [vi [_ Hrun]].
    apply bind_Ok in Hrun as [xp [_ Hrun]].
    cbv zeta in Hrun.
    apply bind_Ok in Hrun as [ [cs h2] [Hkids Hrun] ].
    injection Hrun as <- <-.
    apply bind_Ok in Hkids as [items [Hit Hkids]].
    set (e := new_element d parent tag xp vc pc vi) in *.
    set (h1 := h ++ [ElementNode e]) in *.
    assert (length h1 = S (length h)) as Hl1 by (unfold h1; rewrite length_app; simpl; lia).
    assert (Forall (λ c, ∀ parent h n h',
              _parse_node c parent h = Ok (Some n, h') →
              h `prefix_of` h' ∧ n = length h ∧ n < length h' ∧
              ∀ fuel, length h' - length h ≤ fuel →
                      preorder fuel h' n = seq (length h) (length h' - length h)) items)
      as Hitems.
    { assert (Forall (λ c, ∀ parent h n h',
                _parse_node c parent h = Ok (Some n, h') →
                ∀ fuel, length h' - length h ≤ fuel →
                        preorder fuel h' n = seq (length h) (length h' - length h)) items)
        as Hfill.
      { eapply py_iter_arr_items; [ | | exact Hit ].
        - intros xs Hxs. unfold get in Hxs.
          destruct (dict_get "children" d) as [ v | ] eqn:Hget.
          + subst v. eapply IH. eassumption.
          + injection Hxs as <-. constructor.
        - intros x Hx parent' ha na hb Hparse.
          rewrite parse_non_dict_eq in Hparse by assumption. unfold parse_non_dict in Hparse.
          destruct (negb (truthy x)); discriminate. }
      eapply Forall_impl; [ exact Hfill | ]. intros c Hc parent' ha na hb Hparse.
      destruct (_parse_node_post _ _ _ _ _ Hparse) as (Hpre & _ & Hn & Hlt & _).
      split; [ assumption | ]. split; [ assumption | ]. split; [ assumption | ].
      eapply Hc. eassumption. }
    assert (subtrees_fill (length h) [] h1) as Hnil.
    { intros f _. rewrite Hl1. replace (S (length h) - S (length h)) with 0 by lia.
      reflexivity. }
    assert (length h < length h1) as Hlt1 by lia.
    destruct (parse_children_fill _parse_node (length h) items Hitems) with
      (acc := @nil loc) (h := h1) (acc' := cs) (h' := h2) as [Hl2 Hfill];
      [ | assumption | assumption | assumption | ].
    { intros c parent' ha hb Hparse.
      destruct (_parse_node_post _ _ _ _ _ Hparse) as (_ & _ & Heq). exact Heq. }
    rewrite length_set_children in *.
    destruct fuel as [ | fuel ]; [ lia | ]. simpl.
    assert (h2 !! length h = Some (ElementNode e)) as Hl.
    { destruct (parse_children_post _parse_node (length h) items) with
        (acc := @nil loc) (h := h1) (acc' := cs) (h' := h2) as (Hpre & _);
        [ | assumption | | assumption | ].
      - eapply Forall_impl; [ exact Hitems | ]. intros c _ p ha r hb Hp.
        eapply _parse_node_post. eassumption.
      - split; [ constructor | ]. intros c Hc. apply elem_of_nil in Hc. contradiction.
      - eapply prefix_lookup_Some; [ | exact Hpre ]. unfold h1.
        apply list_lookup_middle. reflexivity. }
    assert (children_of (set_children (length h) cs h2) (length h) = cs) as ->.
    { unfold children_of. rewrite (lookup_set_children_eq _ _ _ _ Hl). reflexivity. }
    rewrite (flat_map_ext_elem (preorder fuel (set_children (length h) cs h2))
                               (preorder fuel h2)).
    + rewrite Hfill by lia.
      replace (length h2 - length h) with (S (length h2 - S (length h))) by lia.
      reflexivity.
    + intros a Ha. apply (preorder_agree (λ x, length h < x)).
      * intros x Hx. apply children_of_set_children_ne. lia.
      * intros x Hx.
        assert (x ∈ flat_map (preorder fuel h2) cs) as Hin
          by (apply elem_of_flat_map; eauto).
        rewrite Hfill in Hin by lia. apply elem_of_seq_bounds in Hin. lia.
Qed.

(** X10. The tree [_parse_node] reconstructs is laid out in document order:
    the pre-order walk from the node returned meets exactly the nodes the
    call allocated, in the order of their allocation.  So every node
    allocated is in the tree, and a node comes before another in pre-order
    exactly when it was allocated first. *)
Theorem reconstructed_tree_is_in_allocation_order (node_data : json)
    (parent : option loc) (h : heap) (n : loc) (h' : heap) :
  _parse_node node_data parent h = Ok (Some n, h') →
  nodes h' n = seq (length h) (length h' - length h) ∧
  ∀ x, length h ≤ x < length h' → reachable h' n x.
Proof.
  intros Hrun.
  assert (nodes h' n = seq (length h) (length h' - length h)) as Hnodes
    by (unfold nodes; eapply _parse_node_fill; [ eassumption | lia ]).
  split; [ exact Hnodes | ]. intros x Hx.
  apply (preorder_reachable (length h')). fold (nodes h' n). rewrite Hnodes.
  apply elem_of_seq_bounds. lia.
Qed.

Lemma reconstructed_tree_is_in_allocation_order_witness :
  nodes framed_store 0 = [0; 1; 2; 3] ∧ reachable framed_store 0 2.
Proof.
  assert (_parse_node framed_body None [] = Ok (Some 0, framed_store)) as Hparse
    by (vm_compute; reflexivity).
  destruct (reconstructed_tree_is_in_allocation_order _ _ _ _ _ Hparse) as [Hnodes Hreach].
  split; [ rewrite Hnodes; reflexivity | ].
  apply Hreach. vm_compute. lia.
Defined.

Lemma find_ext_elem {A : Type} (f g : A → bool) (l : list A) :
  (∀ x, x ∈ l → f x = g x) → find f l = find g l.
Proof.
  induction l as [ | a l IH ]; intros Hfg; simpl; [ reflexivity | ].
  rewrite (Hfg a) by left. destruct (g a); [ reflexivity | ].
  apply IH. intros x Hx. apply Hfg. right. assumption.
Qed.

(** The search of a round, run in the store extended by the tree of the
    frame, is the search in the tree as it was before. *)
Lemma find_has_id_prefix h h1 root iframe_id :
  heap_wf h → h `prefix_of` h1 → heap_wf h1 → is_element h root = true →
  find (has_id h1 iframe_id) (nodes h1 root) = find (has_id h iframe_id) (nodes h root).
Proof.
  intros Hwf Hpre Hwf1 Hroot. apply is_element_lt in Hroot as Hlt.
  rewrite (nodes_prefix h h1) by assumption.
  apply find_ext_elem. intros x Hx.
  apply preorder_reachable, reachable_bound in Hx; [ | assumption | assumption ].
  unfold has_id. rewrite (prefix_lookup_lt h h1) by (assumption || lia). reflexivity.
Qed.

(** X11. A round of the loop changes at most one node of the tree: the
    first element in pre-order whose id equals the id of the iframe being
    resolved.  Every other node that was in the store is left as it was; in
    particular, when an earlier element has the same id, the iframe being
    resolved keeps its own children and the tree of its frame goes under
    the earlier element. *)
Theorem round_changes_the_first_match_only (page : Page.t) (root : loc) (i : nat)
    (iframe : loc) (h : heap) (log : list event) (h' : heap) (log' : list event)
    (n : loc) :
  heap_wf h → is_element h root = true →
  resolve_iframe page root i iframe h log = (Ok h', log') →
  n < length h →
  find (has_id h (id_of h iframe)) (nodes h root) ≠ Some n →
  h' !! n = h !! n.
Proof.
  intros Hwf Hroot Hrun Hn Hfirst.
  destruct (resolve_iframe_cases _ _ _ _ _ _ _ _ Hwf Hroot Hrun)
    as (e & He & _ & [ [_ ->] | (result & _ & [ [_ ->] | (dom & h1 & Hparse & ->) ]) ]);
    try reflexivity.
  destruct (_parse_node_post _ _ _ _ _ Hparse) as (Hpre & Hwf1 & -> & _).
  specialize (Hwf1 Hwf).
  unfold id_of in Hfirst. rewrite He in Hfirst.
  unfold splice_found. rewrite (find_has_id_prefix h h1) by assumption.
  destruct (truthy (DOMElementNode.id e)); [ | apply prefix_lookup_lt; assumption ].
  destruct (find (has_id h (DOMElementNode.id e)) (nodes h root)) as [ node | ];
    [ | apply prefix_lookup_lt; assumption ].
  destruct (is_element h1 (length h)); [ | apply prefix_lookup_lt; assumption ].
  unfold splice. rewrite lookup_set_children_ne by congruence.
  rewrite lookup_set_parent_ne by lia. apply prefix_lookup_lt; assumption.
Qed.

Lemma round_changes_the_first_match_only_witness :
  resolve_iframe twin_page 0 1 2 twin_store_1 [CallFrame (JStr "f1")] =
    (Ok twin_store_2, [CallFrame (JStr "f1"); CallFrame (JStr "f1")]) ∧
  twin_store_2 !! 2 = twin_store_1 !! 2 ∧
  children_of twin_store_2 2 = [] ∧
  children_of twin_store_1 1 = [3] ∧ children_of twin_store_2 1 = [6].
Proof.
  assert (_parse_node twin_body None [] = Ok (Some 0, twin_store_0)) as Hparse
    by (vm_compute; reflexivity).
  assert (resolve_iframe twin_page 0 0 1 twin_store_0 [] =
            (Ok twin_store_1, [CallFrame (JStr "f1")])) as Hround0
    by (vm_compute; reflexivity).
  assert (resolve_iframe twin_page 0 1 2 twin_store_1 [CallFrame (JStr "f1")] =
            (Ok twin_store_2, [CallFrame (JStr "f1"); CallFrame (JStr "f1")])) as Hround1
    by (vm_compute; reflexivity).
  destruct (_parse_node_post _ _ _ _ _ Hparse) as (_ & Hwf0 & _).
  destruct (resolve_iframe_Ok twin_page 0 0 1 twin_store_0 [] _ _
              (Hwf0 heap_wf_nil) eq_refl Hround0) as (_ & _ & Hwf1 & _).
  split; [ exact Hround1 | ]. split.
  - apply (round_changes_the_first_match_only twin_page 0 1 2 twin_store_1 _ _ _ 2
             Hwf1 eq_refl Hround1).
    + vm_compute. lia.
    + vm_compute. discriminate.
  - split; [ reflexivity | ]. split; reflexivity.
Defined.

(** ** The selector map of any tree *)

Lemma fold_index_node_unhashable h l n :
  n ∈ List.filter (indexed h) l → hashable (highlight_index_of h n) = false →
  ∀ m, fold_result (index_node h) l m = Raise TypeError.
Proof.
  intros Hin Hn. induction l as [ | a l IH ]; intros m; simpl in *.
  - apply elem_of_nil in Hin. contradiction.
  - unfold index_node at 1. destruct (indexed h a) eqn:Ha.
    + unfold setitem. destruct (hashable (highlight_index_of h a)) eqn:Hhash.
      * cbn [bind]. apply IH. apply elem_of_cons in Hin as [ -> | Hin ]; [ congruence | assumption ].
      * reflexivity.
    + cbn [bind]. apply IH. assumption.
Qed.

(** X12. On a finished tree [_create_selector_map] returns a map exactly
    when every highlight index of the tree is hashable; when some element
    has an index that is a list or a dict, the assignment to the map raises
    [TypeError]. *)
Theorem selector_map_needs_hashable_indexes (h : heap) (root : loc) :
  tree h root →
  (indexes_hashable h root → ∃ m, _create_selector_map h root = Ok m) ∧
  (∀ n, n ∈ indexed_nodes h root → hashable (highlight_index_of h n) = false →
        _create_selector_map h root = Raise TypeError).
Proof.
  intros Htree. rewrite (_create_selector_map_walk _ _ Htree). split.
  - intros Hhash. rewrite fold_index_node by assumption. eauto.
  - intros n Hin Hn. eapply fold_index_node_unhashable; eassumption.
Qed.

Lemma selector_map_needs_hashable_indexes_witness :
  ∃ h, _parse_node (JObj [("tagName", JStr "a"); ("xpath", JStr "/a");
                          ("highlightIndex", JArr [JNum 1])]) None [] = Ok (Some 0, h) ∧
       _create_selector_map h 0 = Raise TypeError.
Proof.
  eexists.
  assert (_parse_node (JObj [("tagName", JStr "a"); ("xpath", JStr "/a");
                             ("highlightIndex", JArr [JNum 1])]) None [] = Ok (Some 0, _))
    as Hparse by (vm_compute; reflexivity).
  split; [ exact Hparse | ].
  destruct (_parse_node_post _ _ _ _ _ Hparse) as (_ & Hwf & _).
  destruct (selector_map_needs_hashable_indexes _ 0 (conj (Hwf heap_wf_nil) eq_refl))
    as [_ Hraise].
  apply (Hraise 0); [ left | reflexivity ].
Defined.

Lemma elem_of_selector_set m key n k0 n0 :
  keys_hashable m → hashable key = true →
  (k0, n0) ∈ selector_set m key n →
  (k0, n0) ∈ m ∨ n0 = n ∧ key_of k0 = key_of key.
Proof.
  intros Hm Hkey. induction m as [ | [k n'] m IH ]; simpl; intros Hin.
  - apply list_elem_of_singleton in Hin. injection Hin as -> ->. auto.
  - assert (hashable k = true) as Hk by (apply (Hm k n'); left).
    assert (keys_hashable m) as Hm' by (intros k1 n1 H1; apply (Hm k1 n1); right; assumption).
    rewrite (py_eq_key_of k key) in Hin by assumption.
    destruct (bool_decide_reflect (key_of k = key_of key)) as [ Hkk | Hkk ].
    + apply elem_of_cons in Hin as [ [= -> ->] | Hin ]; [ auto | ].
      left. right. assumption.
    + apply elem_of_cons in Hin as [ [= -> ->] | Hin ]; [ left; left | ].
      destruct (IH Hm' Hin) as [ Hold | Hnew ]; [ left; right; assumption | auto ].
Qed.

(** Every binding of the map was assigned for a node of the list, under a
    key equal to the key of the node. *)
Lemma elem_of_fold_selector_set (key : loc → json) l k0 n0 :
  (∀ n, n ∈ l → hashable (key n) = true) →
  (k0, n0) ∈ fold_left (λ m n, selector_set m (key n) n) l [] →
  n0 ∈ l ∧ key_of k0 = key_of (key n0).
Proof.
  intros Hl. induction l as [ | a l IH ] using rev_ind; simpl; intros Hin.
  - apply elem_of_nil in Hin. contradiction.
  - assert (∀ n, n ∈ l → hashable (key n) = true) as Hl'
      by (intros n Hn; apply Hl, elem_of_app; left; assumption).
    rewrite fold_left_snoc in Hin.
    apply elem_of_selector_set in Hin as [ Hold | [-> Hkey] ];
      [ | | apply keys_hashable_fold; assumption | apply Hl, elem_of_app; right; left ].
    + destruct (IH Hl' Hold) as [Hn Hk]. split; [ apply elem_of_app; left | ]; assumption.
    + split; [ apply elem_of_app; right; left | assumption ].
Qed.

(** X13. In a snapshot [get_clickable_elements] returns, [element_tree] is
    the root of a finished tree and the selector map points into that tree:
    every binding holds an element reachable from the root whose highlight
    index is not [None] and equals the key, and no two bindings have equal
    keys. *)
Theorem snapshot_map_points_into_the_tree (page : Page.t) (state : DOMState.t)
    (h : heap) (log : list event) :
  get_clickable_elements page = (Ok (state, h), log) →
  _build_dom_tree page = (Ok (DOMState.element_tree state, h), log) ∧
  tree h (DOMState.element_tree state) ∧
  (∀ k n, (k, n) ∈ DOMState.selector_map state →
     reachable h (DOMState.element_tree state) n ∧
     ∃ e, h !! n = Some (ElementNode e) ∧
          is_not_None (DOMElementNode.highlight_index e) = true ∧
          py_eq k (DOMElementNode.highlight_index e) = true) ∧
  NoDup (map (λ kn, key_of kn.1) (DOMState.selector_map state)).
Proof.
  unfold get_clickable_elements. intros Hrun.
  destruct (_build_dom_tree page) as [ [ [root h1] | e ] log1 ] eqn:Hbuild; [ | discriminate ].
  injection Hrun as Hrun <-.
  apply bind_Ok in Hrun as (m & Hmap & Hstate). injection Hstate as <- <-. simpl.
  pose proof (_build_dom_tree_tree _ _ _ _ Hbuild) as Htree.
  split; [ reflexivity | ]. split; [ assumption | ].
  assert (indexes_hashable h1 root) as Hhash.
  { intros n Hn. destruct (hashable (highlight_index_of h1 n)) eqn:Hh; [ reflexivity | ].
    destruct (selector_map_needs_hashable_indexes _ _ Htree) as [_ Hraise].
    rewrite (Hraise n Hn Hh) in Hmap. discriminate. }
  rewrite (_create_selector_map_walk _ _ Htree), fold_index_node in Hmap by assumption.
  injection Hmap as <-. fold (indexed_nodes h1 root). split.
  - intros k n Hin.
    pose proof Hin as Hin'.
    apply elem_of_fold_selector_set in Hin as [Hn Hkey]; [ | assumption ].
    pose proof (Hhash n Hn) as Hhn.
    apply (elem_of_indexed_nodes _ _ _ Htree) in Hn as [Hreach (e & He & Hidx)].
    split; [ assumption | ]. exists e. split; [ assumption | ]. split; [ assumption | ].
    unfold highlight_index_of in Hkey, Hhn. rewrite He in Hkey, Hhn.
    rewrite py_eq_key_of; [ apply bool_decide_eq_true_2; assumption | | assumption ].
    exact (keys_hashable_fold (highlight_index_of h1) _ Hhash k n Hin').
  - apply (fold_selector_set_keys (highlight_index_of h1) _ Hhash).
Qed.

Lemma snapshot_map_points_into_the_tree_witness :
  ∃ state h,
    get_clickable_elements framed_page =
      (Ok (state, h), [CallFrame (JStr "f1"); Print "Iframe not found"]) ∧
    DOMState.selector_map state = [(JNum 0, 3)] ∧ reachable h 0 3.
Proof.
  eexists _, _.
  assert (get_clickable_elements framed_page = (Ok (_, _), _)) as Hrun
    by (vm_compute; reflexivity).
  split; [ exact Hrun | ]. split; [ reflexivity | ].
  destruct (snapshot_map_points_into_the_tree _ _ _ _ Hrun) as (_ & _ & Hmap & _).
  destruct (Hmap (JNum 0) 3) as [Hreach _]; [ left | exact Hreach ].
Defined.

(** ** Edge cases of a record *)

Lemma parse_children_first_raises parse l c cs e acc h :
  c ≠ JNull → parse c (Some l) h = Raise e →
  parse_children parse l (c :: cs) acc h = Raise e.
Proof. intros Hc He. destruct c; try contradiction; simpl; rewrite He; reflexivity. Qed.

(** The part of [_parse_node] before the loop over the children, for two
    records that differ in their [children] only. *)
Lemma _parse_node_children_bind d d' parent h :
  truthy (JObj d) = true → truthy (JObj d') = true →
  (∀ key, key ≠ "children" → dict_get key d = dict_get key d') →
  is_text_record d = false →
  ∀ r, _parse_node (JObj d) parent h = Ok r →
  ∃ e,
    _parse_node (JObj d') parent h =
    let* (children, h2) :=
      (let* items := py_iter (get d' "children" (JArr [])) in
       parse_children _parse_node (length h) items [] (h ++ [ElementNode e])) in
    Ok (Some (length h), set_children (length h) children h2).
Proof.
  intros Htruthy Htruthy' Hget Htext r Hrun.
  assert (∀ key, key ≠ "children" → getitem (JObj d) key = getitem (JObj d') key) as Hitem
    by (intros key Hkey; unfold getitem; rewrite (Hget key Hkey); reflexivity).
  assert (∀ key v, key ≠ "children" → get d key v = get d' key v) as Hdef
    by (intros key v Hkey; unfold get; rewrite (Hget key Hkey); reflexivity).
  assert (∀ A key (x : result A), key ≠ "children" →
            when_present d key x = when_present d' key x) as Hwhen
    by (intros A key x Hkey; unfold when_present, contains; rewrite (Hget key Hkey);
        reflexivity).
  assert (∀ key, key ≠ "children" →
            parse_coordinate_set (JObj d) key = parse_coordinate_set (JObj d') key) as Hcoord
    by (intros key Hkey; unfold parse_coordinate_set; rewrite (Hitem key Hkey); reflexivity).
  assert (parse_viewport_info (JObj d) = parse_viewport_info (JObj d')) as Hview
    by (unfold parse_viewport_info; rewrite (Hitem "viewport") by discriminate; reflexivity).
  assert (∀ p t x vc pc vi, new_element d p t x vc pc vi = new_element d' p t x vc pc vi)
    as Hnew by (intros; unfold new_element; rewrite !Hdef by discriminate; reflexivity).
  unfold is_text_record in Htext.
  rewrite _parse_node_dict, Htruthy in Hrun. rewrite _parse_node_dict, Htruthy'.
  simpl negb in *. cbv iota in *.
  rewrite <- (Hdef "type"), <- (Hitem "tagName"), <- (Hitem "xpath"),
    <- (Hwhen _ "viewportCoordinates"), <- (Hwhen _ "pageCoordinates"),
    <- (Hwhen _ "viewport"), <- (Hcoord "viewportCoordinates"),
    <- (Hcoord "pageCoordinates"), <- Hview by discriminate.
  rewrite Htext in *.
  destruct (getitem (JObj d) "tagName") as [ tag | ]; [ | discriminate ]. cbn [bind] in *.
  destruct (when_present d "viewportCoordinates" _) as [ vc | ]; [ | discriminate ].
  cbn [bind] in *.
  destruct (when_present d "pageCoordinates" _) as [ pc | ]; [ | discriminate ].
  cbn [bind] in *.
  destruct (when_present d "viewport" _) as [ vi | ]; [ | discriminate ]. cbn [bind] in *.
  destruct (getitem (JObj d) "xpath") as [ xp | ]; [ | discriminate ]. cbn [bind] in *.
  cbv zeta. exists (new_element d' parent tag xp vc pc vi). reflexivity.
Qed.

Lemma truthy_record_middle d1 k (x : json) d2 : truthy (JObj (d1 ++ (k, x) :: d2)) = true.
Proof. destruct d1; reflexivity. Qed.

(** An element record that is reconstructed with an empty [children] list
    gets, with any other value [x] as its [children], as far as the loop
    over [x]. *)
Lemma _parse_node_with_children d1 d2 parent h r :
  dict_get "children" d1 = None →
  is_text_record (d1 ++ ("children", JArr []) :: d2) = false →
  _parse_node (JObj (d1 ++ ("children", JArr []) :: d2)) parent h = Ok r →
  ∀ x, ∃ e,
    _parse_node (JObj (d1 ++ ("children", x) :: d2)) parent h =
    let* (children, h2) :=
      (let* items := py_iter x in
       parse_children _parse_node (length h) items [] (h ++ [ElementNode e])) in
    Ok (Some (length h), set_children (length h) children h2).
Proof.
  intros Hd1 Htext Hrun x.
  destruct (_parse_node_children_bind (d1 ++ ("children", JArr []) :: d2)
              (d1 ++ ("children", x) :: d2) parent h
              (truthy_record_middle _ _ _ _) (truthy_record_middle _ _ _ _))
    with (r := r) as [e He]; [ | assumption | assumption | ].
  - intros key Hkey. rewrite !dict_get_middle_ne by assumption. reflexivity.
  - exists e. rewrite He. unfold get. rewrite dict_get_middle_eq by assumption.
    reflexivity.
Qed.

(** X14. The [children] of an element record must be iterable.  Take a
    record that is reconstructed with an empty [children] list.  With
    [children] null, a boolean or a number instead, [_parse_node] raises
    [TypeError]; with a non-empty string it raises [AttributeError] (the
    characters are taken for records); with an empty string or an empty
    dict it returns what it returns for the empty list. *)
Theorem children_must_be_a_list (d1 d2 : list (string * json)) (parent : option loc)
    (h : heap) (r : option loc * heap) :
  dict_get "children" d1 = None →
  is_text_record (d1 ++ ("children", JArr []) :: d2) = false →
  _parse_node (JObj (d1 ++ ("children", JArr []) :: d2)) parent h = Ok r →
  (∀ bad, match bad with JNull | JBool _ | JNum _ => True | _ => False end →
     _parse_node (JObj (d1 ++ ("children", bad) :: d2)) parent h = Raise TypeError) ∧
  (∀ c s,
     _parse_node (JObj (d1 ++ ("children", JStr (String c s)) :: d2)) parent h =
     Raise AttributeError) ∧
  _parse_node (JObj (d1 ++ ("children", JStr "") :: d2)) parent h = Ok r ∧
  _parse_node (JObj (d1 ++ ("children", JObj []) :: d2)) parent h = Ok r.
Proof.
  intros Hd1 Htext Hrun.
  pose proof (_parse_node_with_children d1 d2 parent h r Hd1 Htext Hrun) as Hshape.
  split; [ | split; [ | split ] ].
  - intros bad Hbad. destruct (Hshape bad) as [e ->].
    destruct bad; try contradiction; reflexivity.
  - intros c s. destruct (Hshape (JStr (String c s))) as [e ->]. cbn [py_iter bind].
    simpl map. rewrite (parse_children_first_raises _ _ _ _ AttributeError);
      [ reflexivity | discriminate | reflexivity ].
  - rewrite <- Hrun. apply _parse_node_children_ext.
    + rewrite !truthy_record_middle. reflexivity.
    + intros key Hkey. rewrite !dict_get_middle_ne by assumption. reflexivity.
    + intros l h1. unfold get. rewrite !dict_get_middle_eq by assumption. reflexivity.
  - rewrite <- Hrun. apply _parse_node_children_ext.
    + rewrite !truthy_record_middle. reflexivity.
    + intros key Hkey. rewrite !dict_get_middle_ne by assumption. reflexivity.
    + intros l h1. unfold get. rewrite !dict_get_middle_eq by assumption. reflexivity.
Qed.

Lemma children_must_be_a_list_witness :
  _parse_node (JObj [("tagName", JStr "ul"); ("xpath", JStr "/ul"); ("children", JNull)])
    None [] = Raise TypeError ∧
  _parse_node (JObj [("tagName", JStr "ul"); ("xpath", JStr "/ul"); ("children", JStr "li")])
    None [] = Raise AttributeError.
Proof.
  assert (∃ r, _parse_node (JObj ([("tagName", JStr "ul"); ("xpath", JStr "/ul")] ++
                                  ("children", JArr []) :: [])) None [] = Ok r) as [r Hrun]
    by (eexists; vm_compute; reflexivity).
  destruct (children_must_be_a_list [("tagName", JStr "ul"); ("xpath", JStr "/ul")] []
              None [] r eq_refl eq_refl Hrun) as (Hnull & Hstr & _).
  split; [ exact (Hnull JNull I) | exact (Hstr _ _) ].
Defined.


(** ** The outcome of a reconstruction *)

Lemma parse_children_same_ending parse cs :
  Forall (λ c, ∀ p h p' h', same_outcome (parse c p h) (parse c p' h')) cs →
  ∀ l l' acc acc' h h',
    same_ending (parse_children parse l cs acc h) (parse_children parse l' cs acc' h').
Proof.
  induction 1 as [ | c cs Hc _ IH ]; intros l l' acc acc' h h'; simpl; [ exact I | ].
  specialize (Hc (Some l) h (Some l') h'). unfold same_outcome in Hc.
  destruct c; try apply IH;
    (destruct (parse _ (Some l) h) as [ [ [ x1 | ] h1 ] | e1 ],
              (parse _ (Some l') h') as [ [ [ x2 | ] h2 ] | e2 ];
     simpl; try contradiction; try apply IH; assumption).
Qed.

Lemma _parse_node_same_outcome v :
  ∀ parent h parent' h', same_outcome (_parse_node v parent h) (_parse_node v parent' h').
Proof.
  induction v as [ v Hv | d IH ] using json_record_ind; intros parent h parent' h'.
  { rewrite !parse_non_dict_eq by assumption. unfold parse_non_dict.
    destruct (negb (truthy v)); simpl; reflexivity. }
  rewrite !_parse_node_dict.
  destruct (negb (truthy (JObj d))); [ simpl; reflexivity | ].
  destruct (py_eq _ _).
  - destruct (getitem (JObj d) "text"); [ | reflexivity ]. cbn [bind].
    destruct (getitem (JObj d) "isVisible"); [ | reflexivity ]. cbn [bind].
    simpl. split; intros _; eexists; reflexivity.
  - destruct (getitem (JObj d) "tagName"); [ | reflexivity ]. cbn [bind].
    destruct (when_present d "viewportCoordinates" _); [ | reflexivity ]. cbn [bind].
    destruct (when_present d "pageCoordinates" _); [ | reflexivity ]. cbn [bind].
    destruct (when_present d "viewport" _); [ | reflexivity ]. cbn [bind].
    destruct (getitem (JObj d) "xpath"); [ | reflexivity ]. cbn [bind]. cbv zeta.
    destruct (py_iter (get d "children" (JArr []))) as [ items | e ] eqn:Hit;
      [ | reflexivity ].
    cbn [bind].
    assert (Forall (λ c, ∀ p h p' h', same_outcome (_parse_node c p h) (_parse_node c p' h'))
              items) as Hitems.
    { eapply py_iter_arr_items; [ | | exact Hit ].
      - intros xs Hxs. unfold get in Hxs.
        destruct (dict_get "children" d) as [ v | ] eqn:Hget.
        + subst v. eapply IH. eassumption.
        + injection Hxs as <-. constructor.
      - intros x Hx p ha p' hb. rewrite !parse_non_dict_eq by assumption.
        unfold parse_non_dict. destruct (negb (truthy x)); simpl; reflexivity. }
    match goal with
    | |- same_outcome (bind (parse_children _ _ _ _ ?s1) _)
                      (bind (parse_children _ _ _ _ ?s2) _) =>
        pose proof (parse_children_same_ending _parse_node items Hitems
                      (length h) (length h') [] [] s1 s2) as Hend
    end.
    unfold same_ending in Hend.
    repeat match type of Hend with
    | context [parse_children _ _ _ _ ?s] =>
        destruct (parse_children _ _ _ _ s) as [ [? ?] | ? ]
    end; simpl; try contradiction; try assumption.
    split; intros _; eexists; reflexivity.
Qed.

Lemma parse_children_raises_at parse l before c after e :
  Forall (λ b, ∀ p h, ∃ r, parse b p h = Ok r) before →
  (∀ p h, parse c p h = Raise e) → c ≠ JNull →
  ∀ acc h, parse_children parse l (before ++ c :: after) acc h = Raise e.
Proof.
  intros Hbefore Hc Hnull. induction Hbefore as [ | b before Hb _ IH ]; intros acc h.
  - simpl app. apply parse_children_first_raises; [ assumption | apply Hc ].
  - simpl. destruct (Hb (Some l) h) as [ [ [ x | ] h1 ] Hrun ];
      destruct b; try apply IH; rewrite Hrun; simpl; apply IH.
Qed.

(** X15. How a reconstruction ends depends on the record only, not on the
    parent given or on the nodes made before: a record that raises raises
    the same exception anywhere, a record that gives a node gives a node
    anywhere (the one allocated next), and a record that gives [None] gives
    [None] anywhere and leaves the store as it is. *)
Theorem outcome_depends_on_the_record_only (v : json) (parent parent' : option loc)
    (h h' : heap) :
  (∀ e, _parse_node v parent h = Raise e → _parse_node v parent' h' = Raise e) ∧
  (∀ n h1, _parse_node v parent h = Ok (Some n, h1) →
           ∃ h1', _parse_node v parent' h' = Ok (Some (length h'), h1')) ∧
  (∀ h1, _parse_node v parent h = Ok (None, h1) →
         _parse_node v parent' h' = Ok (None, h')).
Proof.
  pose proof (_parse_node_same_outcome v parent h parent' h') as Hsame.
  unfold same_outcome in Hsame.
  destruct (_parse_node v parent h) as [ [ [ n | ] h1 ] | e ],
           (_parse_node v parent' h') as [ [ [ n' | ] h1' ] | e' ] eqn:Hrun';
    try contradiction.
  - split; [ discriminate | ]. split; [ | discriminate ]. intros _ _ _.
    destruct (_parse_node_post _ _ _ _ _ Hrun') as (_ & _ & -> & _). eauto.
  - destruct Hsame as [Hsame _]. destruct Hsame as [x Hx]; [ eexists; reflexivity | ].
    discriminate.
  - destruct Hsame as [_ Hsame]. destruct Hsame as [x Hx]; [ eexists; reflexivity | ].
    discriminate.
  - split; [ discriminate | ]. split; [ discriminate | ]. intros _ _.
    destruct (_parse_node_post _ _ _ _ _ Hrun') as (_ & _ & ->). reflexivity.
  - subst e'. split; [ intros ? [= ->]; reflexivity | ]. split; discriminate.
Qed.

(** X16. An element record fails with the exception of its first failing
    child.  Take a record that is reconstructed with an empty [children]
    list, and give it the children [before ++ c :: after] where the entries
    of [before] are reconstructed and [c] raises [e]: [_parse_node] raises
    [e] for the record, whatever [after] holds. *)
Theorem first_failing_child_fails_the_record (d1 d2 : list (string * json))
    (before : list json) (c : json) (after : list json) (parent : option loc) (h : heap)
    (r : option loc * heap) (e : exn) :
  dict_get "children" d1 = None →
  is_text_record (d1 ++ ("children", JArr []) :: d2) = false →
  _parse_node (JObj (d1 ++ ("children", JArr []) :: d2)) parent h = Ok r →
  Forall (λ b, ∃ rb, _parse_node b None [] = Ok rb) before →
  _parse_node c None [] = Raise e →
  _parse_node (JObj (d1 ++ ("children", JArr (before ++ c :: after)) :: d2)) parent h =
  Raise e.
Proof.
  intros Hd1 Htext Hrun Hbefore Hc.
  destruct (_parse_node_with_children d1 d2 parent h r Hd1 Htext Hrun
              (JArr (before ++ c :: after))) as [el ->].
  cbn [py_iter bind]. rewrite (parse_children_raises_at _parse_node _ before c after e);
    [ reflexivity | | | ].
  - eapply Forall_impl; [ exact Hbefore | ]. intros b [rb Hb] p hb.
    pose proof (_parse_node_same_outcome b None [] p hb) as Hsame.
    rewrite Hb in Hsame. unfold same_outcome in Hsame.
    destruct (_parse_node b p hb) as [ rb' | ]; [ eauto | ].
    destruct rb. contradiction.
  - intros p hb. pose proof (_parse_node_same_outcome c None [] p hb) as Hsame.
    rewrite Hc in Hsame. unfold same_outcome in Hsame.
    destruct (_parse_node c p hb) as [ [? ?] | ]; [ contradiction | congruence ].
  - intros ->. discriminate.
Qed.

Lemma first_failing_child_fails_the_record_witness :
  _parse_node
    (JObj [("tagName", JStr "ul"); ("xpath", JStr "/ul");
           ("children",
            JArr [JObj [("type", JStr "TEXT_NODE"); ("text", JStr "a"); ("isVisible", JBool true)];
                  JObj [("tagName", JStr "li")];
                  JNum 7])])
    None [] = Raise (KeyError "xpath").
Proof.
  assert (∃ r, _parse_node (JObj ([("tagName", JStr "ul"); ("xpath", JStr "/ul")] ++
                                  ("children", JArr []) :: [])) None [] = Ok r) as [r Hrun]
    by (eexists; vm_compute; reflexivity).
  apply (first_failing_child_fails_the_record
           [("tagName", JStr "ul"); ("xpath", JStr "/ul")] []
           [JObj [("type", JStr "TEXT_NODE"); ("text", JStr "a"); ("isVisible", JBool true)]]
           (JObj [("tagName", JStr "li")]) [JNum 7] None [] r (KeyError "xpath")
           eq_refl eq_refl Hrun).
  - apply List.Forall_cons; [ eexists; vm_compute; reflexivity | apply List.Forall_nil ].
  - vm_compute. reflexivity.
Defined.

(** ** The fields of a node *)

Lemma getitem_Ok d key x : getitem (JObj d) key = Ok x → dict_get key d = Some x.
Proof. simpl. destruct (dict_get key d); [ intros [= ->]; reflexivity | discriminate ]. Qed.

Lemma when_present_None {A : Type} d key (decode : result A) x :
  when_present d key decode = Ok x → (x = None ↔ contains d key = false).
Proof.
  unfold when_present. destruct (contains d key).
  - destruct decode; simpl; [ intros [= <-] | discriminate ]. split; discriminate.
  - intros [= <-]. split; reflexivity.
Qed.

(** X17. The node returned for a record carries the fields of the record.
    A text node has the record's [text] and [isVisible].  An element has
    the record's [tagName] and [xpath], for every optional field the
    record's value or the default of the code ([{}] for [attributes], [None]
    for [highlightIndex] and [id], [False] for the flags), and coordinates
    and viewport that are [None] exactly when their key is missing.  Both
    keep the [parent] they were given, also after the children were
    reconstructed. *)
Theorem node_carries_the_fields_of_its_record (d : list (string * json))
    (parent : option loc) (h : heap) (n : loc) (h' : heap) :
  _parse_node (JObj d) parent h = Ok (Some n, h') →
  match h' !! n with
  | Some (TextNode t) =>
      is_text_record d = true ∧
      dict_get "text" d = Some (DOMTextNode.text t) ∧
      dict_get "isVisible" d = Some (DOMTextNode.is_visible t) ∧
      DOMTextNode.parent t = parent
  | Some (ElementNode e) =>
      is_text_record d = false ∧
      dict_get "tagName" d = Some (DOMElementNode.tag_name e) ∧
      dict_get "xpath" d = Some (DOMElementNode.xpath e) ∧
      DOMElementNode.attributes e = get d "attributes" (JObj []) ∧
      DOMElementNode.is_visible e = get d "isVisible" (JBool false) ∧
      DOMElementNode.is_interactive e = get d "isInteractive" (JBool false) ∧
      DOMElementNode.is_top_element e = get d "isTopElement" (JBool false) ∧
      DOMElementNode.highlight_index e = get d "highlightIndex" JNull ∧
      DOMElementNode.shadow_root e = get d "shadowRoot" (JBool false) ∧
      DOMElementNode.is_cross_oirigin_iframe e = get d "crossOriginIframe" (JBool false) ∧
      DOMElementNode.id e = get d "id" JNull ∧
      DOMElementNode.parent e = parent ∧
      (DOMElementNode.viewport_coordinates e = None ↔
       contains d "viewportCoordinates" = false) ∧
      (DOMElementNode.page_coordinates e = None ↔ contains d "pageCoordinates" = false) ∧
      (DOMElementNode.viewport_info e = None ↔ contains d "viewport" = false)
  | None => False
  end.
Proof.
  intros Hrun. rewrite _parse_node_dict in Hrun.
  destruct (negb (truthy (JObj d))); [ discriminate | ].
  fold (is_text_record d) in Hrun. destruct (is_text_record d).
  - apply bind_Ok in Hrun as [text [Htext Hrun]].
    apply bind_Ok in Hrun as [vis [Hvis Hrun]].
    injection Hrun as <- <-. rewrite list_lookup_middle by reflexivity. simpl.
    apply getitem_Ok in Htext, Hvis. auto.
  - apply bind_Ok in Hrun as [tag [Htag Hrun]].
    apply bind_Ok in Hrun as [vc [Hvc Hrun]].
    apply bind_Ok in Hrun as [pc [Hpc Hrun]].
    apply bind_Ok in Hrun as [vi [Hvi Hrun]].
    apply bind_Ok in Hrun as [xp [Hxp Hrun]].
    cbv zeta in Hrun.
    apply bind_Ok in Hrun as [ [cs h2] [Hkids Hrun] ].
    injection Hrun as <- <-.
    apply bind_Ok in Hkids as [items [_ Hkids]].
    set (e := new_element d parent tag xp vc pc vi) in *.
    assert (h2 !! length h = Some (ElementNode e)) as Hl.
    { destruct (parse_children_post _parse_node (length h) items) with
        (acc := @nil loc) (h := h ++ [ElementNode e]) (acc' := cs) (h' := h2) as (Hpre & _);
        [ | | | assumption | ].
      - apply Forall_forall. intros c _ p ha r hb Hp. eapply _parse_node_post. eassumption.
      - rewrite length_app. simpl. lia.
      - split; [ constructor | ]. intros c Hc. apply elem_of_nil in Hc. contradiction.
      - eapply prefix_lookup_Some; [ | exact Hpre ].
        apply list_lookup_middle. reflexivity. }
    rewrite (lookup_set_children_eq _ _ _ _ Hl). simpl.
    apply getitem_Ok in Htag, Hxp.
    apply when_present_None in Hvc, Hpc, Hvi.
    repeat (split; [ first [ reflexivity | assumption ] | ]). assumption.
Qed.

Lemma node_carries_the_fields_of_its_record_witness :
  match store_of
          (_parse_node
             (JObj [("tagName", JStr "a"); ("xpath", JStr "/a"); ("highlightIndex", JNum 3);
                    ("children",
                     JArr [JObj [("tagName", JStr "b"); ("xpath", JStr "/a/b")]])])
             None []) !! 0 with
  | Some (ElementNode e) =>
      DOMElementNode.highlight_index e = JNum 3 ∧
      DOMElementNode.is_visible e = JBool false ∧
      DOMElementNode.parent e = None
  | _ => False
  end.
Proof.
  pose proof (node_carries_the_fields_of_its_record
                [("tagName", JStr "a"); ("xpath", JStr "/a"); ("highlightIndex", JNum 3);
                 ("children", JArr [JObj [("tagName", JStr "b"); ("xpath", JStr "/a/b")]])]
                None [] 0 _ eq_refl) as Hfields.
  vm_compute in Hfields. vm_compute.
  destruct Hfields as (_ & _ & _ & _ & Hvis & _ & _ & Hidx & _ & _ & _ & Hpar & _).
  auto.
Defined.

(** * The loop, round by round *)

(** A round changes a node that was in the store only when a frame was
    found and the node is the first one of the tree, in pre-order, with the
    id looked up. *)
Lemma resolve_iframe_change page root i iframe h log h' log' n :
  heap_wf h → is_element h root = true →
  resolve_iframe page root i iframe h log = (Ok h', log') →
  n < length h →
  h' !! n = h !! n ∨
  (Page.frame page i (id_of h iframe) ≠ None ∧
   find (has_id h (id_of h iframe)) (nodes h root) = Some n).
Proof.
  intros Hwf Hroot Hrun Hn.
  destruct (resolve_iframe_cases _ _ _ _ _ _ _ _ Hwf Hroot Hrun)
    as (e & He & _ & [ [_ ->] | (result & Hframe & [ [_ ->] | (dom & h1 & Hparse & ->) ]) ]);
    [ left; reflexivity | left; reflexivity | ].
  destruct (_parse_node_post _ _ _ _ _ Hparse) as (Hpre & Hwf1 & -> & _).
  specialize (Hwf1 Hwf).
  unfold id_of. rewrite He.
  unfold splice_found. rewrite (find_has_id_prefix h h1) by assumption.
  destruct (truthy (DOMElementNode.id e)); [ | left; apply prefix_lookup_lt; assumption ].
  destruct (find (has_id h (DOMElementNode.id e)) (nodes h root)) as [ node | ];
    [ | left; apply prefix_lookup_lt; assumption ].
  destruct (is_element h1 (length h)); [ | left; apply prefix_lookup_lt; assumption ].
  destruct (decide (node = n)) as [ -> | Hne ].
  - right. split; [ rewrite Hframe; discriminate | reflexivity ].
  - left. unfold splice. rewrite lookup_set_children_ne by assumption.
    rewrite lookup_set_parent_ne by lia. apply prefix_lookup_lt; assumption.
Qed.

(** The same for the whole loop: a node is as it was unless some round [j]
    found a frame and found the node first in its search, in the store [hj]
    the rounds before it left. *)
Lemma resolve_iframes_change page root iframes :
  ∀ i h log h' log',
    heap_wf h → is_element h root = true →
    resolve_iframes page root i iframes h log = (Ok h', log') →
    ∀ n, n < length h →
      h' !! n = h !! n ∨
      ∃ j Q hj logj,
        iframes !! j = Some Q ∧
        resolve_iframes page root i (take j iframes) h log = (Ok hj, logj) ∧
        Page.frame page (i + j) (id_of hj Q) ≠ None ∧
        find (has_id hj (id_of hj Q)) (nodes hj root) = Some n.
Proof.
  induction iframes as [ | iframe rest IH ]; intros i h log h' log' Hwf Hroot Hrun n Hn.
  - simpl in Hrun. injection Hrun as <- <-. left. reflexivity.
  - simpl in Hrun.
    destruct (resolve_iframe page root i iframe h log) as [ [ h1 | e ] log1 ] eqn:Hstep;
      [ | discriminate ].
    destruct (resolve_iframe_Ok _ _ _ _ _ _ _ _ Hwf Hroot Hstep)
      as (_ & _ & Hwf1 & Hlater1 & _).
    apply later_store_length in Hlater1 as Hlen.
    assert (is_element h1 root = true) as Hroot1
      by (eapply later_store_is_element; eassumption).
    destruct (resolve_iframe_change _ _ _ _ _ _ _ _ n Hwf Hroot Hstep Hn)
      as [ Hsame | [Hframe Hfind] ].
    + destruct (IH _ _ _ _ _ Hwf1 Hroot1 Hrun n ltac:(lia))
        as [ Hsame' | (j & Q & hj & logj & HQ & Hj & Hframe & Hfind) ].
      * left. congruence.
      * right. exists (S j), Q, hj, logj. split; [ exact HQ | ].
        split; [ simpl; rewrite Hstep; exact Hj | ].
        replace (i + S j) with (S i + j) by lia. auto.
    + right. exists 0, iframe, h, log. split; [ reflexivity | ].
      split; [ reflexivity | ]. rewrite Nat.add_0_r. auto.
Qed.

(** The rounds before round [j] of a loop that ends without an exception
    end without one, and leave a later state of the store. *)
Lemma resolve_iframes_take page root iframes j :
  ∀ i h log h' log',
    heap_wf h → is_element h root = true →
    resolve_iframes page root i iframes h log = (Ok h', log') →
    ∃ hj logj,
      resolve_iframes page root i (take j iframes) h log = (Ok hj, logj) ∧
      resolve_iframes page root (i + length (take j iframes)) (drop j iframes) hj logj =
        (Ok h', log') ∧
      heap_wf hj ∧ later_store h hj ∧ later_store hj h' ∧ is_element hj root = true.
Proof.
  intros i h log h' log' Hwf Hroot Hrun.
  rewrite <- (take_drop j iframes), resolve_iframes_app in Hrun.
  destruct (resolve_iframes page root i (take j iframes) h log) as [ [ hj | e ] logj ] eqn:Hj;
    [ | discriminate ].
  assert (∀ l i h log h' log',
            heap_wf h → is_element h root = true →
            resolve_iframes page root i l h log = (Ok h', log') →
            heap_wf h' ∧ later_store h h') as Hloop.
  { clear. induction l as [ | a l IH ]; intros i h log h' log' Hwf Hroot Hrun.
    - simpl in Hrun. injection Hrun as <- <-. split; [ assumption | apply later_store_refl ].
    - simpl in Hrun.
      destruct (resolve_iframe page root i a h log) as [ [ h1 | e ] log1 ] eqn:Hstep;
        [ | discriminate ].
      destruct (resolve_iframe_Ok _ _ _ _ _ _ _ _ Hwf Hroot Hstep)
        as (_ & _ & Hwf1 & Hlater1 & _).
      assert (is_element h1 root = true) as Hroot1
        by (eapply later_store_is_element; eassumption).
      destruct (IH _ _ _ _ _ Hwf1 Hroot1 Hrun) as [Hwf' Hlater'].
      split; [ assumption | eapply later_store_trans; eassumption ]. }
  destruct (Hloop _ _ _ _ _ _ Hwf Hroot Hj) as [Hwfj Hlaterj].
  assert (is_element hj root = true) as Hrootj
    by (eapply later_store_is_element; eassumption).
  destruct (Hloop _ _ _ _ _ _ Hwfj Hrootj Hrun) as [_ Hlater'].
  exists hj, logj. auto 10.
Qed.

(** ** A placeholder whose frame is not found *)

(** C5, as the code has it.  Let [P] be a cross-origin iframe of the
    reconstructed tree for which [page.frame] finds no frame when the loop
    comes to it (round [i]).  That round raises nothing and leaves the store
    as it is.  In the tree the build returns [P] still has its flag, and it
    is the object it was, with its original children, unless another round
    [j] of the loop, for an iframe [Q] with an equal id whose frame was
    found, had [P] as the first node with that id in its search from the
    root.  So [P] keeps its children when no other iframe of the list with
    an equal id finds a frame. *)
Theorem skipped_placeholder_is_kept_unless_found (page : Page.t) (eval_page : json)
    (root : loc) (h0 : heap) (iframes : list loc) (i : nat) (P : loc) :
  Page.evaluate page = Ok eval_page →
  _parse_node eval_page None [] = Ok (Some root, h0) →
  find_cross_origin_iframes (length h0) h0 root = Ok iframes →
  iframes !! i = Some P →
  Page.frame page i (id_of h0 P) = None →
  (∀ h1 log1,
     h1 !! P = h0 !! P →
     resolve_iframe page root i P h1 log1 = (Ok h1, log1 ++ [CallFrame (id_of h0 P)])) ∧
  ∀ h log,
    _build_dom_tree page = (Ok (root, h), log) →
    is_cross_origin h P = true ∧
    (h !! P = h0 !! P ∧ children_of h P = children_of h0 P ∨
     ∃ j Q hj logj,
       j ≠ i ∧ iframes !! j = Some Q ∧
       resolve_iframes page root 0 (take j iframes) h0 [] = (Ok hj, logj) ∧
       Page.frame page j (id_of h0 Q) ≠ None ∧
       has_id h0 (id_of h0 Q) P = true ∧
       find (has_id hj (id_of h0 Q)) (nodes hj root) = Some P) ∧
    ((∀ j Q, j ≠ i → iframes !! j = Some Q → has_id h0 (id_of h0 Q) P = true →
             Page.frame page j (id_of h0 Q) = None) →
     h !! P = h0 !! P ∧ children_of h P = children_of h0 P).
Proof.
  intros Hpage Hparse Hfind HP Hnone.
  destruct (_parse_node_post _ _ _ _ _ Hparse) as (_ & Hwf0 & _).
  specialize (Hwf0 heap_wf_nil).
  assert (is_cross_origin h0 P = true ∧ P < length h0) as [Hflag HPlt].
  { assert (P ∈ iframes) as Hin by (eapply list_elem_of_lookup_2; eassumption).
    destruct (is_element h0 root) eqn:Hroot.
    - rewrite find_cross_origin_iframes_walk in Hfind by (assumption || lia).
      injection Hfind as <-.
      apply list_elem_of_In, filter_In in Hin as [Hin Hflag].
      split; [ assumption | ].
      unfold is_cross_origin in Hflag.
      destruct (h0 !! P) eqn:Hl; [ | discriminate ]. eapply lookup_lt_Some. eassumption.
    - (* the root is a text node: the walk meets no element *)
      assert (iframes = []) as ->; [ | apply elem_of_nil in Hin; contradiction ].
      destruct (_parse_node_post _ _ _ _ _ Hparse) as (_ & _ & -> & Hlt & _).
      destruct h0 as [ | x h0 ]; [ simpl in Hlt; lia | ].
      unfold is_element in Hroot. simpl in Hroot, Hfind.
      destruct x as [ t | e ]; [ | discriminate ].
      simpl in Hfind. congruence. }
  assert (∃ e, h0 !! P = Some (ElementNode e)) as [e He].
  { unfold is_cross_origin in Hflag. destruct (h0 !! P) as [ [ t | e ] | ]; try discriminate.
    eauto. }
  assert (id_of h0 P = DOMElementNode.id e) as Hid by (unfold id_of; rewrite He; reflexivity).
  split.
  { intros h1 log1 Hsame. unfold resolve_iframe. rewrite Hsame, He, <- Hid, Hnone.
    reflexivity. }
  intros h log Hrun.
  apply _build_dom_tree_Ok in Hrun
    as (raw & h0' & iframes' & log0 & Hpage' & Hparse' & Hroot & Hfind' & Hloop & ->).
  assert (raw = eval_page) as -> by congruence.
  assert (h0' = h0) as -> by congruence.
  assert (iframes' = iframes) as -> by congruence.
  pose proof (find_cross_origin_iframes_bound _ _ _ Hwf0 Hroot Hfind) as Hbound.
  destruct (resolve_iframes_Ok _ _ _ _ _ _ _ _ Hwf0 Hroot Hbound Hloop)
    as (_ & _ & Hlater & _).
  assert (h !! P = h0 !! P → children_of h P = children_of h0 P) as Hkids
    by (intros Hsame; unfold children_of; rewrite Hsame; reflexivity).
  assert (h !! P = h0 !! P ∧ children_of h P = children_of h0 P ∨
          ∃ j Q hj logj,
            j ≠ i ∧ iframes !! j = Some Q ∧
            resolve_iframes page root 0 (take j iframes) h0 [] = (Ok hj, logj) ∧
            Page.frame page j (id_of h0 Q) ≠ None ∧
            has_id h0 (id_of h0 Q) P = true ∧
            find (has_id hj (id_of h0 Q)) (nodes hj root) = Some P) as Hcases.
  { destruct (resolve_iframes_change _ _ _ _ _ _ _ _ Hwf0 Hroot Hloop P HPlt)
      as [ Hsame | (j & Q & hj & logj & HQ & Hj & Hframe & Hfirst) ]; [ left; auto | ].
    right. exists j, Q, hj, logj.
    destruct (resolve_iframes_take page root iframes j _ _ _ _ _ Hwf0 Hroot Hloop)
      as (hj' & logj' & Hj' & _ & _ & Hlaterj & _).
    assert (hj' = hj) as -> by congruence.
    assert (Q < length h0) as HQlt
      by (rewrite Forall_forall in Hbound; apply Hbound;
          eapply list_elem_of_lookup_2; eassumption).
    rewrite (later_store_id_of h0 hj Q) in Hframe, Hfirst by assumption.
    simpl in Hframe.
    assert (has_id h0 (id_of h0 Q) P = true) as Heq.
    { rewrite <- (later_store_has_id h0 hj) by assumption.
      apply find_some in Hfirst as [_ Hfirst]. exact Hfirst. }
    split; [ | auto 10 ].
    intros ->. assert (Q = P) as -> by congruence. contradiction. }
  split; [ rewrite (later_store_is_cross_origin h0 h) by assumption; exact Hflag | ].
  split; [ exact Hcases | ].
  intros Hothers.
  destruct Hcases as [ Hsame | (j & Q & hj & logj & Hji & HQ & _ & Hframe & Heq & _) ];
    [ exact Hsame | ].
  exfalso. apply Hframe. apply Hothers; assumption.
Qed.

Lemma skipped_placeholder_is_kept_unless_found_witness :
  _build_dom_tree detached_page =
    (Ok (0, built_store detached_page), [CallFrame (JStr "f1"); Print "Iframe not found"]) ∧
  children_of (built_store detached_page) 1 = [2] ∧
  is_cross_origin (built_store detached_page) 1 = true.
Proof.
  assert (_build_dom_tree detached_page =
            (Ok (0, built_store detached_page),
             [CallFrame (JStr "f1"); Print "Iframe not found"])) as Hrun
    by (vm_compute; reflexivity).
  split; [ exact Hrun | ].
  destruct (skipped_placeholder_is_kept_unless_found detached_page _ 0 _ [1] 0 1
              eq_refl eq_refl eq_refl eq_refl eq_refl) as [_ Hkept].
  destruct (Hkept _ _ Hrun) as (Hflag & _ & Halone).
  destruct Halone as [_ Hchildren].
  { intros j Q Hj HQ _. destruct j as [ | j ]; [ contradiction | discriminate ]. }
  split; [ rewrite Hchildren; reflexivity | exact Hflag ].
Defined.

(** C5 as stated fails on [late_frame_page].  The iframes discovered are
    the nodes 1 ([f1], with the text 2 under it), 3 ([f2]) and 4 ([f1]).
    In round 0 no frame is found for node 1, which is skipped.  In round 2
    the frame of node 4 is found, and the search from the root for its id
    returns node 1, the first node with that id: node 1 gets the tree of the
    frame as its only child and loses the text. *)
Lemma skipped_twin_placeholder_is_rewritten :
  _parse_node late_frame_body None [] = Ok (Some 0, late_frame_store_0) ∧
  find_cross_origin_iframes (length late_frame_store_0) late_frame_store_0 0 = Ok [1; 3; 4] ∧
  id_of late_frame_store_0 1 = JStr "f1" ∧
  Page.frame late_frame_page 0 (JStr "f1") = None ∧
  Page.frame late_frame_page 2 (JStr "f1") = Some (Ok body_record) ∧
  children_of late_frame_store_0 1 = [2] ∧
  _build_dom_tree late_frame_page =
    (Ok (0, built_store late_frame_page),
     [CallFrame (JStr "f1"); CallFrame (JStr "f2"); CallFrame (JStr "f1");
      Print "Iframe not found"]) ∧
  children_of (built_store late_frame_page) 1 = [8] ∧
  children_of (built_store late_frame_page) 4 = [] ∧
  ¬ skipped_placeholders_are_kept.
Proof.
  assert (_build_dom_tree late_frame_page =
            (Ok (0, built_store late_frame_page),
             [CallFrame (JStr "f1"); CallFrame (JStr "f2"); CallFrame (JStr "f1");
              Print "Iframe not found"])) as Hrun by (vm_compute; reflexivity).
  repeat (split; [ first [ assumption | vm_compute; reflexivity ] | ]).
  intros Hclaim.
  destruct (Hclaim late_frame_page late_frame_body 0 late_frame_store_0 [1; 3; 4] 0 1 _ _
              eq_refl eq_refl eq_refl eq_refl eq_refl Hrun) as [Hchildren _].
  vm_compute in Hchildren. discriminate.
Qed.

(** ** Iframes that come with a spliced tree *)

(** C8, as the code has it.  The cross-origin iframes are discovered once,
    in the tree as first reconstructed (store [h0]), before any splice: a
    build that returns has called [page.frame] exactly once for each
    cross-origin iframe of that tree, in pre-order, and for nothing else.
    A node [n] that came with a spliced tree was allocated later and is not
    in the list, so it is never looked up.  It can still be given the tree
    of a frame: from the round [k] it came in, it stays as it is unless a
    round [j] from [k] on, for an iframe [Q] of the list with an equal id
    whose frame was found, had [n] as the first node with that id in its
    search from the root.  So it is left as it came when no iframe still to
    be resolved has an equal id and a frame. *)
Theorem iframes_are_discovered_once (page : Page.t) (eval_page : json) (root : loc)
    (h0 h : heap) (log : list event) :
  Page.evaluate page = Ok eval_page →
  _parse_node eval_page None [] = Ok (Some root, h0) →
  _build_dom_tree page = (Ok (root, h), log) →
  ∃ iframes,
    find_cross_origin_iframes (length h0) h0 root = Ok iframes ∧
    iframes = List.filter (is_cross_origin h0) (nodes h0 root) ∧
    (∃ log0, resolve_iframes page root 0 iframes h0 [] = (Ok h, log0)) ∧
    log = map (λ n, CallFrame (id_of h0 n)) iframes ++ [Print "Iframe not found"] ∧
    (∀ n, length h0 ≤ n → n ∉ iframes) ∧
    ∀ k hk logk n,
      resolve_iframes page root 0 (take k iframes) h0 [] = (Ok hk, logk) →
      n < length hk →
      (h !! n = hk !! n ∨
       ∃ j Q hj logj,
         k ≤ j ∧ iframes !! j = Some Q ∧
         resolve_iframes page root 0 (take j iframes) h0 [] = (Ok hj, logj) ∧
         Page.frame page j (id_of h0 Q) ≠ None ∧
         has_id hk (id_of h0 Q) n = true ∧
         find (has_id hj (id_of h0 Q)) (nodes hj root) = Some n) ∧
      ((∀ j Q, k ≤ j → iframes !! j = Some Q → has_id hk (id_of h0 Q) n = true →
               Page.frame page j (id_of h0 Q) = None) →
       h !! n = hk !! n).
Proof.
  intros Hpage Hparse Hrun.
  apply _build_dom_tree_Ok in Hrun
    as (raw & h0' & iframes & log0 & Hpage' & Hparse' & Hroot & Hfind & Hloop & ->).
  assert (raw = eval_page) as -> by congruence.
  assert (h0' = h0) as -> by congruence.
  destruct (_parse_node_post _ _ _ _ _ Hparse) as (_ & Hwf0 & _).
  specialize (Hwf0 heap_wf_nil).
  pose proof (find_cross_origin_iframes_bound _ _ _ Hwf0 Hroot Hfind) as Hbound.
  destruct (resolve_iframes_Ok _ _ _ _ _ _ _ _ Hwf0 Hroot Hbound Hloop) as (Hlog & _).
  exists iframes.
  split; [ assumption | ].
  split.
  { rewrite find_cross_origin_iframes_walk in Hfind by (assumption || lia).
    injection Hfind as <-. reflexivity. }
  split; [ eexists; eassumption | ].
  split; [ rewrite Hlog; reflexivity | ].
  split.
  { intros n Hn Hin. rewrite Forall_forall in Hbound. specialize (Hbound _ Hin). lia. }
  intros k hk logk n Hk Hn.
  destruct (resolve_iframes_take page root iframes k _ _ _ _ _ Hwf0 Hroot Hloop)
    as (hk' & logk' & Hk' & Hrest & Hwfk & Hlaterk & _ & Hrootk).
  assert (hk' = hk) as -> by congruence.
  assert (logk' = logk) as -> by congruence.
  assert (h !! n = hk !! n ∨
          ∃ j Q hj logj,
            k ≤ j ∧ iframes !! j = Some Q ∧
            resolve_iframes page root 0 (take j iframes) h0 [] = (Ok hj, logj) ∧
            Page.frame page j (id_of h0 Q) ≠ None ∧
            has_id hk (id_of h0 Q) n = true ∧
            find (has_id hj (id_of h0 Q)) (nodes hj root) = Some n) as Hcases.
  { destruct (resolve_iframes_change _ _ _ _ _ _ _ _ Hwfk Hrootk Hrest n Hn)
      as [ Hsame | (j & Q & hj & logj & HQ & Hj & Hframe & Hfirst) ]; [ left; exact Hsame | ].
    right. rewrite lookup_drop in HQ.
    assert (k + j < length iframes) as Hlt by (eapply lookup_lt_Some; eassumption).
    rewrite length_take_le in Hj, Hframe by lia. simpl in Hj, Hframe.
    destruct (resolve_iframes_take page root (drop k iframes) j _ _ _ _ _ Hwfk Hrootk Hrest)
      as (hj' & logj' & Hj' & _ & _ & Hlaterj & _).
    rewrite length_take_le in Hj' by lia. simpl in Hj'.
    assert (hj' = hj) as -> by congruence.
    assert (Q < length h0) as HQlt
      by (rewrite Forall_forall in Hbound; apply Hbound;
          eapply list_elem_of_lookup_2; eassumption).
    assert (later_store h0 hj) as Hlater0j by (eapply later_store_trans; eassumption).
    rewrite (later_store_id_of h0 hj Q) in Hframe, Hfirst by assumption.
    exists (k + j), Q, hj, logj.
    split; [ lia | ]. split; [ assumption | ].
    split.
    { rewrite <- take_take_drop, resolve_iframes_app, Hk.
      rewrite length_take_le by lia. exact Hj. }
    split; [ assumption | ]. split; [ | assumption ].
    rewrite <- (later_store_has_id hk hj) by assumption.
    apply find_some in Hfirst as [_ Hfirst]. exact Hfirst. }
  split; [ exact Hcases | ].
  intros Hothers.
  destruct Hcases as [ Hsame | (j & Q & hj & logj & Hkj & HQ & _ & Hframe & Heq & _) ];
    [ exact Hsame | ].
  exfalso. apply Hframe. apply Hothers; assumption.
Qed.

Lemma iframes_are_discovered_once_witness :
  _build_dom_tree nested_twin_page =
    (Ok (0, built_store nested_twin_page),
     [CallFrame (JStr "f1"); CallFrame (JStr "f2"); Print "Iframe not found"]) ∧
  length nested_twin_store_0 = 3 ∧
  built_store nested_twin_page !! 3 = nested_twin_store_1 !! 3 ∧
  children_of (built_store nested_twin_page) 3 = [4].
Proof.
  assert (_build_dom_tree nested_twin_page =
            (Ok (0, built_store nested_twin_page),
             [CallFrame (JStr "f1"); CallFrame (JStr "f2"); Print "Iframe not found"]))
    as Hrun by (vm_compute; reflexivity).
  split; [ exact Hrun | ]. split; [ reflexivity | ].
  destruct (iframes_are_discovered_once nested_twin_page _ 0 _ _ _ eq_refl eq_refl Hrun)
    as (iframes & _ & Hiframes & _ & _ & _ & Hnested).
  assert (iframes = [1; 2]) as -> by (rewrite Hiframes; vm_compute; reflexivity).
  destruct (Hnested 1 nested_twin_store_1 [CallFrame (JStr "f1")] 3) as [_ Hsame];
    [ vm_compute; reflexivity | vm_compute; lia | ].
  assert (built_store nested_twin_page !! 3 = nested_twin_store_1 !! 3) as Hkept.
  { apply Hsame. intros j Q Hj HQ Hid.
    destruct j as [ | [ | j ] ]; [ lia | | discriminate ].
    injection HQ as <-. vm_compute in Hid. discriminate. }
  split; [ exact Hkept | ]. unfold children_of. rewrite Hkept. reflexivity.
Defined.

(** C8 as stated fails on [nested_twin_page].  The iframes discovered are
    the nodes 1 ([f1]) and 2 ([f2]).  Round 0 splices the tree of frame
    [f1] under node 1; its placeholder of [f2] is node 4, with no children.
    In round 1 the frame of node 2 is found, and the search from the root
    for its id returns node 4, which comes before node 2 in pre-order: the
    nested iframe 4 gets the tree of frame [f2], and node 2 stays empty. *)
Lemma spliced_iframe_takes_the_frame_tree :
  _parse_node nested_twin_body None [] = Ok (Some 0, nested_twin_store_0) ∧
  find_cross_origin_iframes (length nested_twin_store_0) nested_twin_store_0 0 = Ok [1; 2] ∧
  resolve_iframes nested_twin_page 0 0 [1] nested_twin_store_0 [] =
    (Ok nested_twin_store_1, [CallFrame (JStr "f1")]) ∧
  length nested_twin_store_0 = 3 ∧
  is_cross_origin nested_twin_store_1 4 = true ∧
  id_of nested_twin_store_1 4 = JStr "f2" ∧
  children_of nested_twin_store_1 4 = [] ∧
  nodes nested_twin_store_1 0 = [0; 1; 3; 4; 2] ∧
  _build_dom_tree nested_twin_page =
    (Ok (0, built_store nested_twin_page),
     [CallFrame (JStr "f1"); CallFrame (JStr "f2"); Print "Iframe not found"]) ∧
  children_of (built_store nested_twin_page) 4 = [5] ∧
  children_of (built_store nested_twin_page) 2 = [] ∧
  ¬ spliced_iframes_stay_unresolved.
Proof.
  assert (_build_dom_tree nested_twin_page =
            (Ok (0, built_store nested_twin_page),
             [CallFrame (JStr "f1"); CallFrame (JStr "f2"); Print "Iframe not found"]))
    as Hrun by (vm_compute; reflexivity).
  assert (resolve_iframes nested_twin_page 0 0 [1] nested_twin_store_0 [] =
            (Ok nested_twin_store_1, [CallFrame (JStr "f1")])) as Hround0
    by (vm_compute; reflexivity).
  repeat (split; [ first [ assumption | vm_compute; reflexivity ] | ]).
  intros Hclaim.
  pose proof (Hclaim nested_twin_page nested_twin_body 0 nested_twin_store_0 [1; 2] 1
                nested_twin_store_1 [CallFrame (JStr "f1")] _ _ 4
                eq_refl eq_refl eq_refl Hround0 Hrun) as Hchildren.
  vm_compute in Hchildren. specialize (Hchildren ltac:(lia) eq_refl). discriminate.
Qed.

(** ** Entries that are dropped *)

(** C3 as stated fails on [five_entries_one_empty_fields].  The five
    entries are a button, null, an empty record, null and a text.  The
    empty record is not null, but it is falsy: [_parse_node] returns [None]
    for it and the loop drops it.  The node has two children, the button and
    the text, where the three non-null entries would give three. *)
Lemma empty_record_entry_is_dropped_too :
  length five_entries_one_empty = 5 ∧
  List.filter is_None five_entries_one_empty = [JNull; JNull] ∧
  List.filter is_not_None five_entries_one_empty = [button_record; JObj []; hello_record] ∧
  (∀ parent h, _parse_node (JObj []) parent h = Ok (None, h)) ∧
  (∃ h',
     _parse_node (JObj five_entries_one_empty_fields) None [] = Ok (Some 0, h') ∧
     length h' = 3 ∧ children_of h' 0 = [1; 2] ∧
     is_element h' 1 = true ∧ is_element h' 2 = false) ∧
  ¬ null_entries_alone_are_dropped.
Proof.
  assert (∃ h', _parse_node (JObj five_entries_one_empty_fields) None [] = Ok (Some 0, h') ∧
                length h' = 3 ∧ children_of h' 0 = [1; 2] ∧
                is_element h' 1 = true ∧ is_element h' 2 = false)
    as (h' & Hrun & Hlen & Hchildren & Hbutton & Htext)
    by (eexists; repeat split; vm_compute; reflexivity).
  split; [ reflexivity | ]. split; [ reflexivity | ]. split; [ reflexivity | ].
  split; [ intros parent h; reflexivity | ].
  split; [ exists h'; auto | ].
  intros Hclaim.
  destruct (Hclaim five_entries_one_empty_fields five_entries_one_empty None [] 0 h'
              eq_refl eq_refl Hrun) as [_ Hthree].
  specialize (Hthree eq_refl eq_refl). rewrite Hchildren in Hthree. discriminate.
Qed.
